(** * Smart Vault CCTV: the recognition core, embedded and verified

    A shallow embedding of the numeric helpers ([src/face_utils.py]), the
    similarity index ([src/search_index.py]), the matcher with its temporal
    aggregator and adaptive updater ([src/main.py]) and the review workflow
    for unknown faces ([src/unknown_handler.py], [src/db_connection.py]),
    followed by the start-up of the system and the handling of one face
    of a frame ([src/main.py]), the index on disk and the alert mails
    ([src/email_alert.py]).

    Conventions of the embedding.
    - Floating-point numbers are idealised as real numbers: [astype('float32')]
      and [float(...)] are the identity, rounding is absent.
    - numpy does not raise on a division by zero; it answers nan (or an
      infinity) and goes on.  The value [NonFinite] of [Np.pyfloat] stands for
      such an entry, and absorbs every later sum and product.
    - A [try: ... except Exception] block is an [option]-valued attempt
      followed by the handler's result on [None].
    - Objects mutated in place ([self.names.append], [self.embeddings[idx] =])
      are threaded through as explicit state, in the order of the source.
    - What lies outside the program is given from outside: the time of a
      call, the files on disk, what the mail server answers, and the
      embedding and the JPEG bytes that the detection pipeline hands
      over for a face. *)

From Stdlib Require Import Reals Lra Lia List ZArith String.
From stdpp Require Import base option list sorting strings gmap.

Set Default Proof Using "Type".

(** ** numpy *)

Module Np.
Local Open Scope R_scope.

(** A one-dimensional float array. *)
Abbreviation ndarray := (list R).

(** A float that may have left the finite range. *)
Inductive pyfloat : Type :=
| Fin (r : R)
| NonFinite.

Definition sumsq (v : ndarray) : R :=
  fold_right (fun x acc => x * x + acc) 0 v.

(** [np.linalg.norm(v)] of a 1-D array. *)
Definition linalg_norm (v : ndarray) : R := sqrt (sumsq v).

Fixpoint inner (a b : ndarray) : R :=
  match a, b with
  | x :: a', y :: b' => x * y + inner a' b'
  | _, _ => 0
  end.

(** [np.dot(a, b)] of two 1-D arrays: [ValueError] unless the shapes are
    aligned. *)
Definition dot (a b : ndarray) : option R :=
  if decide (length a = length b) then Some (inner a b) else None.

(** [v / s] with a finite non-zero [s]. *)
Definition true_divide (v : ndarray) (s : R) : ndarray :=
  map (fun x => x / s) v.

(** [v / s] as numpy computes it for any [s]. *)
Definition divide (v : ndarray) (s : R) : list pyfloat :=
  map (fun x => if Req_dec_T s 0 then NonFinite else Fin (x / s)) v.

Definition fadd (a b : pyfloat) : pyfloat :=
  match a, b with
  | Fin x, Fin y => Fin (x + y)
  | _, _ => NonFinite
  end.

Definition fmul (a : pyfloat) (y : R) : pyfloat :=
  match a with
  | Fin x => Fin (x * y)
  | NonFinite => NonFinite
  end.

(** One row of [np.dot(matrix, q)]. *)
Fixpoint inner_nf (row : list pyfloat) (q : ndarray) : pyfloat :=
  match row, q with
  | x :: row', y :: q' => fadd (fmul x y) (inner_nf row' q')
  | _, _ => Fin 0
  end.

(** All entries finite: the array as a real vector. *)
Fixpoint finite (v : list pyfloat) : option ndarray :=
  match v with
  | [] => Some []
  | Fin x :: v' => option_map (cons x) (finite v')
  | NonFinite :: _ => None
  end.

(** [np.clip(x, lo, hi)]. *)
Definition clip (x lo hi : R) : R := Rmin (Rmax x lo) hi.

(** [np.array(rows).shape[1]]: the common row length of a non-empty
    rectangular list of rows.  A ragged list does not convert
    ([ValueError]) and an empty one yields a 1-D array with no second
    axis. *)
Definition shape1 (rows : list ndarray) : option nat :=
  match rows with
  | [] => None
  | row :: rest =>
      if forallb (fun r => Nat.eqb (length r) (length row)) rest
      then Some (length row) else None
  end.

(** [v * c]. *)
Definition scale (v : ndarray) (c : R) : ndarray := map (fun x => x * c) v.

(** [a + b] of two 1-D arrays: equal lengths, or one of them of length
    one, which is then broadcast; [ValueError] otherwise. *)
Definition add (a b : ndarray) : option ndarray :=
  if decide (length a = length b) then Some (zip_with Rplus a b)
  else
    match a, b with
    | [x], _ => Some (map (fun y => x + y) b)
    | _, [y] => Some (map (fun x => x + y) a)
    | _, _ => None
    end.

(** The sum of the rows of an [n] by [cols] matrix. *)
Definition column_sums (cols : nat) (rows : list ndarray) : ndarray :=
  fold_right (zip_with Rplus) (repeat 0 cols) rows.

(** [np.mean(rows, axis=0)]: [None] for rows that do not form a matrix.
    (The mean of no rows at all is a nan and is told apart by the
    caller.) *)
Definition mean_axis0 (rows : list ndarray) : option ndarray :=
  match shape1 rows with
  | None => None
  | Some cols =>
      Some (true_divide (column_sums cols rows) (INR (length rows)))
  end.

(** [a - b] of two 1-D arrays, with the broadcasting of [add]. *)
Definition subtract (a b : ndarray) : option ndarray :=
  if decide (length a = length b) then Some (zip_with Rminus a b)
  else
    match a, b with
    | [x], _ => Some (map (fun y => x - y) b)
    | _, [y] => Some (map (fun x => x - y) a)
    | _, _ => None
    end.
End Np.

(** ** src/face_utils.py *)

Module FaceUtils.
Import Np.
Local Open Scope R_scope.

Definition _normalize_embedding (embedding : ndarray) : ndarray :=
  let norm := linalg_norm embedding in
  if Req_dec_T norm 0 then embedding else true_divide embedding norm.

Definition cosine_similarity (emb1 emb2 : ndarray) : R :=
  let emb1 := _normalize_embedding emb1 in
  let emb2 := _normalize_embedding emb2 in
  match dot emb1 emb2 with
  | Some similarity => clip similarity 0 1
  | None => 0
  end.

(** The body of the [try] block of [batch_compare]. *)
Definition batch_compare_try (query_embedding : ndarray)
    (database_embeddings : list ndarray) : option (list pyfloat) :=
  match shape1 database_embeddings with
  | None => None
  | Some d =>
      let query := _normalize_embedding query_embedding in
      let db_matrix :=
        map (fun row => divide row (linalg_norm row)) database_embeddings in
      if decide (d = length query)
      then Some (map (fun row => inner_nf row query) db_matrix)
      else None
  end.

Definition batch_compare (query_embedding : ndarray)
    (database_embeddings : list ndarray) : list pyfloat :=
  match batch_compare_try query_embedding database_embeddings with
  | Some similarities => similarities
  | None => repeat (Fin 0) (length database_embeddings)
  end.

(** [float('inf')], the handler's answer, is [NonFinite]. *)
Definition euclidean_distance (emb1 emb2 : ndarray) : pyfloat :=
  match subtract emb1 emb2 with
  | Some difference => Fin (linalg_norm difference)
  | None => NonFinite
  end.
End FaceUtils.

(** ** faiss

    The two flat (exhaustive) indexes of the faiss library, as far as
    [search_index.py] uses them.  [IndexFlatIP] ranks by inner product,
    largest first; [IndexFlatL2] ranks by squared Euclidean distance,
    smallest first.  The Python wrappers assert the dimension of what they
    are given and [k > 0]; a search that asks for more neighbours than the
    index holds pads its answer with the label [-1].  Among vectors of
    equal score faiss promises no order: the order of the sort below is
    one of those possible, and which of several equal hits comes first
    is not to be read off it. *)

Module Faiss.
Import Np.
Local Open Scope R_scope.

Inductive metric : Type := IndexFlatIP | IndexFlatL2.

Record index : Type := mk_index {
  kind : metric;
  d : nat;
  xb : list ndarray            (* the vectors added so far *)
}.

(** [faiss.normalize_L2(m)]: every row scaled to unit length in place; a
    row of zero norm is left as it is. *)
Definition normalize_L2 (m : list ndarray) : list ndarray :=
  map (fun row =>
         if Req_dec_T (linalg_norm row) 0 then row
         else true_divide row (linalg_norm row)) m.

Definition sqdist (a b : ndarray) : R := sumsq (zip_with Rminus a b).

Definition score (m : metric) (q x : ndarray) : R :=
  match m with
  | IndexFlatIP => inner q x
  | IndexFlatL2 => sqdist q x
  end.

(** [a] is ranked no later than [b]. *)
Definition ranks (m : metric) (a b : R * Z) : Prop :=
  match m with
  | IndexFlatIP => b.1 <= a.1
  | IndexFlatL2 => a.1 <= b.1
  end.

#[global] Instance ranks_dec m : RelDecision (ranks m).
Proof. intros a b; destruct m; apply Rle_dec. Defined.

Definition FLT_MAX : R := 340282346638528859811704183484516925440.

Definition padding (m : metric) : R * Z :=
  match m with
  | IndexFlatIP => (- FLT_MAX, (-1)%Z)
  | IndexFlatL2 => (FLT_MAX, (-1)%Z)
  end.

(** [index.add(matrix)]. *)
Definition add (ix : index) (matrix : list ndarray) : index :=
  {| kind := kind ix; d := d ix; xb := xb ix ++ matrix |}.

Definition scored (ix : index) (q : ndarray) : list (R * Z) :=
  imap (fun i x => (score (kind ix) q x, Z.of_nat i)) (xb ix).

(** [index.search(np.array([q]), k)], the single row of distances and
    labels zipped; [None] is the wrapper's [AssertionError]. *)
Definition search (ix : index) (q : ndarray) (k : nat)
  : option (list (R * Z)) :=
  if decide (length q = d ix) then
    match k with
    | O => None
    | _ =>
        let best := take k (merge_sort (ranks (kind ix)) (scored ix q)) in
        Some (best ++ repeat (padding (kind ix)) (k - length best))
    end
  else None.
End Faiss.

(** ** src/search_index.py *)

Module FaissSearchIndex.
Import Np.
Local Open Scope R_scope.

Record t : Type := mk {
  dimension : nat;
  index : option Faiss.index;
  names : list string;
  embeddings : list ndarray;
  is_trained : bool
}.

Definition init (dimension : nat) : t :=
  {| dimension := dimension; index := None; names := [];
     embeddings := []; is_trained := false |}.

Definition build_index (self : t) (embeddings : list ndarray)
    (names : list string) (index_type : string) : t * bool :=
  if negb (Nat.eqb (length embeddings) (length names)) then (self, false)
  else if Nat.eqb (length embeddings) 0 then (self, false)
  else
    match shape1 embeddings with
    | None => (self, false)
    | Some cols =>
        let dimension :=
          if negb (Nat.eqb cols (dimension self)) then cols
          else dimension self in
        let '(embeddings_matrix, fresh) :=
          if String.eqb index_type "IP"
          then (Faiss.normalize_L2 embeddings,
                Faiss.mk_index Faiss.IndexFlatIP dimension [])
          else (embeddings,
                Faiss.mk_index Faiss.IndexFlatL2 dimension []) in
        ({| dimension := dimension;
            index := Some (Faiss.add fresh embeddings_matrix);
            names := names;
            embeddings := embeddings_matrix;
            is_trained := true |}, true)
    end.

(** The similarity reported for an L2 distance. *)
Definition l2_similarity (dist : R) : R := exp (- dist / 10).

(** The body of the loop over the hits of a search: the pair appended to
    [results], if any. *)
Definition result_of_hit (self : t) (ix : Faiss.index) (hit : R * Z)
  : option (string * R) :=
  let '(dist, idx) := hit in
  if bool_decide (0 <= idx)%Z
     && bool_decide (idx < Z.of_nat (length (names self)))%Z
  then
    let similarity :=
      match Faiss.kind ix with
      | Faiss.IndexFlatIP => dist
      | Faiss.IndexFlatL2 => l2_similarity dist
      end in
    option_map (fun name => (name, similarity)) (names self !! Z.to_nat idx)
  else None.

Definition query_index (self : t) (embedding : ndarray) (k : nat)
  : list (string * R) :=
  match is_trained self, index self with
  | true, Some ix =>
      let query_vector :=
        match Faiss.kind ix with
        | Faiss.IndexFlatIP =>
            match Faiss.normalize_L2 [embedding] with
            | [q] => q
            | _ => embedding
            end
        | Faiss.IndexFlatL2 => embedding
        end in
      let k := Nat.min k (length (names self)) in
      match Faiss.search ix query_vector k with
      | None => []
      | Some hits => omap (result_of_hit self ix) hits
      end
  | _, _ => []
  end.

(** [names.index(name)], [None] when [name not in names]. *)
Fixpoint list_index (name : string) (names : list string) : option nat :=
  match names with
  | [] => None
  | n :: rest =>
      if String.eqb n name then Some O
      else option_map S (list_index name rest)
  end.

(** [matrix[idx] = v]: [IndexError] out of range, [ValueError] when [v]
    does not broadcast to the row (it must have the row's length, or
    length one). *)
Definition setitem (matrix : list ndarray) (idx : nat) (v : ndarray)
  : option (list ndarray) :=
  match matrix !! idx with
  | None => None
  | Some row =>
      if decide (length v = length row) then Some (<[idx := v]> matrix)
      else
        match v with
        | [x] => Some (<[idx := map (fun _ => x) row]> matrix)
        | _ => None
        end
  end.

(** [np.delete(matrix, idx, axis=0)]: [IndexError] out of range. *)
Definition np_delete (matrix : list ndarray) (idx : nat)
  : option (list ndarray) :=
  match matrix !! idx with
  | None => None
  | Some _ => Some (delete idx matrix)
  end.

Definition update_embedding (self : t) (name : string)
    (new_embedding : ndarray) : t * bool :=
  match list_index name (names self) with
  | None => (self, false)
  | Some idx =>
      match setitem (embeddings self) idx new_embedding with
      | None => (self, false)
      | Some updated =>
          let self := {| dimension := dimension self; index := index self;
                         names := names self; embeddings := updated;
                         is_trained := is_trained self |} in
          build_index self (embeddings self) (names self) "L2"
      end
  end.

Definition add_face (self : t) (name : string) (embedding : ndarray)
  : t * bool :=
  let self := {| dimension := dimension self; index := index self;
                 names := names self ++ [name];
                 embeddings := embeddings self;
                 is_trained := is_trained self |} in
  let embeddings_list := embeddings self ++ [embedding] in
  build_index self embeddings_list (names self) "L2".

Definition remove_face (self : t) (name : string) : t * bool :=
  match list_index name (names self) with
  | None => (self, false)
  | Some idx =>
      let self := {| dimension := dimension self; index := index self;
                     names := delete idx (names self);
                     embeddings := embeddings self;
                     is_trained := is_trained self |} in
      match np_delete (embeddings self) idx with
      | None => (self, false)
      | Some embeddings_list =>
          if Nat.ltb 0 (length (names self))
          then build_index self embeddings_list (names self) "L2"
          else ({| dimension := dimension self; index := None;
                   names := names self; embeddings := embeddings self;
                   is_trained := false |}, true)
      end
  end.

(** The similarity [query_index] reports for a raw score of the index,
    and the vector it searches the index with. *)
Definition similarity_of (kind : Faiss.metric) (dist : R) : R :=
  match kind with
  | Faiss.IndexFlatIP => dist
  | Faiss.IndexFlatL2 => l2_similarity dist
  end.

Definition query_vector (kind : Faiss.metric) (embedding : ndarray)
  : ndarray :=
  match kind with
  | Faiss.IndexFlatIP => FaceUtils._normalize_embedding embedding
  | Faiss.IndexFlatL2 => embedding
  end.

(** The state a successful [build_index] leaves behind: names and rows
    correspond, every row has the width [dimension], and the faiss index
    holds those rows. *)
Definition consistent (self : t) : Prop :=
  is_trained self = true
  /\ names self <> []
  /\ length (embeddings self) = length (names self)
  /\ Forall (fun row => length row = dimension self) (embeddings self)
  /\ exists ix, index self = Some ix /\ Faiss.d ix = dimension self
                /\ Faiss.xb ix = embeddings self.

(** Calls on the index, and their effect in sequence. *)
Inductive call : Type :=
| BuildIndex (embeddings : list ndarray) (names : list string)
             (index_type : string)
| AddFace (name : string) (embedding : ndarray)
| UpdateEmbedding (name : string) (new_embedding : ndarray)
| RemoveFace (name : string).

Definition step (self : t) (c : call) : t * bool :=
  match c with
  | BuildIndex embeddings names index_type =>
      build_index self embeddings names index_type
  | AddFace name embedding => add_face self name embedding
  | UpdateEmbedding name e => update_embedding self name e
  | RemoveFace name => remove_face self name
  end.

Fixpoint run (self : t) (cs : list call) : t * list bool :=
  match cs with
  | [] => (self, [])
  | c :: cs' =>
      let '(self', ok) := step self c in
      let '(final, oks) := run self' cs' in
      (final, ok :: oks)
  end.

(** What [save_index] leaves on disk: the index as [faiss.write_index]
    serialises it (its kind, its dimension and its vectors), and the
    pickled metadata.  Writing is taken to succeed. *)
Inductive file : Type :=
| FaissFile (ix : Faiss.index)
| PickleFile (names : list string) (embeddings : list ndarray)
             (dimension : nat).

Abbreviation disk := (gmap string file).

Definition save_index (self : t) (filepath : string) (files : disk)
  : disk * bool :=
  if negb (is_trained self) then (files, false)
  else
    match index self with
    | None => (files, false)
    | Some ix =>
        let files := <[(filepath ++ ".faiss")%string := FaissFile ix]> files in
        let files :=
          <[(filepath ++ ".meta")%string :=
              PickleFile (names self) (embeddings self) (dimension self)]>
            files in
        (files, true)
    end.

(** [self.index] is assigned as soon as the first file is read. *)
Definition load_index (self : t) (filepath : string) (files : disk)
  : t * bool :=
  match files !! (filepath ++ ".faiss")%string with
  | Some (FaissFile ix) =>
      match files !! (filepath ++ ".meta")%string with
      | Some (PickleFile names embeddings dimension) =>
          ({| dimension := dimension; index := Some ix; names := names;
              embeddings := embeddings; is_trained := true |}, true)
      | _ =>
          ({| dimension := dimension self; index := Some ix;
              names := names self; embeddings := embeddings self;
              is_trained := is_trained self |}, false)
      end
  | _ => (self, false)
  end.

(** The module-level singleton [_search_index] and what the call returns. *)
Definition get_search_index (FAISS_AVAILABLE : bool)
    (_search_index : option t) (dimension : nat) : option t * option t :=
  if negb FAISS_AVAILABLE then (_search_index, None)
  else
    let _search_index :=
      match _search_index with
      | None => Some (init dimension)
      | Some ix => Some ix
      end in
    (_search_index, _search_index).

Definition should_use_faiss (FAISS_AVAILABLE : bool) (FAISS_THRESHOLD : Z)
    (num_faces : nat) : bool :=
  FAISS_AVAILABLE && bool_decide (FAISS_THRESHOLD <= Z.of_nat num_faces)%Z.
End FaissSearchIndex.

(** ** Python helpers *)

Module Py.
(** What a call that has no [try] of its own can come to. *)
Inductive outcome (A : Type) : Type :=
| Ok (a : A)        (* it returns *)
| Raised            (* an exception reaches the caller *)
| NotFinite.        (* it goes on with nan entries: outside the model *)
Arguments Ok {A} a.
Arguments Raised {A}.
Arguments NotFinite {A}.

(** A [dict] with [str] keys, in insertion order. *)
Abbreviation dict V := (list (string * V)).

Fixpoint dict_get {V} (key : string) (dc : dict V) : option V :=
  match dc with
  | [] => None
  | (k, v) :: rest => if String.eqb k key then Some v else dict_get key rest
  end.

(** [dc[key] = v]: an existing key keeps its place. *)
Fixpoint dict_set {V} (key : string) (v : V) (dc : dict V) : dict V :=
  match dc with
  | [] => [(key, v)]
  | (k, w) :: rest =>
      if String.eqb k key then (k, v) :: rest
      else (k, w) :: dict_set key v rest
  end.

(** [collections.deque(maxlen=...).append(x)]: the item is added on the
    right, then one item leaves on the left if the bound is exceeded. *)
Definition deque_append {A} (maxlen : nat) (dq : list A) (x : A) : list A :=
  let dq := dq ++ [x] in
  if Nat.ltb maxlen (length dq) then tail dq else dq.

(** [l.sort(key=key, reverse=True)]: largest key first; the sort is
    stable, items of equal key keep their order. *)
Fixpoint insert_reverse {A} (key : A -> R) (x : A) (l : list A) : list A :=
  match l with
  | [] => [x]
  | y :: rest =>
      if Rlt_dec (key x) (key y) then y :: insert_reverse key x rest
      else x :: l
  end.

Definition sort_reverse {A} (key : A -> R) (l : list A) : list A :=
  fold_right (insert_reverse key) [] l.
End Py.

(** ** src/config.py *)

Module Config.
Local Open Scope R_scope.
Definition ENABLE_ADAPTIVE_UPDATE : bool := true.
Definition ADAPTIVE_ALPHA : R := 1 / 10.
Definition ADAPTIVE_UPDATE_FREQUENCY : nat := 10.
Definition SAVE_UNKNOWN_FACES : bool := true.
Definition UNKNOWN_MIN_CONFIDENCE : R := 1 / 2.
Definition AUTO_REVIEW_THRESHOLD (MATCH_THRESHOLD : R) : R :=
  MATCH_THRESHOLD - 1 / 10.

(** The part of [validate_config] about the two settings read from the
    environment, [MATCH_THRESHOLD] and [MULTIFRAME_COUNT]. *)
Definition validate_config (MATCH_THRESHOLD : R) (MULTIFRAME_COUNT : nat)
  : Prop :=
  0 <= MATCH_THRESHOLD <= 1 /\ (1 <= MULTIFRAME_COUNT)%nat.
End Config.

(** ** src/db_connection.py

    The MongoDB collections as finite maps: [auth_coll] by its unique key
    [name], [logs_coll] and the GridFS bucket by object id.  [reachable]
    says whether the server answers; when it does not, every operation
    raises.  Times are those of [datetime.utcnow()], passed in by the
    caller.  Free-form [metadata] fields are left out. *)

Module DB.
Import Np.

Abbreviation ObjectId := N.
Abbreviation datetime := N.
Abbreviation bytes := (list Byte.byte).

Record authorized_face : Type := mk_face {
  af_id : ObjectId;
  af_embedding : ndarray;
  af_image_id : ObjectId;
  af_created_at : datetime;
  af_updated_at : datetime
}.

Record face_log : Type := mk_log {
  log_name : string;
  log_confidence : R;
  log_status : string;
  log_embedding : ndarray;
  log_image_id : ObjectId;
  log_camera_id : string;
  log_review_flag : bool;
  log_timestamp : datetime;
  log_enrolled_as : option string;
  log_enrolled_at : option datetime;
  log_dismissed : option bool;
  log_dismissed_at : option datetime
}.

Record t : Type := mk {
  reachable : bool;
  auth_coll : gmap string authorized_face;
  logs_coll : gmap ObjectId face_log;
  fs : gmap ObjectId bytes;
  next_id : ObjectId
}.

Definition set_auth_coll (db : t) (c : gmap string authorized_face) : t :=
  {| reachable := reachable db; auth_coll := c; logs_coll := logs_coll db;
     fs := fs db; next_id := next_id db |}.

Definition set_logs_coll (db : t) (c : gmap ObjectId face_log) : t :=
  {| reachable := reachable db; auth_coll := auth_coll db; logs_coll := c;
     fs := fs db; next_id := next_id db |}.

(** A fresh object id. *)
Definition new_id (db : t) : t * ObjectId :=
  ({| reachable := reachable db; auth_coll := auth_coll db;
      logs_coll := logs_coll db; fs := fs db;
      next_id := N.succ (next_id db) |}, next_id db).

(** [self.fs.put(image_bytes, ...)]. *)
Definition fs_put (db : t) (image_bytes : bytes) : t * ObjectId :=
  let '(db, image_id) := new_id db in
  ({| reachable := reachable db; auth_coll := auth_coll db;
      logs_coll := logs_coll db; fs := <[image_id := image_bytes]> (fs db);
      next_id := next_id db |}, image_id).

(** [None]: the exception is re-raised to the caller. *)
Definition add_authorized_face (db : t) (name : string)
    (embedding : ndarray) (image_bytes : bytes) (now : datetime)
  : option (t * ObjectId) :=
  if reachable db then
    let '(db, image_id) := fs_put db image_bytes in
    match auth_coll db !! name with
    | Some existing =>
        let doc := {| af_id := af_id existing; af_embedding := embedding;
                      af_image_id := image_id;
                      af_created_at := af_created_at existing;
                      af_updated_at := now |} in
        Some (set_auth_coll db (<[name := doc]> (auth_coll db)),
              af_id existing)
    | None =>
        let '(db, doc_id) := new_id db in
        let doc := {| af_id := doc_id; af_embedding := embedding;
                      af_image_id := image_id; af_created_at := now;
                      af_updated_at := now |} in
        Some (set_auth_coll db (<[name := doc]> (auth_coll db)), doc_id)
    end
  else None.

Definition update_authorized_embedding (db : t) (name : string)
    (new_embedding : ndarray) (now : datetime) : option t :=
  if reachable db then
    Some (set_auth_coll db
            (alter (fun doc =>
                      {| af_id := af_id doc; af_embedding := new_embedding;
                         af_image_id := af_image_id doc;
                         af_created_at := af_created_at doc;
                         af_updated_at := now |}) name (auth_coll db)))
  else None.

(** [None] also when the store cannot be reached: the error is caught. *)
Definition get_image (db : t) (file_id : ObjectId) : option bytes :=
  if reachable db then fs db !! file_id else None.

Definition set_fs (db : t) (files : gmap ObjectId bytes) : t :=
  {| reachable := reachable db; auth_coll := auth_coll db;
     logs_coll := logs_coll db; fs := files; next_id := next_id db |}.

(** [list(self.auth_coll.find())], every document under its name.  The
    server fixes no order for such a query; the model takes the order of
    the map.  [None]: the exception is re-raised. *)
Definition get_all_authorized (db : t)
  : option (list (string * authorized_face)) :=
  if reachable db then Some (map_to_list (auth_coll db)) else None.

(** [None] also when the store cannot be reached: the error is caught. *)
Definition get_authorized_by_name (db : t) (name : string)
  : option authorized_face :=
  if reachable db then auth_coll db !! name else None.

(** [None]: the exception is re-raised to the caller. *)
Definition save_detection_log (db : t) (name : string) (confidence : R)
    (status : string) (embedding : ndarray) (image_bytes : bytes)
    (camera_id : string) (review_flag : bool) (now : datetime)
  : option (t * ObjectId) :=
  if reachable db then
    let '(db, image_id) := fs_put db image_bytes in
    let '(db, log_id) := new_id db in
    let log := {| log_name := name; log_confidence := confidence;
                  log_status := status; log_embedding := embedding;
                  log_image_id := image_id; log_camera_id := camera_id;
                  log_review_flag := review_flag; log_timestamp := now;
                  log_enrolled_as := None; log_enrolled_at := None;
                  log_dismissed := None; log_dismissed_at := None |} in
    Some (set_logs_coll db (<[log_id := log]> (logs_coll db)), log_id)
  else None.

(** A filter on a string field is set only [if status:], that is for a
    string that is there and not empty. *)
Definition string_filter (wanted : option string) (actual : string) : bool :=
  match wanted with
  | None | Some EmptyString => true
  | Some wanted => String.eqb actual wanted
  end.

Definition matches (status camera_id : option string)
    (review_flag : option bool) (log : face_log) : bool :=
  string_filter status (log_status log)
  && string_filter camera_id (log_camera_id log)
  && match review_flag with
     | None => true
     | Some flag => Bool.eqb (log_review_flag log) flag
     end.

(** [a] is at least as recent as [b]. *)
Definition newer (a b : ObjectId * face_log) : Prop :=
  (log_timestamp b.2 <= log_timestamp a.2)%N.

#[global] Instance newer_dec : RelDecision newer.
Proof. intros a b; unfold newer; apply _. Defined.

(** [find(query).sort('timestamp', -1).limit(limit)], with the id of each
    document.  A limit of [0] is no limit.  The order of documents of
    the same timestamp is the server's choice.  [None]: the exception is
    re-raised. *)
Definition get_detection_logs (db : t) (limit : nat)
    (status camera_id : option string) (review_flag : option bool)
  : option (list (ObjectId * face_log)) :=
  if reachable db then
    let found :=
      filter (fun doc => matches status camera_id review_flag doc.2 = true)
             (map_to_list (logs_coll db)) in
    let sorted := merge_sort newer found in
    Some (match limit with O => sorted | _ => take limit sorted end)
  else None.

(** [Some (_, false)]: no such face; [None]: the exception is
    re-raised. *)
Definition delete_authorized_face (db : t) (name : string)
  : option (t * bool) :=
  if reachable db then
    match auth_coll db !! name with
    | None => Some (db, false)
    | Some face =>
        let db := set_fs db (delete (af_image_id face) (fs db)) in
        Some (set_auth_coll db (delete name (auth_coll db)), true)
    end
  else None.
End DB.

(** ** src/unknown_handler.py *)

Module UnknownFaceHandler.
Import DB.

Definition mark_enrolled (name : string) (now : datetime) (l : face_log)
  : face_log :=
  {| log_name := log_name l; log_confidence := log_confidence l;
     log_status := log_status l; log_embedding := log_embedding l;
     log_image_id := log_image_id l; log_camera_id := log_camera_id l;
     log_review_flag := false; log_timestamp := log_timestamp l;
     log_enrolled_as := Some name; log_enrolled_at := Some now;
     log_dismissed := log_dismissed l;
     log_dismissed_at := log_dismissed_at l |}.

Definition mark_dismissed (now : datetime) (l : face_log) : face_log :=
  {| log_name := log_name l; log_confidence := log_confidence l;
     log_status := log_status l; log_embedding := log_embedding l;
     log_image_id := log_image_id l; log_camera_id := log_camera_id l;
     log_review_flag := false; log_timestamp := log_timestamp l;
     log_enrolled_as := log_enrolled_as l;
     log_enrolled_at := log_enrolled_at l;
     log_dismissed := Some true; log_dismissed_at := Some now |}.

Definition enroll_unknown_as_authorized (db : t) (log_id : ObjectId)
    (name : string) (now : datetime) : t * bool :=
  if reachable db then
    match logs_coll db !! log_id with
    | None => (db, false)
    | Some log =>
        let embedding := log_embedding log in
        let image_id := log_image_id log in
        match get_image db image_id with
        | None | Some [] => (db, false)
        | Some image_bytes =>
            match add_authorized_face db name embedding image_bytes now with
            | None => (db, false)
            | Some (db, _) =>
                (set_logs_coll db
                   (alter (mark_enrolled name now) log_id (logs_coll db)),
                 true)
            end
        end
    end
  else (db, false).

(** [update_one] counts a document as modified only if the [$set] changes
    one of its fields. *)
Definition dismiss_unknown (db : t) (log_id : ObjectId) (now : datetime)
  : t * bool :=
  if reachable db then
    match logs_coll db !! log_id with
    | None => (db, false)
    | Some log =>
        if bool_decide (log_review_flag log = false
                        /\ log_dismissed log = Some true
                        /\ log_dismissed_at log = Some now)
        then (db, false)
        else (set_logs_coll db
                (<[log_id := mark_dismissed now log]> (logs_coll db)), true)
    end
  else (db, false).

(** [[]] also when the store cannot be reached: the error is caught. *)
Definition get_unknown_faces (db : t) (limit : nat)
  : list (ObjectId * face_log) :=
  default [] (get_detection_logs db limit (Some "Unauthorized"%string) None
                                 (Some true)).

Definition delete_unknown (db : t) (log_id : ObjectId) : t * bool :=
  if reachable db then
    let db :=
      match logs_coll db !! log_id with
      | Some log => set_fs db (delete (log_image_id log) (fs db))
      | None => db
      end in
    match logs_coll db !! log_id with
    | Some _ => (set_logs_coll db (delete log_id (logs_coll db)), true)
    | None => (db, false)
    end
  else (db, false).

(** The loop of [get_similar_unknowns] over one pending detection: the
    item appended to [similar], if any. *)
Definition similar_item (log_id : ObjectId) (ref_embedding : Np.ndarray)
    (threshold : R) (unknown : ObjectId * face_log)
  : option (ObjectId * face_log * R) :=
  if N.eqb unknown.1 log_id then None
  else
    let similarity :=
      FaceUtils.cosine_similarity ref_embedding (log_embedding unknown.2) in
    if Rge_dec similarity threshold then Some (unknown, similarity)
    else None.

Definition get_similar_unknowns (db : t) (log_id : ObjectId)
    (threshold : R) (limit : nat) : list (ObjectId * face_log * R) :=
  if reachable db then
    match logs_coll db !! log_id with
    | None => []
    | Some ref_log =>
        let ref_embedding := log_embedding ref_log in
        match get_detection_logs db 1000 (Some "Unauthorized"%string) None
                                 (Some true) with
        | None => []
        | Some unknowns =>
            let similar :=
              omap (similar_item log_id ref_embedding threshold) unknowns in
            take limit (Py.sort_reverse snd similar)
        end
    end
  else [].

(** The review state a log document is in. *)
Inductive reviewState : Type := Unreviewed | Dismissed | Enrolled.

Definition review_state (l : face_log) : reviewState :=
  match log_enrolled_as l, log_dismissed l with
  | Some _, _ => Enrolled
  | None, Some true => Dismissed
  | None, _ => Unreviewed
  end.
End UnknownFaceHandler.

(** ** src/email_alert.py

    Clock readings are seconds, as real numbers.  What the SMTP server
    does with a message is given from outside. *)

Module EmailAlertSystem.
Local Open Scope R_scope.

Record t : Type := mk {
  enabled : bool;
  cooldown : R;
  last_email_time : option R
}.

(** Alerts stay switched on only if a password is set. *)
Definition init (ENABLE_EMAIL_ALERTS : bool) (EMAIL_PASSWORD : string)
    (EMAIL_COOLDOWN : Z) : t :=
  {| enabled :=
       ENABLE_EMAIL_ALERTS
       && match EMAIL_PASSWORD with EmptyString => false | _ => true end;
     cooldown := IZR EMAIL_COOLDOWN;
     last_email_time := None |}.

Definition can_send_email (self : t) (now : R) : bool :=
  match last_email_time self with
  | None => true
  | Some last =>
      let elapsed := now - last in
      if Rge_dec elapsed (cooldown self) then true else false
  end.

(** How the attempt to hand the message to the server ends: it is sent,
    by the time [sent_at]; the login is refused; or anything else goes
    wrong. *)
Inductive smtp : Type :=
| Sent (sent_at : R)
| SMTPAuthenticationError
| OtherError.

Definition send_alert (self : t) (now : R) (attempt : smtp) : t * bool :=
  if negb (enabled self) then (self, false)
  else if negb (can_send_email self now) then (self, false)
  else
    match attempt with
    | Sent sent_at =>
        ({| enabled := enabled self; cooldown := cooldown self;
            last_email_time := Some sent_at |}, true)
    | SMTPAuthenticationError =>
        ({| enabled := false; cooldown := cooldown self;
            last_email_time := last_email_time self |}, false)
    | OtherError => (self, false)
    end.

(** Alerts asked for one after the other: the final state and which of
    them went out. *)
Fixpoint send_alerts (self : t) (attempts : list (R * smtp))
  : t * list bool :=
  match attempts with
  | [] => (self, [])
  | (now, attempt) :: rest =>
      let '(self, sent) := send_alert self now attempt in
      let '(final, sents) := send_alerts self rest in
      (final, sent :: sents)
  end.
End EmailAlertSystem.

(** ** src/main.py *)

Module FaceRecognitionSystem.
Import Np Py.
Local Open Scope R_scope.

Record t : Type := mk {
  db : DB.t;
  authorized_cache : dict ndarray;
  recognition_counts : gmap string nat;
  search_index : option FaissSearchIndex.t;
  use_faiss : bool;
  frame_buffers : gmap Z (list ndarray)
}.

Definition set_frame_buffers (self : t) (b : gmap Z (list ndarray)) : t :=
  {| db := db self; authorized_cache := authorized_cache self;
     recognition_counts := recognition_counts self;
     search_index := search_index self; use_faiss := use_faiss self;
     frame_buffers := b |}.

Definition set_recognition_counts (self : t) (c : gmap string nat) : t :=
  {| db := db self; authorized_cache := authorized_cache self;
     recognition_counts := c;
     search_index := search_index self; use_faiss := use_faiss self;
     frame_buffers := frame_buffers self |}.

Definition set_authorized_cache (self : t) (c : dict ndarray) : t :=
  {| db := db self; authorized_cache := c;
     recognition_counts := recognition_counts self;
     search_index := search_index self; use_faiss := use_faiss self;
     frame_buffers := frame_buffers self |}.

Definition set_db (self : t) (d : DB.t) : t :=
  {| db := d; authorized_cache := authorized_cache self;
     recognition_counts := recognition_counts self;
     search_index := search_index self; use_faiss := use_faiss self;
     frame_buffers := frame_buffers self |}.

Definition set_search_index (self : t) (ix : option FaissSearchIndex.t)
  : t :=
  {| db := db self; authorized_cache := authorized_cache self;
     recognition_counts := recognition_counts self;
     search_index := ix; use_faiss := use_faiss self;
     frame_buffers := frame_buffers self |}.

Definition set_use_faiss (self : t) (flag : bool) : t :=
  {| db := db self; authorized_cache := authorized_cache self;
     recognition_counts := recognition_counts self;
     search_index := search_index self; use_faiss := flag;
     frame_buffers := frame_buffers self |}.

Section Settings.
(** [config.MATCH_THRESHOLD] and [config.MULTIFRAME_COUNT]. *)
Variable MATCH_THRESHOLD : R.
Variable MULTIFRAME_COUNT : nat.

(** One turn of the linear search loop of [recognize_face]. *)
Definition linear_step (embedding : ndarray)
    (acc : option string * R) (item : string * ndarray)
  : option string * R :=
  let '(best_match, best_similarity) := acc in
  let '(name, auth_embedding) := item in
  let similarity := FaceUtils.cosine_similarity embedding auth_embedding in
  if Rgt_dec similarity best_similarity then
    (if Rge_dec similarity MATCH_THRESHOLD then Some name else best_match,
     similarity)
  else (best_match, best_similarity).

(** What the linear search has established once it has gone through the
    entries [seen], with [acc] the pair of [best_match] and
    [best_similarity]. *)
Definition scanned (embedding : ndarray) (seen : dict ndarray)
    (acc : option string * R) : Prop :=
  0 <= acc.2
  /\ (forall name auth, (name, auth) ∈ seen ->
        FaceUtils.cosine_similarity embedding auth <= acc.2)
  /\ (acc.2 < MATCH_THRESHOLD -> acc.1 = None)
  /\ (MATCH_THRESHOLD <= acc.2 ->
      exists name auth, (name, auth) ∈ seen
        /\ FaceUtils.cosine_similarity embedding auth = acc.2
        /\ acc.1 = Some name).

Definition recognize_face (self : t) (embedding : ndarray)
  : option string * R :=
  match authorized_cache self with
  | [] => (None, 0)
  | _ =>
      match use_faiss self, search_index self with
      | true, Some ix =>
          match FaissSearchIndex.query_index ix embedding 1 with
          | (name, similarity) :: _ =>
              if Rge_dec similarity MATCH_THRESHOLD
              then (Some name, similarity) else (None, similarity)
          | [] => (None, 0)
          end
      | _, _ =>
          fold_left (linear_step embedding) (authorized_cache self)
                    (None, 0)
      end
  end.

(** [s] is the highest cosine similarity of [embedding] to an entry of
    the catalogue. *)
Definition highest_similarity (embedding : ndarray) (cache : dict ndarray)
    (s : R) : Prop :=
  (forall name auth_embedding,
      (name, auth_embedding) ∈ cache ->
      FaceUtils.cosine_similarity embedding auth_embedding <= s)
  /\ exists name auth_embedding,
      (name, auth_embedding) ∈ cache
      /\ FaceUtils.cosine_similarity embedding auth_embedding = s.

(** [self.frame_buffers[face_id]] after the new embedding is added. *)
Definition buffered (self : t) (face_id : Z) (embedding : ndarray)
  : list ndarray :=
  deque_append MULTIFRAME_COUNT
    (default [] (frame_buffers self !! face_id)) embedding.

(** The mean of the buffer, scaled by its norm. *)
Definition averaged_embedding (buffer : list ndarray) : outcome ndarray :=
  match buffer with
  | [] => NotFinite
  | _ =>
      match mean_axis0 buffer with
      | None => Raised
      | Some mean =>
          match finite (divide mean (linalg_norm mean)) with
          | Some averaged => Ok averaged
          | None => NotFinite
          end
      end
  end.

Definition multi_frame_recognize (self : t) (face_id : Z)
    (embedding : ndarray) : t * outcome (option string * R) :=
  let buffer := buffered self face_id embedding in
  let self := set_frame_buffers self
                (<[face_id := buffer]> (frame_buffers self)) in
  (self,
   match averaged_embedding buffer with
   | Ok averaged => Ok (recognize_face self averaged)
   | Raised => Raised
   | NotFinite => NotFinite
   end).

(** The embeddings of consecutive frames, all under one tracking key, go
    through [multi_frame_recognize]: the final state and what each call
    came to. *)
Fixpoint observe_all (self : t) (face_id : Z) (embeddings : list ndarray)
  : t * list (outcome (option string * R)) :=
  match embeddings with
  | [] => (self, [])
  | embedding :: rest =>
      let '(self, result) := multi_frame_recognize self face_id embedding in
      let '(final, results) := observe_all self face_id rest in
      (final, result :: results)
  end.
End Settings.

(** [old * (1 - alpha) + new * alpha]. *)
Definition blend (old_embedding new_embedding : ndarray) : option ndarray :=
  add (scale old_embedding (1 - Config.ADAPTIVE_ALPHA))
      (scale new_embedding Config.ADAPTIVE_ALPHA).

Definition update_adaptive_embedding (self : t) (name : string)
    (new_embedding : ndarray) (now : DB.datetime) : outcome t :=
  if negb Config.ENABLE_ADAPTIVE_UPDATE then Ok self
  else
    let count := (default 0%nat (recognition_counts self !! name) + 1)%nat in
    let self := set_recognition_counts self
                  (<[name := count]> (recognition_counts self)) in
    if Nat.eqb (count mod Config.ADAPTIVE_UPDATE_FREQUENCY) 0 then
      match dict_get name (authorized_cache self) with
      | None => Ok self
      | Some old_embedding =>
          match blend old_embedding new_embedding with
          | None => Ok self
          | Some updated =>
              match finite (divide updated (linalg_norm updated)) with
              | None => NotFinite
              | Some updated_embedding =>
                  let self :=
                    set_authorized_cache self
                      (dict_set name updated_embedding
                                (authorized_cache self)) in
                  match DB.update_authorized_embedding
                          (db self) name updated_embedding now with
                  | None => Ok self
                  | Some db' =>
                      let self := set_db self db' in
                      match use_faiss self, search_index self with
                      | true, Some ix =>
                          Ok (set_search_index self
                                (Some (FaissSearchIndex.update_embedding
                                         ix name updated_embedding).1))
                      | _, _ => Ok self
                      end
                  end
              end
          end
      end
    else Ok self.

(** [update_adaptive_embedding] called once per recognition, in order. *)
Fixpoint recognitions (self : t) (name : string)
    (observed : list ndarray) (now : DB.datetime) : outcome t :=
  match observed with
  | [] => Ok self
  | e :: rest =>
      match update_adaptive_embedding self name e now with
      | Ok self' => recognitions self' name rest now
      | Raised => Raised
      | NotFinite => NotFinite
      end
  end.

(** One turn of the loop of [load_authorized_faces]. *)
Definition cache_face (self : t) (face : string * DB.authorized_face) : t :=
  let '(name, doc) := face in
  let self :=
    set_authorized_cache self
      (dict_set name (DB.af_embedding doc) (authorized_cache self)) in
  set_recognition_counts self (<[name := 0%nat]> (recognition_counts self)).

Definition load_authorized_faces (self : t) : outcome t :=
  match DB.get_all_authorized (db self) with
  | None => Raised
  | Some [] => Ok self
  | Some authorized_faces => Ok (fold_left cache_face authorized_faces self)
  end.

Section Environment.
(** Whether [import faiss] succeeded, and the settings read from the
    environment. *)
Variable FAISS_AVAILABLE : bool.
Variable FAISS_THRESHOLD : Z.
Variable MATCH_THRESHOLD : R.
Variable MULTIFRAME_COUNT : nat.
Variable CAMERA_ID : string.

(** The system holds the only reference to the module's singleton index,
    which is therefore the field [search_index] itself. *)
Definition _init_faiss_index (self : t) : t :=
  let names := map fst (authorized_cache self) in
  let embeddings := map snd (authorized_cache self) in
  match embeddings with
  | [] => set_use_faiss self false
  | first :: _ =>
      match (FaissSearchIndex.get_search_index
               FAISS_AVAILABLE (search_index self) (length first)).2 with
      | None => set_search_index self None
      | Some ix =>
          set_search_index self
            (Some (FaissSearchIndex.build_index ix embeddings names "IP").1)
      end
  end.

(** [FaceRecognitionSystem()], as far as the state kept here goes. *)
Definition init (database : DB.t) : outcome t :=
  let self := {| db := database; authorized_cache := [];
                 recognition_counts := ∅; search_index := None;
                 use_faiss := false; frame_buffers := ∅ |} in
  match load_authorized_faces self with
  | Ok self =>
      let self := set_search_index self None in
      let self :=
        set_use_faiss self
          (FaissSearchIndex.should_use_faiss
             FAISS_AVAILABLE FAISS_THRESHOLD
             (length (authorized_cache self))) in
      Ok (if use_faiss self then _init_faiss_index self else self)
  | Raised => Raised
  | NotFinite => NotFinite
  end.

(** The state in which [_save_unknown_face] stops.  After its [try]
    block the function goes on to draw with [frame], [x], [y], [color]
    and [label], names bound neither in the function nor in the module:
    every call ends in a [NameError]. *)
Definition _save_unknown_face (self : t) (embedding : ndarray)
    (confidence : R) (review_flag : bool) (face_bytes : DB.bytes)
    (now : DB.datetime) : t :=
  match DB.save_detection_log (db self) "Unknown" confidence "Unauthorized"
          embedding face_bytes CAMERA_ID review_flag now with
  | Some (db', _) => set_db self db'
  | None => self
  end.

(** The detection log at the end of a turn of the loop of
    [process_frame]; an error of the store is caught. *)
Definition log_detection (self : t) (name : option string) (confidence : R)
    (status : string) (embedding : ndarray) (face_bytes : DB.bytes)
    (now : DB.datetime) : t :=
  let review_flag :=
    String.eqb status "Unauthorized"
    && (if Rge_dec confidence (Config.AUTO_REVIEW_THRESHOLD MATCH_THRESHOLD)
        then true else false) in
  match DB.save_detection_log (db self) (default "Unknown"%string name)
          confidence status embedding face_bytes CAMERA_ID review_flag now
  with
  | Some (db', _) => set_db self db'
  | None => self
  end.

(** One turn of the loop of [process_frame], for a face that was cropped
    and embedded: [face_id] is the tracking key, [face_bytes] the JPEG of
    the crop.  An empty name counts as no name ([if name:]). *)
Definition process_face (self : t) (mail : EmailAlertSystem.t)
    (face_id : Z) (embedding : ndarray) (face_bytes : DB.bytes)
    (now : DB.datetime) (clock : R) (attempt : EmailAlertSystem.smtp)
  : t * EmailAlertSystem.t * outcome unit :=
  let '(self, recognised) :=
    multi_frame_recognize MATCH_THRESHOLD MULTIFRAME_COUNT
                          self face_id embedding in
  match recognised with
  | Raised => (self, mail, Raised)
  | NotFinite => (self, mail, NotFinite)
  | Ok (Some (String _ _ as name), confidence) =>
      match update_adaptive_embedding self name embedding now with
      | Ok self =>
          (log_detection self (Some name) confidence "Authorized"
                         embedding face_bytes now, mail, Ok tt)
      | Raised => (self, mail, Raised)
      | NotFinite => (self, mail, NotFinite)
      end
  | Ok (_, confidence) =>
      let mail := (EmailAlertSystem.send_alert mail clock attempt).1 in
      if Config.SAVE_UNKNOWN_FACES
         && (if Rge_dec confidence Config.UNKNOWN_MIN_CONFIDENCE
             then true else false)
      then
        let review_flag :=
          if Rge_dec confidence (Config.AUTO_REVIEW_THRESHOLD MATCH_THRESHOLD)
          then true else false in
        (_save_unknown_face self embedding confidence review_flag
                            face_bytes now, mail, Raised)
      else
        (log_detection self None confidence "Unauthorized"
                       embedding face_bytes now, mail, Ok tt)
  end.
End Environment.
End FaceRecognitionSystem.

(** ** The logical entry set (section 4.2 of the specification)

    What [insert], [update] and [remove] are meant to do to the catalogue,
    in the words of the specification: the set of entries is mutated and the
    index is then rebuilt from all of it.  [rebuilt] is the index built from
    scratch over an entry set, the yardstick for the maintained index. *)

Module EntrySet.
Import Np.

Abbreviation t := (list (string * ndarray)).

Definition insert (es : t) (name : string) (vector : ndarray) : t :=
  es ++ [(name, vector)].

Fixpoint update (es : t) (name : string) (vector : ndarray) : t :=
  match es with
  | [] => []
  | (n, v) :: rest =>
      if String.eqb n name then (n, vector) :: rest
      else (n, v) :: update rest name vector
  end.

Fixpoint remove (es : t) (name : string) : t :=
  match es with
  | [] => []
  | (n, v) :: rest =>
      if String.eqb n name then rest else (n, v) :: remove rest name
  end.

Definition apply (es : t) (c : FaissSearchIndex.call) : t :=
  match c with
  | FaissSearchIndex.BuildIndex embeddings names _ => zip names embeddings
  | FaissSearchIndex.AddFace name vector => insert es name vector
  | FaissSearchIndex.UpdateEmbedding name vector => update es name vector
  | FaissSearchIndex.RemoveFace name => remove es name
  end.

(** The entry set after a sequence of calls: every call counted, or only
    those that the index answered with [True]. *)
Definition requested (cs : list FaissSearchIndex.call) : t :=
  fold_left apply cs [].

Definition accepted (cs : list FaissSearchIndex.call) (oks : list bool) : t :=
  fold_left (fun es '(c, ok) => if ok : bool then apply es c else es)
            (zip cs oks) [].

(** The calls for which section 4.2 can be met by the code as it is: a
    mutation with a vector of the catalogue's width, of a name that is
    there where one is needed, which does not empty the catalogue. *)
Definition admissible (cols : nat) (es : t) (c : FaissSearchIndex.call)
  : Prop :=
  match c with
  | FaissSearchIndex.BuildIndex _ _ _ => False
  | FaissSearchIndex.AddFace _ vector => length vector = cols
  | FaissSearchIndex.UpdateEmbedding name vector =>
      length vector = cols
      /\ is_Some (FaissSearchIndex.list_index name (map fst es))
  | FaissSearchIndex.RemoveFace name =>
      is_Some (FaissSearchIndex.list_index name (map fst es))
      /\ 2 <= length es
  end.

Fixpoint admissible_run (cols : nat) (es : t)
    (cs : list FaissSearchIndex.call) : Prop :=
  match cs with
  | [] => True
  | c :: cs' => admissible cols es c /\ admissible_run cols (apply es c) cs'
  end.

Definition rebuilt (dimension : nat) (es : t) (index_type : string)
  : FaissSearchIndex.t :=
  (FaissSearchIndex.build_index (FaissSearchIndex.init dimension)
     (map snd es) (map fst es) index_type).1.
End EntrySet.

(** ** A small installation, for the concrete runs below *)

Module Scenario.
Import Np.
Local Open Scope R_scope.

(** One enrolled identity, one unmatched detection awaiting review. *)
Definition alice : DB.authorized_face :=
  {| DB.af_id := 1%N; DB.af_embedding := [1; 0]; DB.af_image_id := 2%N;
     DB.af_created_at := 50%N; DB.af_updated_at := 50%N |}.

Definition sighting : DB.face_log :=
  {| DB.log_name := "Unknown"; DB.log_confidence := 0;
     DB.log_status := "Unauthorized"; DB.log_embedding := [0; 1];
     DB.log_image_id := 4%N; DB.log_camera_id := "cam_01";
     DB.log_review_flag := true; DB.log_timestamp := 90%N;
     DB.log_enrolled_as := None; DB.log_enrolled_at := None;
     DB.log_dismissed := None; DB.log_dismissed_at := None |}.

Definition store : DB.t :=
  {| DB.reachable := true;
     DB.auth_coll := {[ "alice"%string := alice ]};
     DB.logs_coll := {[ 3%N := sighting ]};
     DB.fs := <[ 2%N := [Byte.x01] ]> {[ 4%N := [Byte.x02] ]};
     DB.next_id := 5%N |}.

(** The recognition system over that store, searching linearly. *)
Definition system (count : nat) : FaceRecognitionSystem.t :=
  {| FaceRecognitionSystem.db := store;
     FaceRecognitionSystem.authorized_cache := [("alice"%string, [1; 0])];
     FaceRecognitionSystem.recognition_counts := {[ "alice"%string := count ]};
     FaceRecognitionSystem.search_index := None;
     FaceRecognitionSystem.use_faiss := false;
     FaceRecognitionSystem.frame_buffers := ∅ |}.

(** The same system with the search index in use, the index being the
    one that start-up builds over the cache. *)
Definition indexed_system (count : nat) : FaceRecognitionSystem.t :=
  FaceRecognitionSystem._init_faiss_index true
    (FaceRecognitionSystem.set_use_faiss (system count) true).

(** A second identity, and the system with both in its cache. *)
Definition bob : DB.authorized_face :=
  {| DB.af_id := 6%N; DB.af_embedding := [0; 1]; DB.af_image_id := 7%N;
     DB.af_created_at := 60%N; DB.af_updated_at := 60%N |}.

Definition store_of_two : DB.t :=
  {| DB.reachable := true;
     DB.auth_coll := <[ "bob"%string := bob ]> {[ "alice"%string := alice ]};
     DB.logs_coll := {[ 3%N := sighting ]};
     DB.fs := <[ 7%N := [Byte.x03] ]>
                (<[ 2%N := [Byte.x01] ]> {[ 4%N := [Byte.x02] ]});
     DB.next_id := 8%N |}.

Definition system_of_two : FaceRecognitionSystem.t :=
  {| FaceRecognitionSystem.db := store_of_two;
     FaceRecognitionSystem.authorized_cache :=
       [("alice"%string, [1; 0]); ("bob"%string, [0; 1])];
     FaceRecognitionSystem.recognition_counts :=
       <[ "bob"%string := 0%nat ]> {[ "alice"%string := 0%nat ]};
     FaceRecognitionSystem.search_index := None;
     FaceRecognitionSystem.use_faiss := false;
     FaceRecognitionSystem.frame_buffers := ∅ |}.
End Scenario.

(** * Properties *)

(** ** Vector arithmetic *)

Section NpFacts.
Import Np.
Local Open Scope R_scope.

Lemma sumsq_nonneg (v : ndarray) : 0 <= sumsq v.
Proof. induction v as [|x v IH]; simpl; [lra | nra]. Qed.

Lemma linalg_norm_sq (v : ndarray) :
  linalg_norm v * linalg_norm v = sumsq v.
Proof. apply sqrt_sqrt, sumsq_nonneg. Qed.

Lemma linalg_norm_unit (v : ndarray) : sumsq v = 1 -> linalg_norm v = 1.
Proof. intros H; unfold linalg_norm; rewrite H; apply sqrt_1. Qed.

Lemma linalg_norm_zero (v : ndarray) : sumsq v = 0 -> linalg_norm v = 0.
Proof. intros H; unfold linalg_norm; rewrite H; apply sqrt_0. Qed.

Lemma true_divide_one (v : ndarray) : true_divide v 1 = v.
Proof.
  unfold true_divide; induction v as [|x v IH]; simpl; [done|].
  rewrite IH; f_equal; lra.
Qed.

Lemma length_true_divide (v : ndarray) s : length (true_divide v s) = length v.
Proof. apply length_map. Qed.

Lemma sumsq_true_divide (v : ndarray) s :
  s <> 0 -> sumsq (true_divide v s) = sumsq v / (s * s).
Proof.
  intros Hs; induction v as [|x v IH]; simpl.
  - unfold Rdiv; lra.
  - fold (true_divide v s); rewrite IH; field; done.
Qed.

(** Scaling a non-zero vector by its norm gives a unit vector. *)
Lemma sumsq_normalized (v : ndarray) :
  linalg_norm v <> 0 -> sumsq (true_divide v (linalg_norm v)) = 1.
Proof.
  intros Hn; rewrite sumsq_true_divide by done.
  rewrite linalg_norm_sq; apply Rdiv_diag.
  rewrite <- linalg_norm_sq; nra.
Qed.

Lemma inner_comm (a b : ndarray) : inner a b = inner b a.
Proof.
  revert b; induction a as [|x a IH]; intros [|y b]; simpl; try done.
  rewrite IH; lra.
Qed.

Lemma sumsq_combination (a b : ndarray) c1 c2 :
  length a = length b ->
  sumsq (zip_with Rplus (scale a c1) (scale b c2))
  = c1 * c1 * sumsq a + c2 * c2 * sumsq b + 2 * c1 * c2 * inner a b.
Proof.
  revert b; induction a as [|x a IH]; intros [|y b] Hlen; simpl in *;
    try lia; [lra|].
  fold (scale a c1) (scale b c2). rewrite IH by lia. lra.
Qed.

(** The inner product of two unit vectors is at least -1. *)
Lemma inner_unit_lower (a b : ndarray) :
  length a = length b -> sumsq a = 1 -> sumsq b = 1 -> -1 <= inner a b.
Proof.
  intros Hlen Ha Hb.
  pose proof (sumsq_nonneg (zip_with Rplus (scale a 1) (scale b 1))) as H.
  rewrite sumsq_combination in H by done. lra.
Qed.

Lemma linalg_norm_unit_inv (v : ndarray) : linalg_norm v = 1 -> sumsq v = 1.
Proof. intros H. rewrite <- linalg_norm_sq, H. lra. Qed.

(** The inner product of two unit vectors is at most 1. *)
Lemma inner_unit_upper (a b : ndarray) :
  length a = length b -> sumsq a = 1 -> sumsq b = 1 -> inner a b <= 1.
Proof.
  intros Hlen Ha Hb.
  pose proof (sumsq_nonneg (zip_with Rplus (scale a 1) (scale b (-1)))) as H.
  rewrite sumsq_combination in H by done. lra.
Qed.

Lemma inner_zero_r (a b : ndarray) : sumsq b = 0 -> inner a b = 0.
Proof.
  revert a; induction b as [|y b IH]; intros [|x a] Hb; simpl in *; try done.
  pose proof (sumsq_nonneg b). assert (y = 0) as -> by nra.
  rewrite IH by nra. lra.
Qed.

Lemma linalg_norm_zero_inv (v : ndarray) : linalg_norm v = 0 -> sumsq v = 0.
Proof. intros H. rewrite <- linalg_norm_sq, H. lra. Qed.

Lemma divide_nonzero (v : ndarray) s :
  s <> 0 -> divide v s = map Fin (true_divide v s).
Proof.
  intros Hs; unfold divide, true_divide; rewrite map_map.
  apply map_ext; intros x; destruct (Req_dec_T s 0); done.
Qed.

Lemma finite_map_Fin (v : ndarray) : finite (map Fin v) = Some v.
Proof. induction v as [|x v IH]; simpl; [done | by rewrite IH]. Qed.

Lemma inner_nf_Fin (a q : ndarray) : inner_nf (map Fin a) q = Fin (inner a q).
Proof.
  revert q; induction a as [|x a IH]; intros [|y q]; simpl; try done.
  by rewrite IH.
Qed.

Lemma clip_unit_range x : 0 <= clip x 0 1 <= 1.
Proof.
  unfold clip, Rmax; destruct (Rle_dec x 0);
    unfold Rmin; destruct (Rle_dec _ 1); lra.
Qed.

Lemma clip_inside x : 0 <= x <= 1 -> clip x 0 1 = x.
Proof.
  intros H; unfold clip, Rmax; destruct (Rle_dec x 0);
    unfold Rmin; destruct (Rle_dec _ 1); lra.
Qed.

Lemma clip_below x : x <= 0 -> clip x 0 1 = 0.
Proof.
  intros H; unfold clip, Rmax; destruct (Rle_dec x 0);
    unfold Rmin; destruct (Rle_dec _ 1); lra.
Qed.

(** [shape1] answers exactly for the non-empty lists of rows of one
    length. *)
Lemma shape1_Some (rows : list ndarray) cols :
  shape1 rows = Some cols <->
  rows <> [] /\ Forall (fun r => length r = cols) rows.
Proof.
  destruct rows as [|r0 rest]; simpl; [by split; [|intros []]|].
  match goal with |- context [forallb ?f rest] =>
    destruct (forallb f rest) eqn:Hall end.
  - rewrite forallb_forall in Hall. split.
    + intros [= <-]; split; [done|]. constructor; [done|].
      apply Forall_forall; intros r Hr.
      apply Nat.eqb_eq, Hall, list_elem_of_In, Hr.
    + intros [_ H]. by apply Forall_cons in H as [-> _].
  - split; [done|]. intros [_ H]. apply Forall_cons in H as [<- H].
    assert (forallb (fun r => Nat.eqb (length r) (length r0)) rest = true)
      as Habs; [|congruence].
    apply forallb_forall; intros r Hr. apply Nat.eqb_eq.
    rewrite Forall_forall in H. apply H, list_elem_of_In, Hr.
Qed.

Lemma shape1_rows (rows : list ndarray) cols row :
  shape1 rows = Some cols -> row ∈ rows -> length row = cols.
Proof.
  intros [_ H]%shape1_Some Hin. rewrite Forall_forall in H. by apply H.
Qed.
End NpFacts.

(** ** Cosine similarity, one by one and in a batch *)

Section FaceUtilsFacts.
Import Np FaceUtils.
Local Open Scope R_scope.

Lemma normalize_unit (v : ndarray) :
  sumsq v = 1 -> _normalize_embedding v = v.
Proof.
  intros H; unfold _normalize_embedding.
  rewrite (linalg_norm_unit v H).
  destruct (Req_dec_T 1 0); [lra | apply true_divide_one].
Qed.

Lemma normalize_zero (v : ndarray) :
  sumsq v = 0 -> _normalize_embedding v = v.
Proof.
  intros H; unfold _normalize_embedding.
  rewrite (linalg_norm_zero v H). destruct (Req_dec_T 0 0); [done | lra].
Qed.

Lemma normalize_nonzero (v : ndarray) :
  linalg_norm v <> 0 ->
  _normalize_embedding v = true_divide v (linalg_norm v).
Proof. intros H; unfold _normalize_embedding; by destruct (Req_dec_T _ 0). Qed.

Lemma length_normalize (v : ndarray) :
  length (_normalize_embedding v) = length v.
Proof.
  unfold _normalize_embedding; destruct (Req_dec_T _ 0); [done|].
  apply length_true_divide.
Qed.

Lemma cosine_similarity_range (a b : ndarray) :
  0 <= cosine_similarity a b <= 1.
Proof.
  unfold cosine_similarity; destruct (dot _ _); [|lra].
  apply clip_unit_range.
Qed.

Lemma length_batch_compare_try q db sims :
  batch_compare_try q db = Some sims -> length sims = length db.
Proof.
  unfold batch_compare_try; destruct (shape1 db); [|done].
  destruct (decide _); [|done]; intros [= <-].
  by rewrite !length_map.
Qed.

(** The attempt of [batch_compare] fails exactly when the candidates do
    not form a matrix with as many columns as the query has entries. *)
Lemma batch_compare_try_None q db :
  batch_compare_try q db = None <-> shape1 db <> Some (length q).
Proof.
  unfold batch_compare_try; destruct (shape1 db) as [cols|]; [|done].
  rewrite length_normalize. destruct (decide _) as [->|Hne].
  - split; [done | intros []; done].
  - split; [intros _ [= ?]; done | done].
Qed.

(** For candidates that form a matrix of the query's width, a row of
    non-zero norm gets the inner product of the two normalised vectors,
    which [cosine_similarity] clips to the unit interval. *)
Lemma batch_compare_row q db i c :
  shape1 db = Some (length q) -> db !! i = Some c -> linalg_norm c <> 0 ->
  batch_compare q db !! i
    = Some (Fin (inner (_normalize_embedding c) (_normalize_embedding q)))
  /\ cosine_similarity q c
    = clip (inner (_normalize_embedding c) (_normalize_embedding q)) 0 1.
Proof.
  intros Hshape Hi Hc. split.
  - unfold batch_compare, batch_compare_try. rewrite Hshape.
    rewrite length_normalize. destruct (decide _); [|done].
    rewrite !list_lookup_fmap, Hi; simpl.
    rewrite divide_nonzero, inner_nf_Fin by done.
    by rewrite (normalize_nonzero c).
  - unfold cosine_similarity, dot.
    rewrite !length_normalize.
    assert (length c = length q) as Hlen.
    { eapply shape1_rows; [done|]. by eapply list_elem_of_lookup_2. }
    destruct (decide _); [|done]. by rewrite inner_comm.
Qed.

(** The inner product of two normalised vectors of one length is at most
    1, so the clip acts on negative values only. *)
Lemma inner_normalized_upper (a b : ndarray) :
  length a = length b -> linalg_norm a <> 0 ->
  inner (_normalize_embedding a) (_normalize_embedding b) <= 1.
Proof.
  intros Hlen Ha. unfold _normalize_embedding at 2.
  destruct (Req_dec_T (linalg_norm b) 0) as [Hb|Hb].
  - rewrite inner_zero_r by by apply linalg_norm_zero_inv. lra.
  - rewrite (normalize_nonzero a) by done.
    apply inner_unit_upper; [|by apply sumsq_normalized..].
    by rewrite !length_true_divide.
Qed.

(** Where the batch is well formed, [cosine_similarity] is the batch score
    with the negative values raised to 0. *)
Lemma batch_compare_agrees q db i c s :
  shape1 db = Some (length q) -> db !! i = Some c -> linalg_norm c <> 0 ->
  batch_compare q db !! i = Some (Fin s) ->
  cosine_similarity q c = Rmax s 0.
Proof.
  intros Hshape Hi Hc Hs.
  destruct (batch_compare_row q db i c Hshape Hi Hc) as [Hrow ->].
  rewrite Hrow in Hs. injection Hs as <-.
  assert (length c = length q) as Hlen.
  { eapply shape1_rows; [done|]. by eapply list_elem_of_lookup_2. }
  pose proof (inner_normalized_upper c q Hlen Hc) as Hle.
  unfold clip. apply Rmin_left. unfold Rmax. destruct (Rle_dec _ _); lra.
Qed.

(** C10.  [batch_compare] answers with one score per candidate whatever it
    is given, and when the attempt inside its [try] fails every one of them
    is 0.0; the attempt fails exactly when the candidates are not a matrix
    of the query's width. *)
Theorem batch_compare_total (q : Np.ndarray) (db : list Np.ndarray) :
  length (FaceUtils.batch_compare q db) = length db
  /\ (FaceUtils.batch_compare_try q db = None ->
      FaceUtils.batch_compare q db = repeat (Np.Fin 0) (length db))
  /\ (FaceUtils.batch_compare_try q db = None <->
      Np.shape1 db <> Some (length q)).
Proof.
  split; [|split].
  - unfold FaceUtils.batch_compare.
    destruct (FaceUtils.batch_compare_try q db) eqn:E.
    + by eapply length_batch_compare_try.
    + apply repeat_length.
  - intros E; unfold FaceUtils.batch_compare; by rewrite E.
  - apply batch_compare_try_None.
Qed.

(** C1, evaluated where the code departs from it.  Against the opposite
    candidate [(-1, 0)] the query [(1, 0)] scores [-1] in the batch and 0
    (clipped) one by one; against the zero candidate it scores a nan in the
    batch and 0 one by one, the guard of [_normalize_embedding] being
    absent from the batch. *)
Theorem batch_compare_not_clipped :
  (FaceUtils.batch_compare [1; 0] [[-1; 0]] = [Np.Fin (-1)]
   /\ FaceUtils.cosine_similarity [1; 0] [-1; 0] = 0)
  /\ (FaceUtils.batch_compare [1; 0] [[0; 0]] = [Np.NonFinite]
      /\ FaceUtils.cosine_similarity [1; 0] [0; 0] = 0).
Proof.
  assert (Np.sumsq [1; 0] = 1) as Hq by (simpl; lra).
  assert (Np.sumsq [-1; 0] = 1) as Hc by (simpl; lra).
  assert (Np.sumsq [0; 0] = 0) as Hz by (simpl; lra).
  repeat split.
  - unfold FaceUtils.batch_compare, FaceUtils.batch_compare_try.
    rewrite (normalize_unit _ Hq); simpl.
    rewrite (linalg_norm_unit _ Hc). destruct (Req_dec_T 1 0); [lra|].
    simpl. do 2 f_equal. lra.
  - unfold FaceUtils.cosine_similarity.
    rewrite (normalize_unit _ Hq), (normalize_unit _ Hc); simpl.
    apply clip_below; lra.
  - unfold FaceUtils.batch_compare, FaceUtils.batch_compare_try.
    rewrite (normalize_unit _ Hq); simpl.
    rewrite (linalg_norm_zero _ Hz). by destruct (Req_dec_T 0 0).
  - unfold FaceUtils.cosine_similarity.
    rewrite (normalize_unit _ Hq), (normalize_zero _ Hz); simpl.
    apply clip_below; lra.
Qed.
End FaceUtilsFacts.

(** ** The flat indexes *)

Section FaissFacts.
Import Np Faiss.
Local Open Scope R_scope.

#[global] Instance ranks_total m : Total (ranks m).
Proof. intros a b; destruct m; simpl; lra. Qed.

#[global] Instance ranks_trans m : Transitive (ranks m).
Proof. intros a b c; destruct m; simpl; lra. Qed.

Lemma length_search ix q k hits :
  search ix q k = Some hits -> length hits = k.
Proof.
  unfold search. destruct (decide _); [|done].
  destruct k as [|k]; [done|]. intros [= <-].
  rewrite length_app, repeat_length, length_take. lia.
Qed.

Lemma search_sorted_prefix ix q k hits :
  search ix q k = Some hits ->
  exists best,
    hits = best ++ repeat (padding (kind ix)) (k - length best)
    /\ StronglySorted (ranks (kind ix)) best
    /\ (forall h, h ∈ best -> h ∈ scored ix q).
Proof.
  unfold search. destruct (decide _); [|done].
  destruct k as [|k]; [done|]. intros [= <-].
  eexists; split; [done|]. split.
  - eapply StronglySorted_app_1_l.
    rewrite take_drop. apply StronglySorted_merge_sort; apply _.
  - intros h Hh. apply elem_of_take in Hh as (i & Hi & _).
    apply list_elem_of_lookup_2 in Hi.
    by rewrite merge_sort_Permutation in Hi.
Qed.

Lemma search_Some ix q k hits :
  search ix q k = Some hits ->
  k <> O
  /\ hits = take k (merge_sort (ranks (kind ix)) (scored ix q))
            ++ repeat (padding (kind ix))
                 (k - length (take k (merge_sort (ranks (kind ix))
                                                 (scored ix q)))).
Proof.
  unfold search. destruct (decide _); [|done].
  destruct k as [|k]; [done|]. by intros [= <-].
Qed.

Lemma elem_of_scored ix q h :
  h ∈ scored ix q ->
  exists i x, xb ix !! i = Some x /\ h = (score (kind ix) q x, Z.of_nat i).
Proof.
  unfold scored. intros (i & x & -> & Hi)%elem_of_lookup_imap. eauto.
Qed.

(** Filtering a sorted list through a partial map that respects the order
    leaves a sorted list. *)
Lemma StronglySorted_omap {A B} (R1 : relation A) (R2 : relation B)
    (f : A -> option B) (l : list A) :
  (forall a b a' b', R1 a b -> f a = Some a' -> f b = Some b' -> R2 a' b') ->
  StronglySorted R1 l -> StronglySorted R2 (omap f l).
Proof.
  intros Hf; induction 1 as [|a l Hl IH Hall]; simpl; [constructor|].
  destruct (f a) as [a'|] eqn:Ea; [|done].
  constructor; [done|]. apply Forall_forall.
  intros b' (b & Hb & Eb)%list_elem_of_omap.
  rewrite Forall_forall in Hall. eauto.
Qed.
End FaissFacts.

(** ** The similarity index *)

Section SearchIndexFacts.
Import Np FaissSearchIndex.
Local Open Scope R_scope.

(** A build that answers [False] has changed nothing. *)
Lemma build_index_false self embeddings names index_type self' :
  build_index self embeddings names index_type = (self', false) ->
  self' = self.
Proof.
  unfold build_index. repeat case_match; congruence.
Qed.

(** A build from a matrix with as many names as rows succeeds, and the
    index has the width of the matrix from then on. *)
Lemma build_index_success self embeddings names index_type cols :
  length embeddings = length names -> shape1 embeddings = Some cols ->
  (build_index self embeddings names index_type).2 = true
  /\ dimension (build_index self embeddings names index_type).1 = cols
  /\ is_trained (build_index self embeddings names index_type).1 = true
  /\ FaissSearchIndex.names (build_index self embeddings names index_type).1
     = names.
Proof.
  intros Hlen Hs. unfold build_index. rewrite Hlen, Nat.eqb_refl; simpl.
  destruct (Nat.eqb_spec (length names) 0) as [Hzero|_].
  { apply shape1_Some in Hs as [Hne _].
    destruct embeddings; simpl in *; [done|lia]. }
  rewrite Hs.
  assert ((if negb (Nat.eqb cols (dimension self)) then cols
           else dimension self) = cols) as ->.
  { by destruct (Nat.eqb_spec cols (dimension self)). }
  by destruct (String.eqb index_type "IP").
Qed.

Lemma step_false_is_trained self c self' :
  step self c = (self', false) -> is_trained self' = is_trained self.
Proof.
  destruct c as [e n ty|name e|name e|name]; simpl.
  - by intros ->%build_index_false.
  - unfold add_face. by intros ->%build_index_false.
  - unfold update_embedding. repeat case_match; try congruence.
    by intros ->%build_index_false.
  - unfold remove_face. repeat case_match; try congruence.
    + by intros ->%build_index_false.
    + by intros [= <-].
Qed.

Lemma run_all_false_is_trained cs self :
  Forall (fun ok => ok = false) (run self cs).2 ->
  is_trained (run self cs).1 = is_trained self.
Proof.
  revert self; induction cs as [|c cs IH]; intros self; simpl; [done|].
  destruct (step self c) as [self1 ok] eqn:Es.
  specialize (IH self1). destruct (run self1 cs) as [final oks]; simpl in *.
  intros [-> Hall]%Forall_cons.
  rewrite (IH Hall). by eapply step_false_is_trained.
Qed.

(** C3, as the code has it.  A build from no entries, or from entries whose
    vectors differ in length among themselves, answers [False] and leaves the
    index as it was.  Entries of one common length do not fail when that
    length is not the configured dimension: the build succeeds and the index
    takes the entries' length as its dimension. *)
Theorem build_index_failure_keeps_state
    (self : t) (embeddings : list ndarray) (names : list string)
    (index_type : string) :
  (embeddings = []
   \/ (forall cols, ~ Forall (fun row => length row = cols) embeddings) ->
   build_index self embeddings names index_type = (self, false))
  /\ (forall cols,
        embeddings <> [] -> length embeddings = length names ->
        Forall (fun row => length row = cols) embeddings ->
        (build_index self embeddings names index_type).2 = true
        /\ dimension (build_index self embeddings names index_type).1 = cols
        /\ is_trained (build_index self embeddings names index_type).1 = true
        /\ FaissSearchIndex.names
             (build_index self embeddings names index_type).1 = names).
Proof.
  split.
  - intros [->|Hragged]; unfold build_index.
    + destruct names; done.
    + destruct (negb _); [done|]. destruct (Nat.eqb _ 0); [done|].
      destruct (shape1 embeddings) as [cols|] eqn:Hs; [|done].
      apply shape1_Some in Hs as [_ Hs]. destruct (Hragged cols Hs).
  - intros cols Hne Hlen Hall. apply build_index_success; [done|].
    by apply shape1_Some.
Qed.

(** C3 as stated fails: an index configured for dimension 3 accepts an
    entry of dimension 2, and is no longer in its previous state. *)
Lemma build_index_adopts_dimension :
  build_index (init 3) [[1; 0]] ["a"%string] "L2"
  = ({| dimension := 2;
        index := Some (Faiss.mk_index Faiss.IndexFlatL2 2 [[1; 0]]);
        names := ["a"%string]; embeddings := [[1; 0]];
        is_trained := true |}, true)
  /\ (build_index (init 3) [[1; 0]] ["a"%string] "L2").1 <> init 3.
Proof.
  split; [reflexivity|]. simpl. intros [=].
Qed.

(** C9.  As long as no call on the index has succeeded, a query answers
    with the empty list, whatever the vector and [k]. *)
Theorem query_before_build (dimension : nat) (cs : list call)
    (embedding : ndarray) (k : nat) :
  Forall (fun ok => ok = false) (run (init dimension) cs).2 ->
  query_index (run (init dimension) cs).1 embedding k = [].
Proof.
  intros Hall. apply run_all_false_is_trained in Hall.
  unfold query_index. by rewrite Hall.
Qed.

Lemma query_before_build_witness :
  query_index
    (run (init 512) [BuildIndex [] [] "IP"; RemoveFace "alice";
                     BuildIndex [[1; 0]; [1; 0; 0]] ["a"; "b"]%string "L2";
                     UpdateEmbedding "alice" [1; 0]]).1 [1; 0] 1 = [].
Proof.
  apply query_before_build. simpl. repeat constructor.
Defined.

Lemma length_omap_le {A B} (f : A -> option B) (l : list A) :
  (length (omap f l) <= length l)%nat.
Proof. induction l as [|a l IH]; csimpl; [lia|]. destruct (f a); csimpl; lia. Qed.

Lemma result_of_hit_padding self ix n :
  omap (result_of_hit self ix) (repeat (Faiss.padding (Faiss.kind ix)) n) = [].
Proof.
  induction n as [|n IH]; simpl; [done|].
  unfold Faiss.padding at 1. by destruct (Faiss.kind ix); simpl.
Qed.

Lemma l2_similarity_zero : l2_similarity 0 = 1.
Proof.
  unfold l2_similarity. replace (- 0 / 10) with 0 by lra. apply exp_0.
Qed.

Lemma l2_similarity_decreasing d1 d2 :
  d1 < d2 -> l2_similarity d2 < l2_similarity d1.
Proof. intros H; unfold l2_similarity. apply exp_increasing. lra. Qed.

Lemma l2_similarity_antitone d1 d2 :
  d1 <= d2 -> l2_similarity d2 <= l2_similarity d1.
Proof.
  intros [H| ->]; [|lra]. left. by apply l2_similarity_decreasing.
Qed.

(** A hit that yields a result carries the label of a named row. *)
Lemma result_of_hit_Some self ix dist idx name s :
  result_of_hit self ix (dist, idx) = Some (name, s) ->
  names self !! Z.to_nat idx = Some name
  /\ s = match Faiss.kind ix with
         | Faiss.IndexFlatIP => dist
         | Faiss.IndexFlatL2 => l2_similarity dist
         end.
Proof.
  unfold result_of_hit. destruct (_ && _); [|done].
  destruct (names self !! Z.to_nat idx); simpl; [|done].
  by intros [= -> ->].
Qed.

Lemma result_of_hit_ranked self ix a b a' b' :
  Faiss.ranks (Faiss.kind ix) a b ->
  result_of_hit self ix a = Some a' -> result_of_hit self ix b = Some b' ->
  b'.2 <= a'.2.
Proof.
  destruct a as [da ia], b as [db ib], a' as [na sa], b' as [nb sb].
  intros Hr [_ ->]%result_of_hit_Some [_ ->]%result_of_hit_Some.
  unfold Faiss.ranks in Hr; simpl in *.
  destruct (Faiss.kind ix); [done|]. by apply l2_similarity_antitone.
Qed.

(** C8.  A query answers with at most [min k n] pairs, [n] the number of
    names, in descending order of similarity.  Under the L2 index each
    similarity is [exp (- dist / 10)] of the squared distance between the
    query and the row that carries the name; that conversion sends 0 to 1
    and is strictly decreasing. *)
Theorem query_index_ranked (self : t) (embedding : ndarray) (k : nat) :
  (length (query_index self embedding k)
     <= Nat.min k (length (names self)))%nat
  /\ StronglySorted (fun a b => b.2 <= a.2) (query_index self embedding k)
  /\ (forall ix name s,
        index self = Some ix -> Faiss.kind ix = Faiss.IndexFlatL2 ->
        (name, s) ∈ query_index self embedding k ->
        exists i row,
          Faiss.xb ix !! i = Some row /\ names self !! i = Some name
          /\ s = l2_similarity (Faiss.sqdist embedding row))
  /\ l2_similarity 0 = 1
  /\ (forall d1 d2, d1 < d2 -> l2_similarity d2 < l2_similarity d1).
Proof.
  repeat split; [| | |apply l2_similarity_zero|apply l2_similarity_decreasing].
  - unfold query_index. destruct (is_trained self); [|simpl; lia].
    destruct (index self) as [ix|]; [|simpl; lia].
    destruct (Faiss.search _ _ _) as [hits|] eqn:Hs; [|simpl; lia].
    apply length_search in Hs. pose proof (length_omap_le (result_of_hit self ix) hits).
    lia.
  - unfold query_index. destruct (is_trained self); [|constructor].
    destruct (index self) as [ix|]; [|constructor].
    destruct (Faiss.search _ _ _) as [hits|] eqn:Hs; [|constructor].
    apply search_sorted_prefix in Hs as (best & -> & Hsorted & _).
    rewrite omap_app, result_of_hit_padding, app_nil_r.
    eapply StronglySorted_omap; [|done].
    intros a b a' b'. apply result_of_hit_ranked.
  - intros ix name s Hix Hkind. unfold query_index. rewrite Hix.
    destruct (is_trained self); [|by intros ?%elem_of_nil].
    rewrite Hkind.
    destruct (Faiss.search _ _ _) as [hits|] eqn:Hs;
      [|by intros ?%elem_of_nil].
    apply search_sorted_prefix in Hs as (best & -> & _ & Hbest).
    rewrite omap_app, result_of_hit_padding, app_nil_r.
    intros ([dist idx] & Hin & Hres)%list_elem_of_omap.
    apply Hbest, elem_of_scored in Hin as (i & row & Hrow & [= -> ->]).
    apply result_of_hit_Some in Hres as [Hname ->].
    rewrite Nat2Z.id in Hname. rewrite Hkind. simpl. eauto.
Qed.

(** The single hit of a query with [k = 1] is at least as similar as
    anything a query with another [k] reports. *)
Lemma query_index_top self embedding name s rest :
  query_index self embedding 1 = (name, s) :: rest ->
  forall k name' s',
    (name', s') ∈ query_index self embedding k -> s' <= s.
Proof.
  unfold query_index.
  destruct (is_trained self); [|done].
  destruct (index self) as [ix|]; [|done].
  set (q := match Faiss.kind ix with
            | Faiss.IndexFlatIP => _ | Faiss.IndexFlatL2 => _ end).
  destruct (Faiss.search ix q (Nat.min 1 _)) as [hits1|] eqn:H1; [|done].
  apply search_Some in H1 as [Hk1 ->].
  assert (Nat.min 1 (length (names self)) = 1%nat) as -> by lia.
  rewrite omap_app, result_of_hit_padding, app_nil_r.
  pose proof (StronglySorted_merge_sort (Faiss.ranks (Faiss.kind ix))
                (Faiss.scored ix q)) as Hsorted.
  destruct (merge_sort _ _) as [|h sorted] eqn:Hms; [done|].
  simpl. destruct (result_of_hit self ix h) as [top|] eqn:Htop; [|done].
  intros [= ->] k name' s'.
  destruct (Faiss.search ix q (Nat.min k _)) as [hits|] eqn:Hk;
    [|by intros ?%elem_of_nil].
  apply search_Some in Hk as [_ ->]. rewrite Hms.
  rewrite omap_app, result_of_hit_padding, app_nil_r.
  intros (h' & Hin & Hres)%list_elem_of_omap.
  apply elem_of_take in Hin as (i & Hi & _).
  apply list_elem_of_lookup_2, elem_of_cons in Hi as [->|Hi].
  - rewrite Htop in Hres. injection Hres as [= <-]. simpl. lra.
  - apply StronglySorted_inv in Hsorted as [_ Hall].
    rewrite Forall_forall in Hall.
    apply (result_of_hit_ranked self ix h h' (name, s) (name', s'));
      [by apply Hall|done|done].
Qed.

(** *** Where the maintained index does match a rebuild

    An index holds an entry set when its names and rows are those of the
    entries, in order.  Under the default metric, and as long as the vectors
    have one length and the catalogue is not emptied, each mutation leaves
    exactly the index that a build from scratch over the mutated entry set
    gives. *)
Lemma update_fst es name vector :
  map fst (EntrySet.update es name vector) = map fst es.
Proof.
  induction es as [|[n v] es IH]; simpl; [done|].
  destruct (String.eqb n name); simpl; [done|by rewrite IH].
Qed.

Lemma update_snd es name vector idx :
  list_index name (map fst es) = Some idx ->
  map snd (EntrySet.update es name vector) = <[idx := vector]> (map snd es).
Proof.
  revert idx; induction es as [|[n v] es IH]; intros idx; simpl; [done|].
  destruct (String.eqb n name); simpl; [by intros [= <-]|].
  destruct (list_index name (map fst es)) as [i|]; simpl; [|done].
  intros [= <-]. simpl. by rewrite (IH i).
Qed.

Lemma remove_fst_snd es name idx :
  list_index name (map fst es) = Some idx ->
  map fst (EntrySet.remove es name) = delete idx (map fst es)
  /\ map snd (EntrySet.remove es name) = delete idx (map snd es).
Proof.
  revert idx; induction es as [|[n v] es IH]; intros idx; simpl; [done|].
  destruct (String.eqb n name); simpl; [by intros [= <-]|].
  destruct (list_index name (map fst es)) as [i|]; simpl; [|done].
  intros [= <-]. simpl. destruct (IH i eq_refl) as [-> ->]. done.
Qed.

Lemma build_index_ignores_content self other embeddings names index_type :
  shape1 embeddings = Some (dimension other) ->
  length embeddings = length names ->
  build_index self embeddings names index_type
  = build_index other embeddings names index_type.
Proof.
  intros Hshape Hlen. unfold build_index.
  rewrite Hlen, Nat.eqb_refl; simpl.
  destruct (Nat.eqb_spec (length names) 0) as [Hzero|_]; [|rewrite Hshape].
  - apply shape1_Some in Hshape as [Hne _].
    destruct embeddings; [done|]. simpl in *. lia.
  - rewrite Nat.eqb_refl; simpl.
    by destruct (Nat.eqb_spec (dimension other) (dimension self)) as [->|].
Qed.

Lemma maintained_step_matches_rebuilt
    (self : t) (es : EntrySet.t) (cols : nat) (c : call) :
  names self = map fst es -> embeddings self = map snd es ->
  Forall (fun e => length e.2 = cols) es ->
  EntrySet.admissible cols es c ->
  step self c = (EntrySet.rebuilt cols (EntrySet.apply es c) "L2", true).
Proof.
  intros Hnames Hrows Hall Hcall. unfold EntrySet.admissible in Hcall.
  assert (forall es' : EntrySet.t,
             es' <> [] -> Forall (fun e => length e.2 = cols) es' ->
             forall self',
               build_index self' (map snd es') (map fst es') "L2"
               = (EntrySet.rebuilt cols es' "L2", true)) as Hbuild.
  { intros es' Hne Hall' self'.
    assert (shape1 (map snd es') = Some cols) as Hshape.
    { apply shape1_Some. split; [by destruct es'|].
      by apply Forall_fmap. }
    unfold EntrySet.rebuilt.
    rewrite (build_index_ignores_content self' (init cols))
      by (simpl; by rewrite ?length_map).
    destruct (build_index_success (init cols) (map snd es') (map fst es')
                "L2" cols) as [Hok _]; [by rewrite !length_map|done|].
    by destruct (build_index _ _ _ _) as [built ok]; simpl in *; subst. }
  destruct c as [? ? ?|name vector|name vector|name]; simpl in *.
  - done.
  - unfold add_face; simpl. rewrite Hnames, Hrows.
    unfold EntrySet.insert.
    replace (map fst es ++ [name]) with (map fst (es ++ [(name, vector)]))
      by by rewrite map_app.
    replace (map snd es ++ [vector]) with (map snd (es ++ [(name, vector)]))
      by by rewrite map_app.
    apply Hbuild; [by destruct es|].
    apply Forall_app. split; [done|]. by constructor.
  - destruct Hcall as [Hlen [idx Hidx]].
    unfold update_embedding, setitem. rewrite Hnames, Hidx, Hrows.
    assert (exists row, map snd es !! idx = Some row /\ length row = cols)
      as (row & Hrow & Hrowlen).
    { clear -Hidx Hall. revert idx Hidx.
      induction Hall as [|[n v] es Hv Hall IH]; intros idx; simpl; [done|].
      destruct (String.eqb n name); [intros [= <-]; eauto|].
      destruct (list_index name (map fst es)) as [i|]; simpl; [|done].
      intros [= <-]. by apply IH. }
    rewrite Hrow. destruct (decide _); [|congruence]. simpl.
    rewrite <- (update_snd es name vector idx Hidx).
    rewrite <- (update_fst es name vector) at 2.
    apply Hbuild.
    + intros Hnil. apply (f_equal (map fst)) in Hnil.
      rewrite update_fst in Hnil. by destruct es.
    + clear -Hall Hlen. induction Hall as [|[n v] es Hv Hall IH]; simpl;
        [done|].
      destruct (String.eqb n name); constructor; done.
  - destruct Hcall as [[idx Hidx] Hsize].
    destruct (remove_fst_snd es name idx Hidx) as [Hfst Hsnd].
    unfold remove_face, np_delete. rewrite Hnames, Hidx, Hrows. simpl.
    assert (idx < length es)%nat as Hlt.
    { clear -Hidx. revert idx Hidx.
      induction es as [|[n v] es IH]; intros idx; simpl; [done|].
      destruct (String.eqb n name); [intros [= <-]; lia|].
      destruct (list_index name (map fst es)) as [i|]; simpl; [|done].
      intros [= <-]. specialize (IH i eq_refl). lia. }
    destruct (lookup_lt_is_Some_2 (map snd es) idx) as [row ->];
      [by rewrite length_map|].
    rewrite length_delete by (apply lookup_lt_is_Some_2; by rewrite length_map).
    rewrite length_map.
    destruct (Nat.ltb_spec 0 (length es - 1)); [|lia].
    rewrite <- Hfst, <- Hsnd. apply Hbuild.
    + intros Hnil. apply (f_equal (fun l => length (map fst l))) in Hnil.
      rewrite Hfst, length_delete in Hnil
        by (apply lookup_lt_is_Some_2; by rewrite length_map).
      rewrite length_map in Hnil. simpl in Hnil. lia.
    + clear -Hall. induction Hall as [|[n v] es Hv Hall IH]; simpl; [done|].
      destruct (String.eqb n name); [done|by constructor].
Qed.

Lemma apply_admissible cols es c :
  Forall (fun e => length e.2 = cols) es -> EntrySet.admissible cols es c ->
  EntrySet.apply es c <> []
  /\ Forall (fun e => length e.2 = cols) (EntrySet.apply es c).
Proof.
  intros Hall Hcall.
  destruct c as [? ? ?|name vector|name vector|name]; simpl in *; [done|..].
  - split; [by destruct es|]. apply Forall_app. split; [done|].
    by constructor.
  - destruct Hcall as [Hlen [idx Hidx]]. split.
    + intros Hnil. apply (f_equal (map fst)) in Hnil.
      rewrite update_fst in Hnil. by destruct es.
    + clear -Hall Hlen. induction Hall as [|[n v] es Hv Hall IH]; simpl;
        [done|].
      destruct (String.eqb n name); constructor; done.
  - destruct Hcall as [_ Hsize]. split.
    + destruct es as [|[n v] [|[n' v'] es]]; simpl in *; try lia.
      by destruct (String.eqb n name).
    + clear -Hall. induction Hall as [|[n v] es Hv Hall IH]; simpl; [done|].
      destruct (String.eqb n name); [done|by constructor].
Qed.

Lemma rebuilt_holds cols (es : EntrySet.t) :
  es <> [] -> Forall (fun e => length e.2 = cols) es ->
  names (EntrySet.rebuilt cols es "L2") = map fst es
  /\ embeddings (EntrySet.rebuilt cols es "L2") = map snd es.
Proof.
  intros Hne Hall. unfold EntrySet.rebuilt, build_index.
  rewrite !length_map, Nat.eqb_refl; simpl.
  destruct es as [|e es]; [done|]. cbn [length Nat.eqb].
  assert (shape1 (map snd (e :: es)) = Some cols) as ->.
  { apply shape1_Some. split; [done|]. by apply Forall_fmap. }
  by rewrite Nat.eqb_refl.
Qed.

(** A run of admissible mutations, from an index that holds the entry set
    [es], ends in exactly the index built from scratch over the mutated
    entry set, so that every query is answered alike. *)
Lemma maintained_run_matches_rebuilt (cs : list call) :
  forall (self : t) (es : EntrySet.t) (cols : nat),
    names self = map fst es -> embeddings self = map snd es ->
    Forall (fun e => length e.2 = cols) es ->
    cs <> [] -> EntrySet.admissible_run cols es cs ->
    (run self cs).1 = EntrySet.rebuilt cols (fold_left EntrySet.apply cs es) "L2"
    /\ forall probe k,
        query_index (run self cs).1 probe k
        = query_index
            (EntrySet.rebuilt cols (fold_left EntrySet.apply cs es) "L2")
            probe k.
Proof.
  induction cs as [|c cs IH]; intros self es cols Hnames Hrows Hall Hne Hadm;
    [done|].
  destruct Hadm as [Hc Hrest].
  assert ((run self (c :: cs)).1
          = EntrySet.rebuilt cols (fold_left EntrySet.apply (c :: cs) es) "L2")
    as Heq; [|split; [done|by intros; rewrite Heq]].
  cbn [run fold_left].
  rewrite (maintained_step_matches_rebuilt self es cols c) by done.
  destruct (apply_admissible cols es c Hall Hc) as [Hne1 Hall1].
  destruct (rebuilt_holds cols (EntrySet.apply es c) Hne1 Hall1)
    as [Hnames1 Hrows1].
  destruct cs as [|c' cs]; [done|].
  destruct (IH (EntrySet.rebuilt cols (EntrySet.apply es c) "L2")
              (EntrySet.apply es c) cols Hnames1 Hrows1 Hall1 ltac:(done)
              Hrest) as [Hrun _].
  destruct (run _ (c' :: cs)) as [final oks]. simpl in *. done.
Qed.

Lemma merge_sort_pair {A} (R : relation A) `{!RelDecision R} (a b : A) :
  merge_sort R [a; b] = if decide (R a b) then [a; b] else [b; a].
Proof. unfold merge_sort; simpl. by destruct (decide_rel R a b). Qed.

(** C4, evaluated where the code departs from it.

    First, with the default metric throughout: "a" is added and removed,
    then "b" and "c" are added.  [remove_face] empties [names] but leaves
    the old matrix in [embeddings]; so [add_face] for "b" hands
    [build_index] two rows for one name and is refused, leaving "b" in
    [names], and [add_face] for "c" then succeeds with the row of "a" under
    the name "b".  Probed with the vector of "a", the maintained index
    answers "b" with similarity 1; the index rebuilt over the entries
    requested answers "b" with [exp (-2/10)], and rebuilt over the entries
    accepted it answers "c".

    Second, with the inner-product index that [main.py] builds:
    [update_embedding] rebuilds with the default L2 metric, so the score of
    an orthogonal probe turns from 0 into [exp (-2/10)]. *)
Theorem maintained_index_diverges :
  (let cs := [AddFace "a" [1; 0]; RemoveFace "a";
              AddFace "b" [0; 1]; AddFace "c" [-1; 0]] in
   (run (init 2) cs).2 = [true; true; false; true]
   /\ query_index (run (init 2) cs).1 [1; 0] 1 = [("b"%string, 1)]
   /\ EntrySet.requested cs = [("b"%string, [0; 1]); ("c"%string, [-1; 0])]
   /\ query_index (EntrySet.rebuilt 2 (EntrySet.requested cs) "L2") [1; 0] 1
      = [("b"%string, l2_similarity 2)]
   /\ EntrySet.accepted cs (run (init 2) cs).2 = [("c"%string, [-1; 0])]
   /\ query_index
        (EntrySet.rebuilt 2 (EntrySet.accepted cs (run (init 2) cs).2) "L2")
        [1; 0] 1
      = [("c"%string, l2_similarity 4)]
   /\ l2_similarity 2 < 1)
  /\ (let built := EntrySet.rebuilt 2 [("a"%string, [1; 0])] "IP" in
      let cs := [UpdateEmbedding "a" [1; 0]] in
      EntrySet.requested (BuildIndex [[1; 0]] ["a"%string] "IP" :: cs)
      = [("a"%string, [1; 0])]
      /\ (run built cs).2 = [true]
      /\ query_index built [0; 1] 1 = [("a"%string, 0)]
      /\ query_index (run built cs).1 [0; 1] 1
         = [("a"%string, l2_similarity 2)]
      /\ 0 < l2_similarity 2).
Proof.
  assert (sumsq [1; 0] = 1) as H10 by (simpl; lra).
  assert (sumsq [0; 1] = 1) as H01 by (simpl; lra).
  split.
  - simpl. split; [done|]. split; [|split; [done|split; [|split; [done|split]]]].
    + unfold query_index, Faiss.search; simpl.
      unfold Faiss.scored; simpl. rewrite merge_sort_pair.
      destruct (decide _) as [_|Hn].
      * simpl. do 2 f_equal. unfold Faiss.sqdist; simpl.
        rewrite <- l2_similarity_zero. f_equal. lra.
      * destruct Hn. unfold Faiss.ranks, Faiss.sqdist; simpl. lra.
    + unfold EntrySet.rebuilt, query_index, Faiss.search; simpl.
      unfold Faiss.scored; simpl. rewrite merge_sort_pair.
      destruct (decide _) as [_|Hn].
      * simpl. do 3 f_equal. unfold Faiss.sqdist; simpl. lra.
      * destruct Hn. unfold Faiss.ranks, Faiss.sqdist; simpl. lra.
    + unfold EntrySet.rebuilt, query_index; simpl. do 3 f_equal.
      unfold Faiss.sqdist; simpl. lra.
    + rewrite <- l2_similarity_zero. apply l2_similarity_decreasing. lra.
  - simpl. split; [done|]. split; [|split; [|split]].
    + unfold EntrySet.rebuilt, build_index, update_embedding; simpl.
      rewrite !(linalg_norm_unit _ H10).
      by destruct (Req_dec_T 1 0); [lra|].
    + unfold EntrySet.rebuilt, build_index, query_index; simpl.
      rewrite !(linalg_norm_unit _ H10), !(linalg_norm_unit _ H01).
      destruct (Req_dec_T 1 0); [lra|]. simpl.
      do 2 f_equal. unfold Faiss.score, Faiss.add; simpl. lra.
    + unfold EntrySet.rebuilt, build_index, update_embedding, query_index.
      simpl. rewrite !(linalg_norm_unit _ H10).
      destruct (Req_dec_T 1 0); [lra|]. simpl. do 3 f_equal.
      unfold Faiss.sqdist; simpl. lra.
    + apply exp_pos.
Qed.
End SearchIndexFacts.

(** ** The matcher *)

Section MatcherFacts.
Import Np Py FaceUtils FaceRecognitionSystem.
Local Open Scope R_scope.

Variable MATCH_THRESHOLD : R.
Hypothesis threshold_pos : 0 < MATCH_THRESHOLD.

Lemma linear_step_scanned embedding seen acc item :
  scanned MATCH_THRESHOLD embedding seen acc ->
  scanned MATCH_THRESHOLD embedding (seen ++ [item])
          (linear_step MATCH_THRESHOLD embedding acc item).
Proof using threshold_pos.
  destruct acc as [bm bs], item as [name auth].
  intros (Hpos & Hmax & Hlow & Hhigh); simpl in *.
  unfold linear_step.
  destruct (Rgt_dec (cosine_similarity embedding auth) bs) as [Hgt|Hle].
  - repeat split; simpl.
    + lra.
    + intros n a [Hin|Hin%list_elem_of_singleton]%elem_of_app.
      * specialize (Hmax n a Hin). lra.
      * injection Hin as -> ->. lra.
    + intros Hlt. destruct (Rge_dec _ _); [lra|]. apply Hlow. lra.
    + intros Hge. destruct (Rge_dec _ _); [|lra].
      exists name, auth. rewrite elem_of_app, list_elem_of_singleton. auto.
  - repeat split; simpl.
    + done.
    + intros n a [Hin|Hin%list_elem_of_singleton]%elem_of_app.
      * by apply (Hmax n a).
      * injection Hin as -> ->. lra.
    + done.
    + intros (n & a & Hin & Hs & Hm)%Hhigh. exists n, a.
      rewrite elem_of_app. auto.
Qed.

Lemma linear_scan_scanned embedding rest seen acc :
  scanned MATCH_THRESHOLD embedding seen acc ->
  scanned MATCH_THRESHOLD embedding (seen ++ rest)
          (fold_left (linear_step MATCH_THRESHOLD embedding) rest acc).
Proof using threshold_pos.
  revert seen acc; induction rest as [|item rest IH]; intros seen acc H.
  - by rewrite app_nil_r.
  - simpl. replace (seen ++ item :: rest) with ((seen ++ [item]) ++ rest)
      by by rewrite <- app_assoc.
    apply IH. by apply linear_step_scanned.
Qed.

(** The best similarity of the linear search is attained in a non-empty
    catalogue: either by the entry that raised it last, or, if it is still
    0, by every entry. *)
Lemma linear_scan_attained embedding rest seen acc :
  (acc.2 = 0 \/ exists name auth, (name, auth) ∈ seen
                /\ cosine_similarity embedding auth = acc.2) ->
  let acc' := fold_left (linear_step MATCH_THRESHOLD embedding) rest acc in
  acc'.2 = 0 \/ exists name auth, (name, auth) ∈ seen ++ rest
                  /\ cosine_similarity embedding auth = acc'.2.
Proof.
  revert seen acc; induction rest as [|item rest IH]; intros seen acc H; simpl.
  - by rewrite app_nil_r.
  - replace (seen ++ item :: rest) with ((seen ++ [item]) ++ rest)
      by by rewrite <- app_assoc.
    apply IH. destruct acc as [bm bs], item as [name auth]; simpl in *.
    unfold linear_step. destruct (Rgt_dec _ _) as [Hgt|Hle]; simpl.
    + right. exists name, auth.
      rewrite elem_of_app, list_elem_of_singleton. auto.
    + destruct H as [H|(n' & a' & Hin & Hs)]; [by left|].
      right. exists n', a'. rewrite elem_of_app. auto.
Qed.
End MatcherFacts.

(** ** The temporal aggregator *)

Section AggregatorFacts.
Import Np Py FaceUtils FaceRecognitionSystem.
Local Open Scope R_scope.

Lemma deque_append_drop {A} (maxlen : nat) (dq : list A) (x : A) :
  (length dq <= maxlen)%nat ->
  deque_append maxlen dq x = drop (length dq + 1 - maxlen) (dq ++ [x]).
Proof.
  intros Hlen. unfold deque_append. rewrite length_app; simpl.
  destruct (Nat.ltb_spec maxlen (length dq + 1)).
  - replace (length dq + 1 - maxlen)%nat with 1%nat by lia.
    by destruct (dq ++ [x]).
  - by replace (length dq + 1 - maxlen)%nat with 0%nat by lia.
Qed.

Lemma length_deque_append {A} (maxlen : nat) (dq : list A) (x : A) :
  (length dq <= maxlen)%nat ->
  (length (deque_append maxlen dq x) <= maxlen)%nat.
Proof.
  intros Hlen. rewrite deque_append_drop by done.
  rewrite length_drop, length_app; simpl. lia.
Qed.

(** A full buffer loses its oldest item to the new one. *)
Lemma deque_append_evicts {A} (maxlen : nat) (dq : list A) (x : A) :
  (1 <= maxlen)%nat -> (length dq <= maxlen)%nat ->
  deque_append maxlen dq x
  = if decide (length dq = maxlen) then tail dq ++ [x] else dq ++ [x].
Proof.
  intros Hpos Hlen. unfold deque_append. rewrite length_app; simpl.
  destruct (decide _) as [Heq|Hne].
  - destruct (Nat.ltb_spec maxlen (length dq + 1)); [|lia].
    destruct dq; simpl in *; [lia|done].
  - destruct (Nat.ltb_spec maxlen (length dq + 1)); [lia|done].
Qed.

Lemma fold_deque_append {A} (maxlen : nat) (xs dq : list A) :
  (length dq <= maxlen)%nat ->
  fold_left (deque_append maxlen) xs dq
  = drop (length dq + length xs - maxlen) (dq ++ xs).
Proof.
  revert dq; induction xs as [|x xs IH]; intros dq Hlen; simpl.
  - rewrite app_nil_r. by replace (length dq + 0 - maxlen)%nat with 0%nat by lia.
  - rewrite IH by by apply length_deque_append.
    rewrite deque_append_drop by done.
    rewrite length_drop, length_app; simpl.
    replace (dq ++ x :: xs) with ((dq ++ [x]) ++ xs) by by rewrite <- app_assoc.
    rewrite <- (drop_app_le (dq ++ [x]) xs) by (rewrite length_app; simpl; lia).
    rewrite drop_drop. f_equal. lia.
Qed.

Lemma fold_deque_append_repeat {A} (maxlen : nat) (x : A) (dq : list A) :
  (length dq <= maxlen)%nat ->
  fold_left (deque_append maxlen) (repeat x maxlen) dq = repeat x maxlen.
Proof.
  intros Hlen. rewrite fold_deque_append, repeat_length by done.
  replace (length dq + maxlen - maxlen)%nat with (length dq) by lia.
  by rewrite drop_app_length.
Qed.

Lemma column_sums_repeat (v : ndarray) (n : nat) :
  column_sums (length v) (repeat v n) = map (fun x => INR n * x) v.
Proof.
  unfold column_sums. induction n as [|n IH].
  - simpl. induction v as [|x v IHv]; simpl; [done|].
    rewrite IHv. f_equal. lra.
  - change (repeat v (S n)) with (v :: repeat v n).
    cbn [fold_right]. rewrite IH, S_INR.
    clear IH. induction v as [|x v IHv]; simpl; [done|].
    rewrite IHv. f_equal. lra.
Qed.

Lemma mean_axis0_repeat (v : ndarray) (n : nat) :
  (1 <= n)%nat -> mean_axis0 (repeat v n) = Some v.
Proof.
  intros Hn. unfold mean_axis0.
  assert (shape1 (repeat v n) = Some (length v)) as ->.
  { apply shape1_Some. split; [by destruct n; [lia|]|].
    apply Forall_forall. by intros r ->%list_elem_of_In%repeat_spec. }
  rewrite column_sums_repeat, repeat_length. f_equal.
  unfold true_divide. rewrite map_map.
  rewrite <- (map_id v) at 2. apply map_ext. intros x. field.
  apply not_0_INR. lia.
Qed.

Lemma nth_zip_with_Rplus (a b : ndarray) (j : nat) :
  length a = length b ->
  nth j (zip_with Rplus a b) 0 = nth j a 0 + nth j b 0.
Proof.
  revert b j; induction a as [|x a IH]; intros [|y b] j Hlen;
    simpl in *; try lia.
  - destruct j; lra.
  - destruct j as [|j]; [done|]. apply IH. lia.
Qed.

Lemma length_column_sums cols (rows : list ndarray) :
  Forall (fun row => length row = cols) rows ->
  length (column_sums cols rows) = cols.
Proof.
  unfold column_sums. induction 1 as [|row rows Hrow Hall IH]; simpl.
  - apply repeat_length.
  - rewrite length_zip_with. lia.
Qed.

(** The sum of the [j]-th entries of the rows. *)
Lemma column_sums_nth cols (rows : list ndarray) (j : nat) :
  Forall (fun row => length row = cols) rows ->
  nth j (column_sums cols rows) 0
  = fold_right Rplus 0 (map (fun row => nth j row 0) rows).
Proof.
  induction 1 as [|row rows Hrow Hall IH]; simpl.
  - apply nth_repeat.
  - rewrite <- IH. apply nth_zip_with_Rplus.
    by rewrite (length_column_sums cols rows).
Qed.

Lemma nth_true_divide (v : ndarray) s (j : nat) :
  nth j (true_divide v s) 0 = nth j v 0 / s.
Proof.
  unfold true_divide. revert j; induction v as [|x v IH]; intros [|j]; simpl;
    try (unfold Rdiv; lra). apply IH.
Qed.

Lemma repeat_snoc_pred {A} (x : A) (n : nat) :
  (1 <= n)%nat -> repeat x n = repeat x (n - 1) ++ [x].
Proof.
  destruct n as [|n]; [lia|]. intros _. simpl. rewrite Nat.sub_0_r.
  apply repeat_cons.
Qed.

Variable MATCH_THRESHOLD : R.
Variable MULTIFRAME_COUNT : nat.
Hypothesis count_valid : (1 <= MULTIFRAME_COUNT)%nat.

Local Abbreviation multi_frame_recognize :=
  (FaceRecognitionSystem.multi_frame_recognize MATCH_THRESHOLD MULTIFRAME_COUNT).
Local Abbreviation observe_all :=
  (FaceRecognitionSystem.observe_all MATCH_THRESHOLD MULTIFRAME_COUNT).
Local Abbreviation recognize_face :=
  (FaceRecognitionSystem.recognize_face MATCH_THRESHOLD).
Local Abbreviation buffer_of self face_id :=
  (default [] (frame_buffers self !! face_id)).

Lemma buffer_multi_frame self face_id v :
  frame_buffers (multi_frame_recognize self face_id v).1 !! face_id
  = Some (buffered MULTIFRAME_COUNT self face_id v).
Proof. simpl. apply lookup_insert_eq. Qed.

Lemma observe_all_snoc self face_id vs v :
  observe_all self face_id (vs ++ [v])
  = let '(self1, results) := observe_all self face_id vs in
    let '(final, result) := multi_frame_recognize self1 face_id v in
    (final, results ++ [result]).
Proof.
  revert self; induction vs as [|x vs IH]; intros self; [done|].
  cbn [app FaceRecognitionSystem.observe_all].
  destruct (multi_frame_recognize self face_id x) as [self1 r].
  rewrite IH. destruct (observe_all self1 face_id vs) as [self2 rs].
  by destruct (multi_frame_recognize self2 face_id v).
Qed.

Lemma buffer_observe_all self face_id vs :
  buffer_of (observe_all self face_id vs).1 face_id
  = fold_left (deque_append MULTIFRAME_COUNT) vs (buffer_of self face_id).
Proof.
  revert self; induction vs as [|x vs IH]; intros self; [done|].
  cbn [FaceRecognitionSystem.observe_all fold_left].
  pose proof (buffer_multi_frame self face_id x) as Hb.
  destruct (multi_frame_recognize self face_id x) as [self1 r].
  specialize (IH self1).
  destruct (observe_all self1 face_id vs) as [final rs]. simpl in *.
  by rewrite IH, Hb.
Qed.

Lemma averaged_embedding_normalises buffer mean :
  mean_axis0 buffer = Some mean -> linalg_norm mean <> 0 ->
  averaged_embedding buffer = Ok (true_divide mean (linalg_norm mean)).
Proof.
  intros Hmean Hnorm. unfold averaged_embedding.
  destruct buffer; [done|]. rewrite Hmean.
  by rewrite divide_nonzero, finite_map_Fin.
Qed.

Lemma averaged_embedding_repeat v :
  linalg_norm v = 1 ->
  averaged_embedding (repeat v MULTIFRAME_COUNT) = Ok v.
Proof using count_valid.
  intros Hv.
  rewrite (averaged_embedding_normalises _ v).
  - by rewrite Hv, true_divide_one.
  - by apply mean_axis0_repeat.
  - lra.
Qed.

End AggregatorFacts.

(** ** The adaptive updater *)

Section UpdaterFacts.
Import Np Py FaceUtils FaceRecognitionSystem.
Local Open Scope R_scope.

Lemma dict_get_set_eq {V} (key : string) (v : V) (dc : dict V) :
  dict_get key (dict_set key v dc) = Some v.
Proof.
  induction dc as [|[k w] rest IH]; simpl.
  - by rewrite String.eqb_refl.
  - destruct (String.eqb k key) eqn:E; simpl; by rewrite E.
Qed.

Lemma dict_get_set_ne {V} (key other : string) (v : V) (dc : dict V) :
  other <> key -> dict_get other (dict_set key v dc) = dict_get other dc.
Proof.
  intros Hne. induction dc as [|[k w] rest IH]; simpl.
  - destruct (String.eqb_spec key other); [congruence|done].
  - destruct (String.eqb_spec k key) as [->|]; simpl.
    + destruct (String.eqb_spec key other); [congruence|done].
    + by rewrite IH.
Qed.

Lemma blend_same_length old_embedding new_embedding :
  length new_embedding = length old_embedding ->
  blend old_embedding new_embedding
  = Some (zip_with Rplus
            (scale old_embedding (1 - Config.ADAPTIVE_ALPHA))
            (scale new_embedding Config.ADAPTIVE_ALPHA)).
Proof.
  intros Hlen. unfold blend, add, scale. rewrite !length_map.
  by destruct (decide _).
Qed.

(** The blend of two unit vectors is not the zero vector. *)
Lemma blend_unit_nonzero old_embedding new_embedding blended :
  length new_embedding = length old_embedding ->
  linalg_norm old_embedding = 1 -> linalg_norm new_embedding = 1 ->
  blend old_embedding new_embedding = Some blended ->
  linalg_norm blended <> 0 /\ length blended = length old_embedding.
Proof.
  intros Hlen Ho%linalg_norm_unit_inv Hn%linalg_norm_unit_inv.
  rewrite blend_same_length by done. intros [= <-]. split.
  - pose proof (inner_unit_lower old_embedding new_embedding
                  ltac:(done) Ho Hn) as Hin.
    apply Rgt_not_eq, sqrt_lt_R0.
    rewrite sumsq_combination, Ho, Hn by done.
    unfold Config.ADAPTIVE_ALPHA. lra.
  - rewrite length_zip_with; unfold scale; rewrite !length_map. lia.
Qed.

(** An index whose names and rows correspond takes the new row in place. *)
Lemma update_embedding_row ix name idx (updated : ndarray) :
  FaissSearchIndex.list_index name (FaissSearchIndex.names ix) = Some idx ->
  length (FaissSearchIndex.embeddings ix)
  = length (FaissSearchIndex.names ix) ->
  Forall (fun row => length row = length updated)
         (FaissSearchIndex.embeddings ix) ->
  exists ix',
    FaissSearchIndex.update_embedding ix name updated = (ix', true)
    /\ FaissSearchIndex.embeddings ix'
       = <[idx := updated]> (FaissSearchIndex.embeddings ix)
    /\ FaissSearchIndex.names ix' = FaissSearchIndex.names ix
    /\ Faiss.xb <$> FaissSearchIndex.index ix'
       = Some (<[idx := updated]> (FaissSearchIndex.embeddings ix))
    /\ FaissSearchIndex.embeddings ix' !! idx = Some updated
    /\ FaissSearchIndex.is_trained ix' = true.
Proof.
  intros Hidx Hlen Hrows.
  assert (idx < length (FaissSearchIndex.names ix))%nat as Hlt.
  { clear -Hidx. revert idx Hidx.
    induction (FaissSearchIndex.names ix) as [|n rest IH]; intros idx;
      simpl; [done|].
    destruct (String.eqb n name); [intros [= <-]; lia|].
    destruct (FaissSearchIndex.list_index name rest) as [i|]; simpl; [|done].
    intros [= <-]. specialize (IH i eq_refl). lia. }
  destruct (lookup_lt_is_Some_2 (FaissSearchIndex.embeddings ix) idx)
    as [row Hrow]; [lia|].
  assert (length row = length updated) as Hrowlen.
  { rewrite Forall_forall in Hrows.
    by eapply Hrows, list_elem_of_lookup_2. }
  set (rows := <[idx := updated]> (FaissSearchIndex.embeddings ix)).
  assert (shape1 rows = Some (length updated)) as Hshape.
  { apply shape1_Some. split.
    - intros Hnil. apply (f_equal length) in Hnil.
      unfold rows in Hnil. rewrite length_insert in Hnil. simpl in Hnil. lia.
    - apply Forall_insert; done. }
  assert (length rows = length (FaissSearchIndex.names ix)) as Hrowslen
    by (unfold rows; by rewrite length_insert).
  assert (FaissSearchIndex.update_embedding ix name updated
          = ({| FaissSearchIndex.dimension := length updated;
                FaissSearchIndex.index :=
                  Some (Faiss.mk_index Faiss.IndexFlatL2 (length updated)
                                       rows);
                FaissSearchIndex.names := FaissSearchIndex.names ix;
                FaissSearchIndex.embeddings := rows;
                FaissSearchIndex.is_trained := true |}, true)) as ->.
  { unfold FaissSearchIndex.update_embedding, FaissSearchIndex.setitem.
    rewrite Hidx. cbv beta iota. rewrite Hrow.
    destruct (decide _); [|congruence]. fold rows.
    unfold FaissSearchIndex.build_index; simpl.
    rewrite Hrowslen, Nat.eqb_refl; simpl.
    destruct (Nat.eqb (length (FaissSearchIndex.names ix)) 0) eqn:E0.
    { apply Nat.eqb_eq in E0. lia. }
    rewrite Hshape.
    by destruct (Nat.eqb_spec (length updated) (FaissSearchIndex.dimension ix))
      as [<-|]. }
  eexists; split; [done|]. simpl. split_and!; try done.
  unfold rows. apply list_lookup_insert_eq. lia.
Qed.

Local Abbreviation count_of self name :=
  (default 0%nat (recognition_counts self !! name)).

Lemma update_not_due self name e now :
  ((count_of self name + 1) mod Config.ADAPTIVE_UPDATE_FREQUENCY <> 0)%nat ->
  update_adaptive_embedding self name e now
  = Ok (set_recognition_counts self
          (<[name := (count_of self name + 1)%nat]>
             (recognition_counts self))).
Proof.
  intros Hmod. unfold update_adaptive_embedding.
  unfold Config.ENABLE_ADAPTIVE_UPDATE. cbv beta iota zeta delta [negb].
  destruct (Nat.eqb_spec
              ((count_of self name + 1) mod Config.ADAPTIVE_UPDATE_FREQUENCY)
              0); [done|done].
Qed.

Lemma recognitions_not_due observed : forall self name now,
  ((count_of self name) mod Config.ADAPTIVE_UPDATE_FREQUENCY
   + length observed < Config.ADAPTIVE_UPDATE_FREQUENCY)%nat ->
  exists self',
    recognitions self name observed now = Ok self'
    /\ authorized_cache self' = authorized_cache self
    /\ db self' = db self
    /\ search_index self' = search_index self.
Proof.
  induction observed as [|e rest IH]; intros self name now Hfew;
    cbn [recognitions].
  - by exists self.
  - cbn [length] in Hfew. unfold Config.ADAPTIVE_UPDATE_FREQUENCY in *.
    pose proof (Nat.div_mod_eq (count_of self name) 10) as Hdm.
    assert (((count_of self name + 1) mod 10)
            = (count_of self name) mod 10 + 1)%nat as Hnext.
    { symmetry.
      apply (Nat.mod_unique _ 10 ((count_of self name) / 10)); lia. }
    rewrite update_not_due
      by (unfold Config.ADAPTIVE_UPDATE_FREQUENCY; lia).
    destruct (IH (set_recognition_counts self
                    (<[name := (count_of self name + 1)%nat]>
                       (recognition_counts self))) name now)
      as (self' & Hrun & Hcache & Hdb & Hix).
    { cbn [recognition_counts set_recognition_counts].
      rewrite lookup_insert_eq.
      change ((count_of self name + 1) mod 10 + length rest < 10)%nat.
      rewrite Hnext. clear -Hfew. lia. }
    exists self'. by rewrite Hrun.
Qed.

(** The run of a recognition that is due, for an identity of the cache
    whose blend with the observation is not the zero vector, the store
    being reachable. *)
Lemma update_due self name e now old_embedding blended :
  ((count_of self name + 1) mod Config.ADAPTIVE_UPDATE_FREQUENCY = 0)%nat ->
  dict_get name (authorized_cache self) = Some old_embedding ->
  blend old_embedding e = Some blended -> linalg_norm blended <> 0 ->
  DB.reachable (db self) = true ->
  update_adaptive_embedding self name e now
  = Ok (let updated := true_divide blended (linalg_norm blended) in
        let base :=
          set_db
            (set_authorized_cache
               (set_recognition_counts self
                  (<[name := (count_of self name + 1)%nat]>
                     (recognition_counts self)))
               (dict_set name updated (authorized_cache self)))
            (DB.set_auth_coll (db self)
               (alter (fun doc =>
                         {| DB.af_id := DB.af_id doc;
                            DB.af_embedding := updated;
                            DB.af_image_id := DB.af_image_id doc;
                            DB.af_created_at := DB.af_created_at doc;
                            DB.af_updated_at := now |})
                      name (DB.auth_coll (db self)))) in
        match use_faiss self, search_index self with
        | true, Some ix =>
            set_search_index base
              (Some (FaissSearchIndex.update_embedding ix name updated).1)
        | _, _ => base
        end).
Proof.
  intros Hdue Hold Hblend Hnz Hdb. unfold update_adaptive_embedding.
  unfold Config.ENABLE_ADAPTIVE_UPDATE. cbv beta iota zeta delta [negb].
  destruct (Nat.eqb_spec
              ((count_of self name + 1)
                 mod Config.ADAPTIVE_UPDATE_FREQUENCY) 0); [|done].
  cbn [authorized_cache set_recognition_counts].
  rewrite Hold, Hblend, divide_nonzero, finite_map_Fin by done.
  unfold DB.update_authorized_embedding.
  cbn [db set_authorized_cache set_recognition_counts]. rewrite Hdb.
  cbn [use_faiss search_index set_db set_authorized_cache
       set_recognition_counts].
  by destruct (use_faiss self), (search_index self).
Qed.

(** C5.  A recognition whose count is not a multiple of [F] changes the
    counter and nothing else.  The [F]-th one, for an identity in the cache
    with a unit vector [old] and observed with a unit vector [e] of the
    same length, the store being reachable, puts the vector
    [old * (1 - alpha) + e * alpha], component by component, divided by
    its norm, in the place of [old]: it is a unit vector, the cache holds
    it under the name and the store holds it in the identity's document,
    the other identities of the cache and of the store staying as they
    are.  Where no index is in use none appears; where one is in use it
    becomes the result of [update_embedding], which, names and rows of
    the index corresponding, succeeds and leaves a trained index whose
    rows, in the wrapper and in the faiss index alike, are the former
    ones with the new vector in the identity's row.
    After fewer than [F] recognitions from a multiple of [F], the cache, the
    store and the index are as they were. *)
Theorem adaptive_update_every_Fth
    (self : t) (name : string) (e : ndarray) (now : DB.datetime) :
  ((count_of self name + 1) mod Config.ADAPTIVE_UPDATE_FREQUENCY <> 0 ->
   update_adaptive_embedding self name e now
   = Ok (set_recognition_counts self
           (<[name := count_of self name + 1]> (recognition_counts self))))%nat
  /\ (forall old_embedding,
        ((count_of self name + 1) mod Config.ADAPTIVE_UPDATE_FREQUENCY = 0)%nat ->
        dict_get name (authorized_cache self) = Some old_embedding ->
        length e = length old_embedding ->
        linalg_norm old_embedding = 1 -> linalg_norm e = 1 ->
        DB.reachable (db self) = true ->
        let blended :=
          zip_with (fun o x => o * (1 - Config.ADAPTIVE_ALPHA)
                               + x * Config.ADAPTIVE_ALPHA)
                   old_embedding e in
        let updated := true_divide blended (linalg_norm blended) in
        linalg_norm blended <> 0
        /\ linalg_norm updated = 1
        /\ length updated = length old_embedding
        /\ exists self',
            update_adaptive_embedding self name e now = Ok self'
            /\ dict_get name (authorized_cache self') = Some updated
            /\ (forall other, other <> name ->
                  dict_get other (authorized_cache self')
                  = dict_get other (authorized_cache self))
            /\ DB.af_embedding <$> DB.auth_coll (db self') !! name
               = (fun _ => updated) <$> DB.auth_coll (db self) !! name
            /\ (forall other, other <> name ->
                  DB.auth_coll (db self') !! other
                  = DB.auth_coll (db self) !! other)
            /\ recognition_counts self'
               = <[name := (count_of self name + 1)%nat]>
                   (recognition_counts self)
            /\ (use_faiss self = false \/ search_index self = None ->
                search_index self' = search_index self)
            /\ (forall ix idx,
                  use_faiss self = true -> search_index self = Some ix ->
                  FaissSearchIndex.list_index name (FaissSearchIndex.names ix)
                  = Some idx ->
                  length (FaissSearchIndex.embeddings ix)
                  = length (FaissSearchIndex.names ix) ->
                  Forall (fun row => length row = length old_embedding)
                         (FaissSearchIndex.embeddings ix) ->
                  exists ix',
                    search_index self' = Some ix'
                    /\ FaissSearchIndex.update_embedding ix name updated
                       = (ix', true)
                    /\ FaissSearchIndex.is_trained ix' = true
                    /\ FaissSearchIndex.names ix' = FaissSearchIndex.names ix
                    /\ FaissSearchIndex.embeddings ix'
                       = <[idx := updated]> (FaissSearchIndex.embeddings ix)
                    /\ Faiss.xb <$> FaissSearchIndex.index ix'
                       = Some (<[idx := updated]>
                                 (FaissSearchIndex.embeddings ix))
                    /\ <[idx := updated]> (FaissSearchIndex.embeddings ix)
                       !! idx = Some updated))
  /\ (forall observed,
        ((count_of self name) mod Config.ADAPTIVE_UPDATE_FREQUENCY = 0)%nat ->
        (length observed < Config.ADAPTIVE_UPDATE_FREQUENCY)%nat ->
        exists self',
          recognitions self name observed now = Ok self'
          /\ authorized_cache self' = authorized_cache self
          /\ db self' = db self
          /\ search_index self' = search_index self).
Proof.
  split; [apply update_not_due|]. split.
  - intros old Hdue Hold Hlen Hunit_old Hunit_e Hdb blended updated.
    assert (blend old e = Some blended) as Hblend.
    { rewrite blend_same_length by done. f_equal. unfold blended, scale.
      clear. revert e. induction old as [|o old IH]; intros [|x e];
        simpl; [done..|]. by rewrite IH. }
    destruct (blend_unit_nonzero old e blended Hlen Hunit_old Hunit_e Hblend)
      as [Hnz Hblen].
    assert (length updated = length old) as Hulen
      by (unfold updated; by rewrite length_true_divide).
    set (base :=
           set_db
             (set_authorized_cache
                (set_recognition_counts self
                   (<[name := (count_of self name + 1)%nat]>
                      (recognition_counts self)))
                (dict_set name updated (authorized_cache self)))
             (DB.set_auth_coll (db self)
                (alter (fun doc =>
                          {| DB.af_id := DB.af_id doc;
                             DB.af_embedding := updated;
                             DB.af_image_id := DB.af_image_id doc;
                             DB.af_created_at := DB.af_created_at doc;
                             DB.af_updated_at := now |})
                       name (DB.auth_coll (db self))))).
    set (final :=
           match use_faiss self, search_index self with
           | true, Some ix =>
               set_search_index base
                 (Some (FaissSearchIndex.update_embedding ix name updated).1)
           | _, _ => base
           end).
    assert (update_adaptive_embedding self name e now = Ok final) as Hrun
      by by apply (update_due self name e now old blended).
    assert (authorized_cache final
            = dict_set name updated (authorized_cache self)) as Hcache
      by (unfold final; by destruct (use_faiss self), (search_index self)).
    assert (DB.auth_coll (db final) = DB.auth_coll (db base)) as Hstore
      by (unfold final; by destruct (use_faiss self), (search_index self)).
    assert (recognition_counts final = recognition_counts base) as Hcounts
      by (unfold final; by destruct (use_faiss self), (search_index self)).
    split; [done|].
    split; [apply linalg_norm_unit; by apply sumsq_normalized|].
    split; [done|].
    exists final. split; [done|].
    split; [rewrite Hcache; apply dict_get_set_eq|].
    split; [intros other Hother; rewrite Hcache;
            by apply dict_get_set_ne|].
    split.
    { rewrite Hstore; simpl. rewrite lookup_alter_eq.
      by destruct (DB.auth_coll (db self) !! name). }
    split.
    { intros other Hother. rewrite Hstore; simpl.
      by rewrite lookup_alter_ne. }
    split; [by rewrite Hcounts|].
    split.
    { unfold final. intros [Hoff | Hnone].
      - by rewrite Hoff.
      - rewrite Hnone. by destruct (use_faiss self). }
    intros ix idx Hfaiss Hix Hidx Hrows Hall.
    assert (search_index final
            = Some (FaissSearchIndex.update_embedding ix name updated).1)
      as Hnew by (unfold final; by rewrite Hfaiss, Hix).
    destruct (update_embedding_row ix name idx updated Hidx Hrows)
      as (ix' & Hupd & Hemb & Hnames & Hxb & Hrow & Htrained).
    { by rewrite Hulen. }
    exists ix'. rewrite Hnew, Hupd.
    split; [done|]. split; [done|].
    split; [done|]. split; [done|]. split; [done|]. split; [done|].
    by rewrite <- Hemb.
  - intros observed Hzero Hfew. apply recognitions_not_due. lia.
Qed.
End UpdaterFacts.

(** ** The review of unknown faces *)

Section ReviewFacts.
Import Np DB UnknownFaceHandler.
Local Open Scope R_scope.

(** Enrolment goes through whenever the log and its image are there. *)
Lemma enroll_succeeds db log_id name now log image_bytes :
  reachable db = true ->
  logs_coll db !! log_id = Some log ->
  fs db !! log_image_id log = Some image_bytes -> image_bytes <> [] ->
  exists db',
    enroll_unknown_as_authorized db log_id name now = (db', true)
    /\ reachable db' = true
    /\ af_embedding <$> auth_coll db' !! name = Some (log_embedding log)
    /\ logs_coll db' !! log_id = Some (mark_enrolled name now log)
    /\ fs db' !! log_image_id log = Some image_bytes.
Proof.
  intros Hup Hlog Himg Hne.
  unfold enroll_unknown_as_authorized, get_image, add_authorized_face.
  rewrite Hup, Hlog, Himg. destruct image_bytes as [|b bs]; [done|].
  simpl. rewrite Hup.
  assert (<[next_id db := b :: bs]> (fs db) !! log_image_id log
          = Some (b :: bs)) as Hfs.
  { destruct (decide (next_id db = log_image_id log)) as [->|Hother].
    - apply lookup_insert_eq.
    - by rewrite lookup_insert_ne. }
  destruct (auth_coll db !! name) as [existing|]; simpl;
    (eexists; split; [done|]; simpl; split; [done|];
     split; [by rewrite lookup_insert_eq|];
     split; [by rewrite lookup_alter_eq, Hlog|done]).
Qed.

(** A dismissal goes through whenever it changes the log document. *)
Lemma dismiss_succeeds db log_id now log :
  reachable db = true -> logs_coll db !! log_id = Some log ->
  ~ (log_review_flag log = false /\ log_dismissed log = Some true
     /\ log_dismissed_at log = Some now) ->
  dismiss_unknown db log_id now
  = (set_logs_coll db (<[log_id := mark_dismissed now log]> (logs_coll db)),
     true).
Proof.
  intros Hup Hlog Hchange. unfold dismiss_unknown. rewrite Hup, Hlog.
  by rewrite bool_decide_eq_false_2.
Qed.

(** C2, as the code has it.  For a detection whose log and image are in a
    reachable store, enrolment succeeds under any name, also one that is
    already enrolled, whose vector is then replaced by the detection's; the
    detection becomes [Enrolled].  No call looks at the review state: a
    further enrolment of the same detection succeeds again, and so does a
    dismissal of it, as does a second dismissal at another time. *)
Theorem review_calls_ignore_state
    (db : DB.t) (log_id : ObjectId) (name : string) (now : datetime)
    (log : face_log) (image_bytes : bytes) :
  reachable db = true ->
  logs_coll db !! log_id = Some log ->
  fs db !! log_image_id log = Some image_bytes -> image_bytes <> [] ->
  let enrolled := enroll_unknown_as_authorized db log_id name now in
  enrolled.2 = true
  /\ af_embedding <$> auth_coll enrolled.1 !! name = Some (log_embedding log)
  /\ review_state <$> logs_coll enrolled.1 !! log_id = Some Enrolled
  /\ (forall name' later,
        (enroll_unknown_as_authorized enrolled.1 log_id name' later).2 = true)
  /\ (forall later,
        log_dismissed_at log <> Some later ->
        (dismiss_unknown enrolled.1 log_id later).2 = true)
  /\ (forall t1 t2,
        t1 <> t2 ->
        (dismiss_unknown (dismiss_unknown db log_id t1).1 log_id t2).2 = true).
Proof.
  intros Hup Hlog Himg Hne enrolled.
  destruct (enroll_succeeds db log_id name now log image_bytes)
    as (db1 & Hrun & Hup1 & Hauth & Hlog1 & Himg1); [done..|].
  subst enrolled. rewrite Hrun. simpl.
  split; [done|]. split; [done|]. split; [by rewrite Hlog1|].
  split; [|split].
  - intros name' later.
    destruct (enroll_succeeds db1 log_id name' later
                (mark_enrolled name now log) image_bytes)
      as (db2 & -> & _); done.
  - intros later Hlater. rewrite (dismiss_succeeds db1 log_id later
                                    (mark_enrolled name now log)); [done..|].
    simpl. by intros (_ & _ & ?).
  - intros t1 t2 Hne12.
    destruct (decide (log_review_flag log = false
                      /\ log_dismissed log = Some true
                      /\ log_dismissed_at log = Some t1))
      as [(Hflag & Hdis & Hat)|Hchange].
    + assert (dismiss_unknown db log_id t1 = (db, false)) as ->.
      { unfold dismiss_unknown. rewrite Hup, Hlog.
        by rewrite bool_decide_eq_true_2. }
      simpl. rewrite (dismiss_succeeds db log_id t2 log); [done..|].
      rewrite Hat. by intros (_ & _ & [= ?]).
    + rewrite (dismiss_succeeds db log_id t1 log) by done. simpl.
      rewrite (dismiss_succeeds _ log_id t2 (mark_dismissed t1 log));
        [done|done|by simpl; rewrite lookup_insert_eq|].
      simpl. by intros (_ & _ & [= ?]).
Qed.

Lemma review_calls_ignore_state_witness :
  let enrolled :=
    enroll_unknown_as_authorized Scenario.store 3%N "carol" 100%N in
  enrolled.2 = true
  /\ af_embedding <$> auth_coll enrolled.1 !! "carol"%string = Some [0; 1]
  /\ review_state <$> logs_coll enrolled.1 !! 3%N = Some Enrolled
  /\ (forall name' later,
        (enroll_unknown_as_authorized enrolled.1 3%N name' later).2 = true)
  /\ (forall later,
        log_dismissed_at Scenario.sighting <> Some later ->
        (dismiss_unknown enrolled.1 3%N later).2 = true)
  /\ (forall t1 t2,
        t1 <> t2 ->
        (dismiss_unknown (dismiss_unknown Scenario.store 3%N t1).1 3%N t2).2
        = true).
Proof.
  apply (review_calls_ignore_state Scenario.store 3%N "carol" 100%N
           Scenario.sighting [Byte.x02]); [reflexivity..|done].
Defined.

(** C2 as stated fails.  Enrolling the detection under the name of the
    enrolled identity "alice" raises no conflict and replaces her vector
    [(1, 0)] by the detection's [(0, 1)]; on the detection, now [Enrolled],
    a second enrolment and a dismissal both succeed. *)
Lemma enroll_overwrites_existing_name :
  let enrolled :=
    enroll_unknown_as_authorized Scenario.store 3%N "alice" 100%N in
  af_embedding <$> auth_coll Scenario.store !! "alice"%string = Some [1; 0]
  /\ enrolled.2 = true
  /\ af_embedding <$> auth_coll enrolled.1 !! "alice"%string = Some [0; 1]
  /\ [0; 1] <> [1; 0]
  /\ review_state <$> logs_coll enrolled.1 !! 3%N = Some Enrolled
  /\ (enroll_unknown_as_authorized enrolled.1 3%N "bob" 101%N).2 = true
  /\ (dismiss_unknown enrolled.1 3%N 101%N).2 = true.
Proof.
  intros enrolled.
  destruct (enroll_succeeds Scenario.store 3%N "alice" 100%N
              Scenario.sighting [Byte.x02])
    as (db1 & Hrun & Hup1 & Hauth & Hlog1 & Himg1);
    [reflexivity..|done|].
  subst enrolled. rewrite Hrun. simpl.
  split; [reflexivity|]. split; [done|]. split; [done|].
  split; [intros [= H]; lra|]. split; [by rewrite Hlog1|]. split.
  - destruct (enroll_succeeds db1 3%N "bob" 101%N
                (mark_enrolled "alice" 100%N Scenario.sighting) [Byte.x02])
      as (db2 & -> & _); done.
  - rewrite (dismiss_succeeds db1 3%N 101%N
               (mark_enrolled "alice" 100%N Scenario.sighting)); [done..|].
    simpl. by intros (_ & _ & [=]).
Qed.
End ReviewFacts.

(** ** Concrete runs *)

Section Runs.
Import Np Py FaceUtils FaceRecognitionSystem.
Local Open Scope R_scope.

Lemma unit_x_norm : linalg_norm [1; 0] = 1.
Proof. apply linalg_norm_unit. simpl. lra. Qed.

Lemma cosine_similarity_same_unit_x : cosine_similarity [1; 0] [1; 0] = 1.
Proof.
  assert (sumsq [1; 0] = 1) as H by (simpl; lra).
  unfold cosine_similarity. rewrite (normalize_unit _ H). simpl.
  replace (1 * 1 + (0 * 0 + 0)) with 1 by lra. apply clip_inside. lra.
Qed.


(** A build from two vectors of different lengths is refused and the index
    stays as it was initialised. *)
Lemma build_index_failure_keeps_state_witness :
  FaissSearchIndex.build_index (FaissSearchIndex.init 512)
    [[1; 0]; [1; 0; 0]] ["a"; "b"]%string "IP"
  = (FaissSearchIndex.init 512, false).
Proof.
  apply build_index_failure_keeps_state. right. intros cols Hall.
  apply Forall_cons in Hall as [H2 Hall].
  apply Forall_cons in Hall as [H3 _]. simpl in *. lia.
Defined.

(** The tenth recognition of "alice", observed as [(0, 1)], with the
    search index in use: her vector [(1, 0)] becomes [(0.9, 0.1)]
    divided by its norm, the square root of [0.82], in the cache, in the
    store and in her row of the index. *)
Lemma adaptive_update_every_Fth_witness :
  let updated := [9 / 10 / sqrt (41 / 50); 1 / 10 / sqrt (41 / 50)] in
  exists self' ix',
    update_adaptive_embedding (Scenario.indexed_system 9) "alice" [0; 1] 100%N
    = Ok self'
    /\ dict_get "alice" (authorized_cache self') = Some updated
    /\ linalg_norm updated = 1
    /\ DB.af_embedding <$> DB.auth_coll (db self') !! "alice"%string
       = Some updated
    /\ search_index self' = Some ix'
    /\ FaissSearchIndex.is_trained ix' = true
    /\ Faiss.xb <$> FaissSearchIndex.index ix' = Some [updated].
Proof.
  intros updated.
  destruct (adaptive_update_every_Fth (Scenario.indexed_system 9) "alice"
              [0; 1] 100%N) as (_ & Hdue & _).
  specialize (Hdue [1; 0]). cbv zeta in Hdue.
  assert (true_divide
            (zip_with (fun o x => o * (1 - Config.ADAPTIVE_ALPHA)
                                  + x * Config.ADAPTIVE_ALPHA)
                      [1; 0] [0; 1])
            (linalg_norm
               (zip_with (fun o x => o * (1 - Config.ADAPTIVE_ALPHA)
                                     + x * Config.ADAPTIVE_ALPHA)
                         [1; 0] [0; 1]))
          = updated) as Hvalue.
  { unfold linalg_norm, Config.ADAPTIVE_ALPHA, true_divide, updated. simpl.
    replace (1 * (1 - 1 / 10) + 0 * (1 / 10)) with (9 / 10) by lra.
    replace (0 * (1 - 1 / 10) + 1 * (1 / 10)) with (1 / 10) by lra.
    by replace (9 / 10 * (9 / 10) + (1 / 10 * (1 / 10) + 0)) with (41 / 50)
      by lra. }
  rewrite Hvalue in Hdue.
  destruct Hdue
    as (_ & Hunit & _ & self' & Hrun & Hcache & _ & Hstore & _ & _ & _
        & Hindex).
  - reflexivity.
  - reflexivity.
  - reflexivity.
  - apply unit_x_norm.
  - apply linalg_norm_unit. simpl. lra.
  - reflexivity.
  - destruct (Hindex (FaissSearchIndex.build_index (FaissSearchIndex.init 2)
                        [[1; 0]] ["alice"%string] "IP").1 0%nat)
      as (ix' & Hix & _ & Htrained & _ & _ & Hxb & _).
    + reflexivity.
    + reflexivity.
    + reflexivity.
    + reflexivity.
    + simpl. constructor; [|done].
      by destruct (Req_dec_T (linalg_norm [1; 0]) 0).
    + exists self', ix'. by rewrite Hstore.
Defined.


(** Two opposite vectors in the buffer have mean zero; the division by its
    norm is then a division by zero and what is classified is not a
    vector of numbers. *)
Lemma averaged_embedding_opposite :
  averaged_embedding [[1; 0]; [-1; 0]] = NotFinite.
Proof.
  unfold averaged_embedding, mean_axis0; simpl.
  unfold column_sums, true_divide; simpl.
  assert (linalg_norm [(1 + (-1 + 0)) / (1 + 1); (0 + (0 + 0)) / (1 + 1)] = 0)
    as ->.
  { apply linalg_norm_zero. simpl. lra. }
  by destruct (Req_dec_T 0 0).
Qed.
End Runs.

(** ** Normalisation, similarity and distance *)

Section SimilarityFacts.
Import Np FaceUtils.
Local Open Scope R_scope.

Lemma inner_self (v : ndarray) : inner v v = sumsq v.
Proof. induction v as [|x v IH]; simpl; [done | by rewrite IH]. Qed.

Lemma sumsq_zero_scale (v : ndarray) c : sumsq v = 0 -> scale v c = v.
Proof.
  induction v as [|x v IH]; simpl; intros H; [done|].
  pose proof (sumsq_nonneg v). assert (x = 0) as -> by nra.
  fold (scale v c). rewrite IH by nra. f_equal; lra.
Qed.

Lemma sumsq_scale (v : ndarray) c : sumsq (scale v c) = c * c * sumsq v.
Proof.
  induction v as [|x v IH]; simpl; [lra|].
  fold (scale v c). rewrite IH. lra.
Qed.

Lemma true_divide_scale (v : ndarray) c s :
  c <> 0 -> s <> 0 -> true_divide (scale v c) (c * s) = true_divide v s.
Proof.
  intros Hc Hs. unfold true_divide, scale. rewrite map_map.
  apply map_ext; intros x. by field.
Qed.

Lemma linalg_norm_scale (v : ndarray) c :
  0 <= c -> linalg_norm (scale v c) = c * linalg_norm v.
Proof.
  intros Hc. unfold linalg_norm. rewrite sumsq_scale.
  rewrite sqrt_mult; [|nra|apply sumsq_nonneg].
  by rewrite sqrt_square.
Qed.

Lemma normalize_scale (v : ndarray) c :
  0 < c -> _normalize_embedding (scale v c) = _normalize_embedding v.
Proof.
  intros Hc. destruct (Req_dec_T (linalg_norm v) 0) as [Hz|Hnz].
  - by rewrite sumsq_zero_scale by by apply linalg_norm_zero_inv.
  - pose proof (linalg_norm_scale v c ltac:(lra)) as Hn.
    rewrite (normalize_nonzero (scale v c)) by (rewrite Hn; nra).
    rewrite (normalize_nonzero v) by done.
    rewrite Hn. apply true_divide_scale; lra.
Qed.

Lemma sumsq_subtract (a b : ndarray) :
  length a = length b ->
  sumsq (zip_with Rminus a b) = sumsq a + sumsq b - 2 * inner a b.
Proof.
  revert b; induction a as [|x a IH]; intros [|y b] Hlen; simpl in *;
    try lia; [lra|].
  rewrite IH by lia. lra.
Qed.

Lemma sumsq_zero_inv (v : ndarray) : sumsq v = 0 -> Forall (fun x => x = 0) v.
Proof.
  induction v as [|x v IH]; simpl; intros H; [done|].
  pose proof (sumsq_nonneg v). constructor; [nra | apply IH; nra].
Qed.

Lemma zip_with_Rminus_zero (a b : ndarray) :
  length a = length b ->
  Forall (fun x => x = 0) (zip_with Rminus a b) -> a = b.
Proof.
  revert b; induction a as [|x a IH]; intros [|y b] Hlen; simpl in *;
    try lia; [done|].
  intros [Hx Hrest]%Forall_cons. f_equal; [lra | apply IH; [lia | done]].
Qed.

Lemma sumsq_subtract_self (a : ndarray) : sumsq (zip_with Rminus a a) = 0.
Proof. induction a as [|x a IH]; simpl; [done|]. rewrite IH. lra. Qed.

Lemma sumsq_subtract_comm (a b : ndarray) :
  sumsq (zip_with Rminus a b) = sumsq (zip_with Rminus b a).
Proof.
  revert b; induction a as [|x a IH]; intros [|y b]; simpl; try done.
  rewrite IH. lra.
Qed.

Lemma sumsq_map_ext (f g : R -> R) (v : ndarray) :
  (forall x, f x * f x = g x * g x) -> sumsq (map f v) = sumsq (map g v).
Proof.
  intros H; induction v as [|x v IH]; simpl; [done|]. rewrite IH, H. done.
Qed.

(** The Cauchy-Schwarz inequality. *)
Lemma inner_le_norms (a b : ndarray) :
  length a = length b -> inner a b <= linalg_norm a * linalg_norm b.
Proof.
  intros Hlen.
  pose proof (sqrt_pos (sumsq a)) as Ha. pose proof (sqrt_pos (sumsq b)) as Hb.
  fold (linalg_norm a) in Ha. fold (linalg_norm b) in Hb.
  destruct (Req_dec_T (linalg_norm a) 0) as [Hza|Hnza].
  { rewrite inner_comm, inner_zero_r by by apply linalg_norm_zero_inv.
    rewrite Hza; lra. }
  destruct (Req_dec_T (linalg_norm b) 0) as [Hzb|Hnzb].
  { rewrite inner_zero_r by by apply linalg_norm_zero_inv.
    rewrite Hzb; lra. }
  pose proof (sumsq_nonneg
                (zip_with Rplus (scale a (linalg_norm b))
                                (scale b (- linalg_norm a)))) as H.
  rewrite sumsq_combination in H by done.
  rewrite <- (linalg_norm_sq a), <- (linalg_norm_sq b) in H.
  assert (0 < linalg_norm a * linalg_norm b) as Hpos by nra.
  apply Rmult_le_reg_l with (r := 2 * (linalg_norm a * linalg_norm b));
    [lra|]. nra.
Qed.

(** X1.  [_normalize_embedding] keeps the length of its argument, turns a
    vector of non-zero norm into one of norm 1, hands a vector of norm zero
    back as it is, and normalising twice is normalising once. *)
Theorem normalize_embedding_unit (v : ndarray) :
  length (_normalize_embedding v) = length v
  /\ (linalg_norm v <> 0 -> linalg_norm (_normalize_embedding v) = 1)
  /\ (linalg_norm v = 0 -> _normalize_embedding v = v)
  /\ _normalize_embedding (_normalize_embedding v) = _normalize_embedding v.
Proof.
  split; [apply length_normalize|]. split; [|split].
  - intros Hn. rewrite normalize_nonzero by done.
    by apply linalg_norm_unit, sumsq_normalized.
  - intros Hz. by apply normalize_zero, linalg_norm_zero_inv.
  - destruct (Req_dec_T (linalg_norm v) 0) as [Hz|Hn].
    + by rewrite !(normalize_zero v) by by apply linalg_norm_zero_inv.
    + rewrite (normalize_nonzero v) by done.
      by apply normalize_unit, sumsq_normalized.
Qed.

Lemma cosine_similarity_comm (a b : ndarray) :
  cosine_similarity a b = cosine_similarity b a.
Proof.
  unfold cosine_similarity, dot. rewrite !length_normalize.
  destruct (decide (length a = length b)) as [Hab|Hab];
    destruct (decide (length b = length a)) as [Hba|Hba]; try congruence.
  by rewrite inner_comm.
Qed.

(** X2.  [cosine_similarity] does not depend on the order of its two
    arguments, lies between 0 and 1, and is 0 for vectors of different
    lengths (the error of [np.dot] is caught). *)
Theorem cosine_similarity_symmetric (a b : ndarray) :
  cosine_similarity a b = cosine_similarity b a
  /\ 0 <= cosine_similarity a b <= 1
  /\ (length a <> length b -> cosine_similarity a b = 0).
Proof.
  split; [apply cosine_similarity_comm|].
  split; [apply cosine_similarity_range|].
  intros Hne. unfold cosine_similarity, dot. rewrite !length_normalize.
    by destruct (decide _).
Qed.

(** X3.  A vector of non-zero norm has cosine similarity 1 with itself;
    a vector of norm zero has cosine similarity 0 with every vector, in
    either position: the guard of [_normalize_embedding] keeps the
    division by zero away. *)
Theorem cosine_similarity_self_and_zero (a b : ndarray) :
  (linalg_norm a <> 0 -> cosine_similarity a a = 1)
  /\ (linalg_norm b = 0 ->
      cosine_similarity a b = 0 /\ cosine_similarity b a = 0).
Proof.
  split.
  - intros Hn. unfold cosine_similarity, dot.
    destruct (decide _); [|done].
    rewrite inner_self, normalize_nonzero, sumsq_normalized by done.
    apply clip_inside; lra.
  - intros Hz.
    assert (cosine_similarity a b = 0) as H.
    { unfold cosine_similarity, dot. destruct (decide _); [|done].
      rewrite (normalize_zero b) by by apply linalg_norm_zero_inv.
      rewrite inner_zero_r by by apply linalg_norm_zero_inv.
      apply clip_below; lra. }
    split; [done|]. by rewrite cosine_similarity_comm.
Qed.

Lemma cosine_similarity_self_and_zero_witness :
  cosine_similarity [3; 4] [3; 4] = 1
  /\ cosine_similarity [3; 4] [0; 0] = 0
  /\ cosine_similarity [0; 0] [3; 4] = 0.
Proof.
  destruct (cosine_similarity_self_and_zero [3; 4] [0; 0]) as [Hself Hzero].
  split.
  - apply Hself. intros H%linalg_norm_zero_inv. simpl in H. lra.
  - apply Hzero, linalg_norm_zero. simpl. lra.
Defined.

(** X4.  Scaling either argument by a positive factor does not change
    the cosine similarity. *)
Theorem cosine_similarity_scale_invariant (a b : ndarray) (c : R) :
  0 < c ->
  cosine_similarity (scale a c) b = cosine_similarity a b
  /\ cosine_similarity a (scale b c) = cosine_similarity a b.
Proof.
  intros Hc. unfold cosine_similarity. by rewrite !normalize_scale.
Qed.

Lemma cosine_similarity_scale_invariant_witness :
  0 < 5
  /\ cosine_similarity (scale [1; 2] 5) [2; 1] = cosine_similarity [1; 2] [2; 1]
  /\ cosine_similarity [1; 2] (scale [2; 1] 5) = cosine_similarity [1; 2] [2; 1].
Proof.
  split; [lra|]. apply cosine_similarity_scale_invariant. lra.
Defined.

Lemma euclidean_distance_same_length (a b : ndarray) :
  length a = length b ->
  euclidean_distance a b = Fin (linalg_norm (zip_with Rminus a b)).
Proof.
  intros Hlen. unfold euclidean_distance, subtract.
  by destruct (decide _).
Qed.

Lemma subtract_norm_comm (a b : ndarray) :
  option_map linalg_norm (subtract a b)
  = option_map linalg_norm (subtract b a).
Proof.
  unfold subtract.
  destruct (decide (length a = length b)) as [Hab|Hab];
    destruct (decide (length b = length a)) as [Hba|Hba]; try congruence.
  - simpl. unfold linalg_norm. by rewrite sumsq_subtract_comm.
  - assert (forall (x : R) (v : ndarray),
              linalg_norm (map (fun y => x - y) v)
              = linalg_norm (map (fun y => y - x) v)) as Hflip.
    { intros x v. unfold linalg_norm. f_equal.
      apply sumsq_map_ext. intros; lra. }
    destruct a as [|x [|x' a]], b as [|y [|y' b]];
      cbn [length] in Hab, Hba; try done; cbv beta iota;
      cbn [option_map]; by rewrite ?Hflip.
Qed.

Lemma zip_with_Rminus_chain (a b c : ndarray) :
  length a = length b -> length b = length c ->
  zip_with Rminus a c
  = zip_with Rplus (zip_with Rminus a b) (zip_with Rminus b c).
Proof.
  revert b c; induction a as [|x a IH]; intros [|y b] [|z c] Hab Hbc;
    simpl in *; try lia; [done|].
  f_equal; [lra | apply IH; lia].
Qed.

Lemma sumsq_plus (a b : ndarray) :
  length a = length b ->
  sumsq (zip_with Rplus a b) = sumsq a + sumsq b + 2 * inner a b.
Proof.
  revert b; induction a as [|x a IH]; intros [|y b] Hlen; simpl in *;
    try lia; [lra|].
  rewrite IH by lia. lra.
Qed.

Lemma linalg_norm_triangle (a b : ndarray) :
  length a = length b ->
  linalg_norm (zip_with Rplus a b) <= linalg_norm a + linalg_norm b.
Proof.
  intros Hlen.
  pose proof (sqrt_pos (sumsq a)) as Ha. pose proof (sqrt_pos (sumsq b)) as Hb.
  fold (linalg_norm a) in Ha. fold (linalg_norm b) in Hb.
  rewrite <- (sqrt_square (linalg_norm a + linalg_norm b)) by lra.
  apply sqrt_le_1_alt. rewrite sumsq_plus by done.
  pose proof (inner_le_norms a b Hlen).
  rewrite <- (linalg_norm_sq a), <- (linalg_norm_sq b). lra.
Qed.

(** X5.  [euclidean_distance] is a metric on the vectors of one length:
    it does not depend on the order of its arguments, is never negative,
    is zero exactly when the two vectors are equal, and obeys the
    triangle inequality.  For vectors whose lengths differ, neither
    being of length one, it is [inf] (the error of the subtraction is
    caught). *)
Theorem euclidean_distance_metric (a b : ndarray) :
  euclidean_distance a b = euclidean_distance b a
  /\ (forall d, euclidean_distance a b = Fin d -> 0 <= d)
  /\ (length a = length b -> euclidean_distance a b = Fin 0 <-> a = b)
  /\ (forall c,
        length a = length b -> length b = length c ->
        exists dab dbc dac,
          euclidean_distance a b = Fin dab
          /\ euclidean_distance b c = Fin dbc
          /\ euclidean_distance a c = Fin dac
          /\ dac <= dab + dbc)
  /\ (length a <> length b -> length a <> 1%nat -> length b <> 1%nat ->
      euclidean_distance a b = NonFinite).
Proof.
  split_and!.
  - pose proof (subtract_norm_comm a b) as H. unfold euclidean_distance.
    destruct (subtract a b), (subtract b a); simpl in H; congruence.
  - unfold euclidean_distance. destruct (subtract a b); [|done].
    intros d [= <-]. apply sqrt_pos.
  - intros Hlen. rewrite euclidean_distance_same_length by done. split.
    + intros [= H]. apply linalg_norm_zero_inv in H.
      by apply zip_with_Rminus_zero, sumsq_zero_inv.
    + intros <-. f_equal. apply linalg_norm_zero, sumsq_subtract_self.
  - intros c Hab Hbc.
    rewrite !euclidean_distance_same_length by congruence.
    eexists _, _, _. repeat split.
    rewrite (zip_with_Rminus_chain a b c) by done.
    apply linalg_norm_triangle. rewrite !length_zip_with. lia.
  - intros Hne Ha Hb. unfold euclidean_distance, subtract.
    destruct (decide _); [done|].
    destruct a as [|x [|x' a]], b as [|y [|y' b]]; simpl in *; done.
Qed.

Lemma euclidean_distance_metric_witness :
  exists dab dbc dac,
    euclidean_distance [0; 0] [3; 4] = Fin dab
    /\ euclidean_distance [3; 4] [3; 0] = Fin dbc
    /\ euclidean_distance [0; 0] [3; 0] = Fin dac
    /\ dac <= dab + dbc.
Proof.
  destruct (euclidean_distance_metric [0; 0] [3; 4]) as (_ & _ & _ & H & _).
  by apply H.
Defined.

(** X6.  For two unit vectors of one length the two measures agree:
    with [d] their Euclidean distance, the cosine similarity is
    [1 - d^2 / 2], clipped to the unit interval. *)
Theorem cosine_similarity_of_distance (a b : ndarray) :
  length a = length b -> linalg_norm a = 1 -> linalg_norm b = 1 ->
  exists d,
    euclidean_distance a b = Fin d
    /\ cosine_similarity a b = clip (1 - d * d / 2) 0 1.
Proof.
  intros Hlen Ha%linalg_norm_unit_inv Hb%linalg_norm_unit_inv.
  rewrite euclidean_distance_same_length by done.
  eexists; split; [done|].
  rewrite linalg_norm_sq, sumsq_subtract, Ha, Hb by done.
  unfold cosine_similarity, dot.
  rewrite !normalize_unit by done.
  destruct (decide _); [|done]. f_equal. lra.
Qed.

Lemma cosine_similarity_of_distance_witness :
  exists d,
    euclidean_distance [1; 0] [0; 1] = Fin d
    /\ cosine_similarity [1; 0] [0; 1] = clip (1 - d * d / 2) 0 1.
Proof.
  apply cosine_similarity_of_distance; [done|..];
    apply linalg_norm_unit; simpl; lra.
Defined.

(** X7.  Where the candidates form a matrix of the query's width and
    none of them has norm zero, every score of [batch_compare] is a
    finite number, at most 1, and [cosine_similarity] of the query and
    that candidate is the score with the negative values raised to 0. *)
Theorem batch_compare_is_cosine (q : ndarray) (db : list ndarray) :
  shape1 db = Some (length q) ->
  Forall (fun c => linalg_norm c <> 0) db ->
  exists sims,
    batch_compare q db = map Fin sims
    /\ Forall2 (fun c s => s <= 1 /\ cosine_similarity q c = Rmax s 0)
               db sims.
Proof.
  intros Hshape Hnz.
  exists (map (fun c => inner (_normalize_embedding c)
                              (_normalize_embedding q)) db).
  split.
  - unfold batch_compare, batch_compare_try. rewrite Hshape.
    rewrite length_normalize. destruct (decide _); [|done].
    rewrite !map_map. apply map_ext_Forall.
    eapply Forall_impl; [exact Hnz|]. intros c Hc; simpl.
    rewrite divide_nonzero, inner_nf_Fin by done.
    by rewrite (normalize_nonzero c).
  - apply Forall2_fmap_r, Forall_Forall2_diag.
    apply Forall_forall. intros c Hin.
    rewrite Forall_forall in Hnz. pose proof (Hnz c Hin) as Hc.
    assert (length c = length q) as Hlen by by eapply shape1_rows.
    pose proof (inner_normalized_upper c q Hlen Hc) as Hle.
    split; [done|].
    apply list_elem_of_lookup_1 in Hin as [i Hi].
    destruct (batch_compare_row q db i c Hshape Hi Hc) as [_ ->].
    unfold clip. apply Rmin_left. unfold Rmax. destruct (Rle_dec _ _); lra.
Qed.

Lemma batch_compare_is_cosine_witness :
  exists sims,
    batch_compare [1; 0] [[0; 2]; [-3; 0]] = map Fin sims
    /\ Forall2 (fun c s => s <= 1 /\ cosine_similarity [1; 0] c = Rmax s 0)
               [[0; 2]; [-3; 0]] sims.
Proof.
  apply batch_compare_is_cosine; [done|].
  repeat constructor; intros H%linalg_norm_zero_inv; simpl in H; lra.
Defined.
End SimilarityFacts.

(** ** The similarity index, once built *)

Section BuiltIndexFacts.
Import Np FaissSearchIndex.
Local Open Scope R_scope.

Lemma build_index_true self embeddings names index_type self' :
  build_index self embeddings names index_type = (self', true) ->
  length embeddings = length names
  /\ exists cols,
      shape1 embeddings = Some cols
      /\ self'
         = {| dimension := cols;
              index :=
                Some (Faiss.mk_index
                        (if String.eqb index_type "IP"
                         then Faiss.IndexFlatIP else Faiss.IndexFlatL2)
                        cols
                        (if String.eqb index_type "IP"
                         then Faiss.normalize_L2 embeddings
                         else embeddings));
              FaissSearchIndex.names := names;
              FaissSearchIndex.embeddings :=
                (if String.eqb index_type "IP"
                 then Faiss.normalize_L2 embeddings else embeddings);
              is_trained := true |}.
Proof.
  unfold build_index.
  destruct (Nat.eqb_spec (length embeddings) (length names)) as [Hlen|];
    simpl; [|done].
  destruct (Nat.eqb (length embeddings) 0); [done|].
  destruct (shape1 embeddings) as [cols|]; [|done].
  assert ((if negb (Nat.eqb cols (dimension self)) then cols
           else dimension self) = cols) as ->.
  { by destruct (Nat.eqb_spec cols (dimension self)). }
  destruct (String.eqb index_type "IP"); intros [= <-]; eauto.
Qed.

Lemma normalize_L2_rows (rows : list ndarray) cols :
  Forall (fun row => length row = cols) rows ->
  Forall (fun row => length row = cols
                     /\ (linalg_norm row = 1 \/ linalg_norm row = 0))
         (Faiss.normalize_L2 rows).
Proof.
  intros H. unfold Faiss.normalize_L2. apply Forall_fmap.
  eapply Forall_impl; [exact H|]. intros row Hrow; simpl.
  destruct (Req_dec_T (linalg_norm row) 0) as [Hz|Hn]; [by auto|].
  rewrite length_true_divide. split; [done|]. left.
  by apply linalg_norm_unit, sumsq_normalized.
Qed.

(** X8.  A call of [build_index] that answers [True] leaves the index
    consistent: trained, with the names it was given, one row per name,
    every row of the width now recorded as [dimension], and a faiss index
    over exactly those rows.  For the type ['IP'] the rows are the given
    vectors scaled to norm 1 (a zero vector stays); for any other type
    they are the given vectors and the index ranks by L2 distance. *)
Theorem build_index_consistent
    (self : t) (embeddings : list ndarray) (names : list string)
    (index_type : string) :
  (build_index self embeddings names index_type).2 = true ->
  let built := (build_index self embeddings names index_type).1 in
  consistent built
  /\ FaissSearchIndex.names built = names
  /\ (index_type = "IP"%string ->
      option_map Faiss.kind (index built) = Some Faiss.IndexFlatIP
      /\ FaissSearchIndex.embeddings built = Faiss.normalize_L2 embeddings
      /\ Forall (fun row => linalg_norm row = 1 \/ linalg_norm row = 0)
                (FaissSearchIndex.embeddings built))
  /\ (index_type <> "IP"%string ->
      option_map Faiss.kind (index built) = Some Faiss.IndexFlatL2
      /\ FaissSearchIndex.embeddings built = embeddings).
Proof.
  destruct (build_index self embeddings names index_type) as [built ok] eqn:E.
  simpl. intros ->.
  apply build_index_true in E as (Hlen & cols & Hshape & ->).
  apply shape1_Some in Hshape as [Hne Hrows].
  pose proof (normalize_L2_rows embeddings cols Hrows) as Hnorm.
  unfold consistent; simpl.
  destruct (String.eqb_spec index_type "IP") as [->|Hty].
  - repeat split; try done.
    + destruct names; [by destruct embeddings | done].
    + unfold Faiss.normalize_L2. by rewrite length_map.
    + eapply Forall_impl; [exact Hnorm|]. by intros row [? _].
    + eauto.
    + eapply Forall_impl; [exact Hnorm|]. by intros row [_ ?].
  - repeat split; try done.
    + destruct names; [by destruct embeddings | done].
    + eauto.
Qed.

Lemma build_index_consistent_witness :
  let built := (build_index (init 512) [[3; 4]; [0; 0]] ["a"; "b"]%string
                            "IP").1 in
  consistent built
  /\ FaissSearchIndex.names built = ["a"; "b"]%string
  /\ ("IP"%string = "IP"%string ->
      option_map Faiss.kind (index built) = Some Faiss.IndexFlatIP
      /\ FaissSearchIndex.embeddings built
         = Faiss.normalize_L2 [[3; 4]; [0; 0]]
      /\ Forall (fun row => linalg_norm row = 1 \/ linalg_norm row = 0)
                (FaissSearchIndex.embeddings built))
  /\ ("IP"%string <> "IP"%string ->
      option_map Faiss.kind (index built) = Some Faiss.IndexFlatL2
      /\ FaissSearchIndex.embeddings built = [[3; 4]; [0; 0]]).
Proof. by apply build_index_consistent. Defined.

Lemma length_scored ix q : length (Faiss.scored ix q) = length (Faiss.xb ix).
Proof. unfold Faiss.scored. apply length_imap. Qed.

Lemma query_index_unfold self ix embedding k :
  consistent self -> index self = Some ix ->
  query_index self embedding k
  = if decide (length embedding = dimension self) then
      omap (result_of_hit self ix)
           (take (Nat.min k (length (names self)))
                 (merge_sort (Faiss.ranks (Faiss.kind ix))
                    (Faiss.scored ix (query_vector (Faiss.kind ix) embedding))))
    else [].
Proof.
  intros (Htrained & Hne & Hlen & Hrows & ix' & Hix' & Hd & Hxb) Hix.
  rewrite Hix in Hix'. injection Hix' as <-.
  unfold query_index. rewrite Htrained, Hix.
  assert ((match Faiss.kind ix with
           | Faiss.IndexFlatIP =>
               match Faiss.normalize_L2 [embedding] with
               | [q] => q
               | _ => embedding
               end
           | Faiss.IndexFlatL2 => embedding
           end) = query_vector (Faiss.kind ix) embedding) as ->.
  { by destruct (Faiss.kind ix). }
  set (q := query_vector (Faiss.kind ix) embedding).
  assert (length q = length embedding) as Hq.
  { unfold q. destruct (Faiss.kind ix); [apply length_normalize | done]. }
  unfold Faiss.search. rewrite Hq, Hd.
  destruct (decide (length embedding = dimension self)); [|done].
  destruct (Nat.min k (length (names self))) as [|k'] eqn:Hk; [done|].
  rewrite length_take_le.
  - by rewrite Nat.sub_diag, app_nil_r.
  - rewrite merge_sort_Permutation, length_scored, Hxb. lia.
Qed.

Lemma result_of_hit_scored self ix q h :
  consistent self -> index self = Some ix -> h ∈ Faiss.scored ix q ->
  exists i row name,
    Faiss.xb ix !! i = Some row /\ names self !! i = Some name
    /\ h = (Faiss.score (Faiss.kind ix) q row, Z.of_nat i)
    /\ result_of_hit self ix h
       = Some (name,
               similarity_of (Faiss.kind ix)
                             (Faiss.score (Faiss.kind ix) q row)).
Proof.
  intros (Htrained & Hne & Hlen & Hrows & ix' & Hix' & Hd & Hxb) Hix.
  rewrite Hix in Hix'. injection Hix' as <-.
  intros (i & row & Hrow & ->)%elem_of_scored.
  assert (i < length (names self))%nat as Hi.
  { rewrite <- Hlen, <- Hxb. by eapply lookup_lt_Some. }
  destruct (lookup_lt_is_Some_2 (names self) i Hi) as [name Hname].
  exists i, row, name. repeat split; try done.
  unfold result_of_hit.
  rewrite !bool_decide_eq_true_2 by lia. simpl.
  rewrite Nat2Z.id, Hname. simpl. by destruct (Faiss.kind ix).
Qed.

Lemma length_omap_is_Some {A B} (f : A -> option B) (l : list A) :
  Forall (fun a => is_Some (f a)) l -> length (omap f l) = length l.
Proof.
  induction 1 as [|a l [b Hb] _ IH]; csimpl; [done|].
  rewrite Hb. simpl. by rewrite IH.
Qed.

Lemma omap_cons_Some {A B} (f : A -> option B) (a : A) (l : list A) (b : B) :
  f a = Some b -> omap f (a :: l) = b :: omap f l.
Proof. intros H. csimpl. by rewrite H. Qed.

Lemma omap_result_of_hit_scored self ix q (rows : list ndarray) :
  forall (later earlier : list string),
    names self = earlier ++ later -> length rows = length later ->
    omap (result_of_hit self ix)
         (imap (fun i x => (Faiss.score (Faiss.kind ix) q x,
                            Z.of_nat (length earlier + i))) rows)
    = zip_with (fun name x =>
                  (name, similarity_of (Faiss.kind ix)
                           (Faiss.score (Faiss.kind ix) q x)))
               later rows.
Proof.
  induction rows as [|x rows IH]; intros [|name later] earlier Hnames Hlen;
    simpl in Hlen; try lia; [done|].
  rewrite imap_cons. cbv beta.
  assert (result_of_hit self ix
            (Faiss.score (Faiss.kind ix) q x, Z.of_nat (length earlier + 0))
          = Some (name, similarity_of (Faiss.kind ix)
                          (Faiss.score (Faiss.kind ix) q x))) as Hhit.
  { unfold result_of_hit. rewrite Hnames, length_app. simpl.
    rewrite !bool_decide_eq_true_2 by lia. simpl.
    rewrite Nat2Z.id, Nat.add_0_r.
    rewrite lookup_app_r, Nat.sub_diag by lia. simpl.
    by destruct (Faiss.kind ix). }
  rewrite (omap_cons_Some _ _ _ _ Hhit). simpl. f_equal.
  rewrite <- (IH later (earlier ++ [name])).
  - f_equal. apply imap_ext. intros i y _. simpl.
    rewrite length_app. simpl. do 2 f_equal. lia.
  - by rewrite <- app_assoc.
  - lia.
Qed.

Lemma omap_result_of_hit_all self ix q :
  length (Faiss.xb ix) = length (names self) ->
  omap (result_of_hit self ix) (Faiss.scored ix q)
  = zip_with (fun name x =>
                (name, similarity_of (Faiss.kind ix)
                         (Faiss.score (Faiss.kind ix) q x)))
             (names self) (Faiss.xb ix).
Proof.
  intros Hlen.
  by rewrite <- (omap_result_of_hit_scored self ix q (Faiss.xb ix)
                   (names self) []).
Qed.

Lemma fst_zip_with_names {B C} (g : B -> C) (ns : list string) (l : list B) :
  length ns = length l ->
  map fst (zip_with (fun name x => (name, g x)) ns l) = ns.
Proof.
  revert l; induction ns as [|n ns IH]; intros [|x l] Hlen; simpl in *;
    try lia; [done|].
  by rewrite IH by lia.
Qed.

(** X9.  On a consistent index, a query with a vector of the index's
    width answers with exactly [min k n] names, [n] being the number of
    entries, each of them a name of the index; asked for [n] or more, it
    answers with every entry once.  A query vector of another width gets
    the empty answer for any [k]. *)
Theorem query_index_exhaustive (self : t) (embedding : ndarray) (k : nat) :
  consistent self ->
  (length embedding = dimension self ->
   length (query_index self embedding k)
   = Nat.min k (length (names self))
   /\ (forall name s,
         (name, s) ∈ query_index self embedding k -> name ∈ names self)
   /\ ((length (names self) <= k)%nat ->
       map fst (query_index self embedding k) ≡ₚ names self))
  /\ (length embedding <> dimension self ->
      query_index self embedding k = []).
Proof.
  intros Hc.
  pose proof Hc as (Htrained & Hne & Hlen & Hrows & ix & Hix & Hd & Hxb).
  rewrite (query_index_unfold self ix) by done.
  split; intros Hdim; (destruct (decide _); [|done]); [|done].
  set (q := query_vector (Faiss.kind ix) embedding).
  set (sorted := merge_sort (Faiss.ranks (Faiss.kind ix)) (Faiss.scored ix q)).
  assert (forall n h, h ∈ take n sorted -> h ∈ Faiss.scored ix q) as Hsub.
  { intros n h Hh%subseteq_take. revert Hh. unfold sorted.
    by rewrite merge_sort_Permutation. }
  split; [|split].
  - rewrite length_omap_is_Some.
    + rewrite length_take_le; [done|].
      unfold sorted. rewrite merge_sort_Permutation, length_scored, Hxb. lia.
    + apply Forall_forall. intros h Hh%Hsub.
      destruct (result_of_hit_scored self ix q h Hc Hix Hh)
        as (i & row & name & _ & _ & _ & ->). eauto.
  - intros name s ([dist idx] & Hh%Hsub & Hres)%list_elem_of_omap.
    destruct (result_of_hit_scored self ix q _ Hc Hix Hh)
      as (i & row & name' & _ & Hname & _ & Hres').
    rewrite Hres' in Hres. injection Hres as <- _.
    by eapply list_elem_of_lookup_2.
  - intros Hk. rewrite Nat.min_r by done.
    rewrite take_ge.
    2:{ unfold sorted.
        rewrite merge_sort_Permutation, length_scored, Hxb. lia. }
    unfold sorted. rewrite merge_sort_Permutation.
    rewrite omap_result_of_hit_all by (by rewrite Hxb).
    by rewrite fst_zip_with_names by (by rewrite Hxb).
Qed.

Lemma query_index_exhaustive_witness :
  let self := (build_index (init 2) [[1; 0]; [0; 1]] ["a"; "b"]%string
                           "L2").1 in
  (length [1; 1] = dimension self ->
   length (query_index self [1; 1] 5) = Nat.min 5 (length (names self))
   /\ (forall name s,
         (name, s) ∈ query_index self [1; 1] 5 -> name ∈ names self)
   /\ ((length (names self) <= 5)%nat ->
       map fst (query_index self [1; 1] 5) ≡ₚ names self))
  /\ (length [1; 1] <> dimension self -> query_index self [1; 1] 5 = []).
Proof.
  apply query_index_exhaustive.
  unfold consistent; simpl. repeat split; try done.
  - repeat constructor.
  - eauto.
Defined.

Lemma ranks_refl m h : Faiss.ranks m h h.
Proof. destruct m; simpl; lra. Qed.

(** The first answer of a query is an entry that no entry outranks. *)
Lemma query_index_head self ix embedding k :
  consistent self -> index self = Some ix ->
  length embedding = dimension self -> (1 <= k)%nat ->
  exists j row name rest,
    query_index self embedding k
    = (name, similarity_of (Faiss.kind ix)
               (Faiss.score (Faiss.kind ix)
                  (query_vector (Faiss.kind ix) embedding) row)) :: rest
    /\ Faiss.xb ix !! j = Some row /\ names self !! j = Some name
    /\ forall i row',
        Faiss.xb ix !! i = Some row' ->
        Faiss.ranks (Faiss.kind ix)
          (Faiss.score (Faiss.kind ix)
             (query_vector (Faiss.kind ix) embedding) row, Z.of_nat j)
          (Faiss.score (Faiss.kind ix)
             (query_vector (Faiss.kind ix) embedding) row', Z.of_nat i).
Proof.
  intros Hc Hix Hdim Hk.
  pose proof Hc as (Htrained & Hne & Hlen & Hrows & ix' & Hix' & Hd & Hxb).
  rewrite Hix in Hix'. injection Hix' as <-.
  rewrite (query_index_unfold self ix) by done.
  destruct (decide _); [|done].
  set (q := query_vector (Faiss.kind ix) embedding).
  pose proof (StronglySorted_merge_sort (Faiss.ranks (Faiss.kind ix))
                (Faiss.scored ix q)) as Hsorted.
  pose proof (merge_sort_Permutation (Faiss.ranks (Faiss.kind ix))
                (Faiss.scored ix q)) as Hperm.
  destruct (merge_sort _ _) as [|h0 tl] eqn:Hms.
  { apply Permutation_length in Hperm. rewrite length_scored, Hxb in Hperm.
    destruct (names self); [done|]. simpl in *. lia. }
  destruct (Nat.min k (length (names self))) as [|k'] eqn:Hmin.
  { destruct (names self); [done|]. simpl in *. lia. }
  assert (h0 ∈ Faiss.scored ix q) as Hh0.
  { rewrite <- Hperm. by left. }
  destruct (result_of_hit_scored self ix q h0 Hc Hix Hh0)
    as (j & row & name & Hrow & Hname & -> & Hres).
  exists j, row, name. eexists. split; [|split; [done|split; [done|]]].
  - rewrite firstn_cons. by rewrite (omap_cons_Some _ _ _ _ Hres).
  - intros i row' Hrow'.
    assert ((Faiss.score (Faiss.kind ix) q row', Z.of_nat i)
              ∈ Faiss.scored ix q) as Hin.
    { unfold Faiss.scored. apply elem_of_lookup_imap. eauto. }
    rewrite <- Hperm in Hin.
    apply elem_of_cons in Hin as [<-|Hin]; [apply ranks_refl|].
    apply StronglySorted_inv in Hsorted as [_ Hall].
    rewrite Forall_forall in Hall. by apply Hall.
Qed.

Lemma sqdist_nonneg (a b : ndarray) : 0 <= Faiss.sqdist a b.
Proof. apply sumsq_nonneg. Qed.

Lemma sqdist_zero (a b : ndarray) :
  length a = length b -> Faiss.sqdist a b = 0 -> a = b.
Proof.
  intros Hlen H. by apply zip_with_Rminus_zero, sumsq_zero_inv.
Qed.

(** X10.  On a consistent index that ranks by L2 distance, a query with
    a vector that is stored in the index answers first with similarity
    1, under a name whose row is that very vector. *)
Theorem query_index_finds_stored (self : t) (ix : Faiss.index)
    (i : nat) (v : ndarray) (k : nat) :
  consistent self -> index self = Some ix ->
  Faiss.kind ix = Faiss.IndexFlatL2 ->
  embeddings self !! i = Some v -> (1 <= k)%nat ->
  exists name rest j,
    query_index self v k = (name, 1) :: rest
    /\ names self !! j = Some name /\ embeddings self !! j = Some v.
Proof.
  intros Hc Hix Hkind Hv Hk.
  pose proof Hc as (Htrained & Hne & Hlen & Hrows & ix' & Hix' & Hd & Hxb).
  rewrite Hix in Hix'. injection Hix' as <-.
  assert (forall n row, embeddings self !! n = Some row ->
                        length row = dimension self) as Hwidth.
  { intros n row Hn. rewrite Forall_forall in Hrows.
    by eapply Hrows, list_elem_of_lookup_2. }
  destruct (query_index_head self ix v k Hc Hix (Hwidth _ _ Hv) Hk)
    as (j & row & name & rest & Hq & Hrow & Hname & Hbest).
  rewrite Hkind in Hq, Hbest. simpl in Hq, Hbest.
  rewrite Hxb in Hrow, Hbest.
  specialize (Hbest i v Hv). simpl in Hbest.
  unfold Faiss.sqdist in Hbest at 2. rewrite sumsq_subtract_self in Hbest.
  pose proof (sqdist_nonneg v row).
  assert (Faiss.sqdist v row = 0) as Hzero by lra.
  apply sqdist_zero in Hzero as <-.
  2:{ rewrite (Hwidth _ _ Hv). symmetry. by eapply Hwidth. }
  exists name, rest, j. split; [|done].
  rewrite Hq. unfold Faiss.sqdist. rewrite sumsq_subtract_self.
  by rewrite l2_similarity_zero.
Qed.

Lemma query_index_finds_stored_witness :
  let self := (build_index (init 2) [[1; 0]; [0; 1]] ["a"; "b"]%string
                           "L2").1 in
  exists name rest j,
    query_index self [0; 1] 1 = (name, 1) :: rest
    /\ names self !! j = Some name /\ embeddings self !! j = Some [0; 1].
Proof.
  apply (query_index_finds_stored _
           (Faiss.mk_index Faiss.IndexFlatL2 2 [[1; 0]; [0; 1]]) 1);
    try done.
  unfold consistent; simpl. repeat split; try done.
  - repeat constructor.
  - eauto.
Defined.

Lemma build_index_leaves_consistent self embeddings names index_type self' :
  build_index self embeddings names index_type = (self', true) ->
  consistent self'.
Proof.
  intros (Hlen & cols & Hshape & ->)%build_index_true.
  apply shape1_Some in Hshape as [Hne Hrows].
  pose proof (normalize_L2_rows embeddings cols Hrows) as Hnorm.
  unfold consistent; simpl. repeat split; try done.
  - destruct names; [by destruct embeddings | done].
  - destruct (String.eqb index_type "IP"); [|done].
    unfold Faiss.normalize_L2. by rewrite length_map.
  - destruct (String.eqb index_type "IP"); [|done].
    eapply Forall_impl; [exact Hnorm|]. by intros row [? _].
  - eauto.
Qed.

Lemma inner_ge_norms (a b : ndarray) :
  length a = length b -> - (linalg_norm a * linalg_norm b) <= inner a b.
Proof.
  intros Hlen.
  pose proof (sqrt_pos (sumsq a)) as Ha. pose proof (sqrt_pos (sumsq b)) as Hb.
  fold (linalg_norm a) in Ha. fold (linalg_norm b) in Hb.
  destruct (Req_dec_T (linalg_norm a) 0) as [Hza|Hnza].
  { rewrite inner_comm, inner_zero_r by by apply linalg_norm_zero_inv.
    rewrite Hza; lra. }
  destruct (Req_dec_T (linalg_norm b) 0) as [Hzb|Hnzb].
  { rewrite inner_zero_r by by apply linalg_norm_zero_inv.
    rewrite Hzb; lra. }
  pose proof (sumsq_nonneg
                (zip_with Rplus (scale a (linalg_norm b))
                                (scale b (linalg_norm a)))) as H.
  rewrite sumsq_combination in H by done.
  rewrite <- (linalg_norm_sq a), <- (linalg_norm_sq b) in H.
  assert (0 < linalg_norm a * linalg_norm b) as Hpos by nra.
  apply Rmult_le_reg_l with (r := 2 * (linalg_norm a * linalg_norm b));
    [lra|]. nra.
Qed.

Lemma linalg_norm_normalize (v : ndarray) :
  linalg_norm (FaceUtils._normalize_embedding v) = 1
  \/ linalg_norm (FaceUtils._normalize_embedding v) = 0.
Proof.
  destruct (Req_dec_T (linalg_norm v) 0) as [Hz|Hn].
  - right. by rewrite normalize_zero by by apply linalg_norm_zero_inv.
  - left. rewrite normalize_nonzero by done.
    by apply linalg_norm_unit, sumsq_normalized.
Qed.

Lemma normalize_L2_lookup (rows : list ndarray) j row :
  Faiss.normalize_L2 rows !! j = Some row ->
  exists u, rows !! j = Some u /\ row = FaceUtils._normalize_embedding u.
Proof.
  unfold Faiss.normalize_L2. rewrite list_lookup_fmap.
  destruct (rows !! j) as [u|]; simpl; [|done].
  intros [= <-]. eauto.
Qed.

(** X11.  After [build_index] with the type ['IP'], a query with one of
    the vectors the index was built from (of non-zero norm) answers
    first with similarity 1, under a name that was given a vector of
    the same direction. *)
Theorem query_index_finds_enrolled
    (self : t) (embeddings : list ndarray) (names : list string)
    (i : nat) (v : ndarray) (k : nat) :
  (build_index self embeddings names "IP").2 = true ->
  embeddings !! i = Some v -> linalg_norm v <> 0 -> (1 <= k)%nat ->
  exists name rest j u,
    query_index (build_index self embeddings names "IP").1 v k
    = (name, 1) :: rest
    /\ names !! j = Some name /\ embeddings !! j = Some u
    /\ FaceUtils._normalize_embedding u = FaceUtils._normalize_embedding v.
Proof.
  destruct (build_index self embeddings names "IP") as [built ok] eqn:E.
  simpl. intros -> Hv Hn Hk.
  pose proof (build_index_leaves_consistent _ _ _ _ _ E) as Hc.
  apply build_index_true in E as (Hlen & cols & Hshape & ->).
  simpl in *.
  set (ix := Faiss.mk_index Faiss.IndexFlatIP cols
               (Faiss.normalize_L2 embeddings)) in *.
  assert (length v = cols) as Hwidth.
  { eapply shape1_rows; [done|]. by eapply list_elem_of_lookup_2. }
  set (q := FaceUtils._normalize_embedding v).
  assert (sumsq q = 1) as Hq.
  { unfold q. rewrite normalize_nonzero by done. by apply sumsq_normalized. }
  match type of Hc with consistent ?b => set (built := b) in * end.
  destruct (query_index_head built ix v k Hc eq_refl Hwidth Hk)
    as (j & row & name & rest & Hquery & Hrow & Hname & Hbest).
  simpl in Hquery, Hrow, Hname, Hbest. fold q in Hquery, Hbest.
  assert (Faiss.normalize_L2 embeddings !! i = Some q) as Hi.
  { unfold Faiss.normalize_L2. by rewrite list_lookup_fmap, Hv. }
  specialize (Hbest i q Hi). simpl in Hbest. rewrite inner_self, Hq in Hbest.
  apply normalize_L2_lookup in Hrow as (u & Hu & ->).
  assert (length u = cols) as Hu_width.
  { eapply shape1_rows; [done|]. by eapply list_elem_of_lookup_2. }
  assert (length q = length (FaceUtils._normalize_embedding u)) as Hlens.
  { unfold q. rewrite !length_normalize. congruence. }
  pose proof (inner_le_norms _ _ Hlens) as Hcs.
  rewrite (linalg_norm_unit q Hq) in Hcs.
  assert (sumsq (FaceUtils._normalize_embedding u) = 1) as Hrow1.
  { destruct (linalg_norm_normalize u) as [H1|H0];
      [by apply linalg_norm_unit_inv | rewrite H0 in Hcs; lra]. }
  rewrite (linalg_norm_unit _ Hrow1) in Hcs.
  assert (inner q (FaceUtils._normalize_embedding u) = 1) as Hone by lra.
  exists name, rest, j, u. rewrite Hquery, Hone. repeat split; try done.
  symmetry. apply zip_with_Rminus_zero; [done|].
  apply sumsq_zero_inv. rewrite sumsq_subtract by done. lra.
Qed.

Lemma query_index_finds_enrolled_witness :
  exists name rest j u,
    query_index (build_index (init 2) [[3; 4]; [0; 2]] ["a"; "b"]%string
                             "IP").1 [0; 2] 1
    = (name, 1) :: rest
    /\ ["a"; "b"]%string !! j = Some name
    /\ [[3; 4]; [0; 2]] !! j = Some u
    /\ FaceUtils._normalize_embedding u
       = FaceUtils._normalize_embedding [0; 2].
Proof.
  apply (query_index_finds_enrolled _ _ _ 1); try done.
  intros H%linalg_norm_zero_inv. simpl in H. lra.
Defined.

Lemma query_index_elem self embedding k name s :
  (name, s) ∈ query_index self embedding k ->
  exists ix i row,
    index self = Some ix
    /\ length (query_vector (Faiss.kind ix) embedding) = Faiss.d ix
    /\ Faiss.xb ix !! i = Some row /\ names self !! i = Some name
    /\ s = similarity_of (Faiss.kind ix)
             (Faiss.score (Faiss.kind ix)
                (query_vector (Faiss.kind ix) embedding) row).
Proof.
  unfold query_index.
  destruct (is_trained self); [|by intros ?%elem_of_nil].
  destruct (index self) as [ix|]; [|by intros ?%elem_of_nil].
  assert ((match Faiss.kind ix with
           | Faiss.IndexFlatIP =>
               match Faiss.normalize_L2 [embedding] with
               | [q] => q
               | _ => embedding
               end
           | Faiss.IndexFlatL2 => embedding
           end) = query_vector (Faiss.kind ix) embedding) as ->.
  { by destruct (Faiss.kind ix). }
  destruct (Faiss.search _ _ _) as [hits|] eqn:Hs;
    [|by intros ?%elem_of_nil].
  assert (length (query_vector (Faiss.kind ix) embedding) = Faiss.d ix)
    as Hwidth.
  { unfold Faiss.search in Hs. by destruct (decide _). }
  apply search_sorted_prefix in Hs as (best & -> & _ & Hbest).
  rewrite omap_app, result_of_hit_padding, app_nil_r.
  intros ([dist idx] & Hin & Hres)%list_elem_of_omap.
  apply Hbest, elem_of_scored in Hin as (i & row & Hrow & [= -> ->]).
  apply result_of_hit_Some in Hres as [Hname ->].
  rewrite Nat2Z.id in Hname. exists ix, i, row. by repeat split.
Qed.

(** X12.  Every similarity an index built by [build_index] reports lies
    between -1 and 1 when the index was built with the type ['IP'], and
    is positive and at most 1 otherwise. *)
Theorem query_index_similarity_bounds
    (self : t) (embeddings : list ndarray) (names : list string)
    (index_type : string) (embedding : ndarray) (k : nat)
    (name : string) (s : R) :
  (build_index self embeddings names index_type).2 = true ->
  (name, s)
    ∈ query_index (build_index self embeddings names index_type).1
                  embedding k ->
  (index_type = "IP"%string -> -1 <= s <= 1)
  /\ (index_type <> "IP"%string -> 0 < s <= 1).
Proof.
  destruct (build_index self embeddings names index_type) as [built ok] eqn:E.
  simpl. intros -> Hin.
  apply build_index_true in E as (Hlen & cols & Hshape & ->).
  apply query_index_elem in Hin
    as (ix & i & row & [= <-] & Hwidth & Hrow & _ & ->).
  simpl in *. apply shape1_Some in Hshape as [_ Hrows].
  destruct (String.eqb_spec index_type "IP") as [->|Hty];
    (split; [|done || intros _]); try done; simpl.
  - intros _. simpl in *.
    pose proof (normalize_L2_rows embeddings cols Hrows) as Hnorm.
    rewrite Forall_forall in Hnorm.
    destruct (Hnorm row) as [Hrowlen Hrownorm];
      [by eapply list_elem_of_lookup_2|].
    assert (length (FaceUtils._normalize_embedding embedding) = length row)
      as Hlens by congruence.
    pose proof (inner_le_norms _ _ Hlens) as Hle.
    pose proof (inner_ge_norms _ _ Hlens) as Hge.
    destruct (linalg_norm_normalize embedding) as [Hq | Hq],
             Hrownorm as [Hr | Hr]; rewrite Hq, Hr in Hle, Hge; lra.
  - pose proof (sqdist_nonneg embedding row) as Hd.
    split; [apply exp_pos|].
    rewrite <- l2_similarity_zero. by apply l2_similarity_antitone.
Qed.

Lemma query_index_similarity_bounds_witness :
  (("a"%string, 1)
     ∈ query_index (build_index (init 2) [[1; 0]] ["a"%string] "IP").1
                   [1; 0] 1)
  /\ (("IP"%string = "IP"%string -> -1 <= 1 <= 1)
      /\ ("IP"%string <> "IP"%string -> 0 < 1 <= 1)).
Proof.
  assert (("a"%string, 1)
            ∈ query_index
                (build_index (init 2) [[1; 0]] ["a"%string] "IP").1
                [1; 0] 1) as Hin.
  { assert (sumsq [1; 0] = 1) as H10 by (simpl; lra).
    unfold build_index, query_index; simpl.
    rewrite !(linalg_norm_unit _ H10).
    destruct (Req_dec_T 1 0); [lra|]. simpl.
    apply list_elem_of_singleton. f_equal.
    unfold Faiss.score, Faiss.add; simpl. lra. }
  split; [done|].
  by apply (query_index_similarity_bounds
              (init 2) [[1; 0]] ["a"%string] "IP" [1; 0] 1 "a").
Defined.
End BuiltIndexFacts.

(** ** The similarity index under mutation, and on disk *)

Section IndexMaintenanceFacts.
Import Np FaissSearchIndex.
Local Open Scope R_scope.

Lemma list_index_None name (names : list string) :
  list_index name names = None <-> name ∉ names.
Proof.
  induction names as [|n names IH]; simpl.
  - split; [intros _; apply not_elem_of_nil | done].
  - rewrite not_elem_of_cons.
    destruct (String.eqb_spec n name) as [->|Hne].
    + split; [done | by intros [? _]].
    + destruct (list_index name names); simpl.
      * split; [done|]. intros [_ H]. by apply IH in H.
      * split; [|done]. intros _. split; [done | by apply IH].
Qed.

Lemma list_index_lt name (names : list string) idx :
  list_index name names = Some idx -> (idx < length names)%nat.
Proof.
  revert idx; induction names as [|n names IH]; intros idx; simpl; [done|].
  destruct (String.eqb n name); [intros [= <-]; lia|].
  destruct (list_index name names) as [i|]; simpl; [|done].
  intros [= <-]. specialize (IH i eq_refl). lia.
Qed.

Lemma length_setitem matrix idx v updated :
  setitem matrix idx v = Some updated -> length updated = length matrix.
Proof.
  unfold setitem. destruct (matrix !! idx) as [row|]; [|done].
  destruct (decide _).
  - intros [= <-]. apply length_insert.
  - destruct v as [|x [|]]; try done. intros [= <-]. apply length_insert.
Qed.

Lemma build_index_length_mismatch self embeddings names index_type :
  length embeddings <> length names ->
  build_index self embeddings names index_type = (self, false).
Proof.
  intros Hne. unfold build_index.
  by destruct (Nat.eqb_spec (length embeddings) (length names)).
Qed.

(** X13.  [update_embedding] and [remove_face] for a name that is not in
    the index answer [False] and change nothing; so does, on a
    consistent index, [update_embedding] with a vector whose width is
    neither that of the index nor one. *)
Theorem unknown_name_is_refused (self : t) (name : string)
    (new_embedding : ndarray) :
  (name ∉ names self ->
   update_embedding self name new_embedding = (self, false)
   /\ remove_face self name = (self, false))
  /\ (consistent self ->
      length new_embedding <> dimension self ->
      length new_embedding <> 1%nat ->
      update_embedding self name new_embedding = (self, false)).
Proof.
  split.
  - intros Hname%list_index_None. unfold update_embedding, remove_face.
    by rewrite Hname.
  - intros (_ & _ & Hlen & Hrows & _) Hwidth Hone.
    unfold update_embedding.
    destruct (list_index name (names self)) as [idx|] eqn:Hidx; [|done].
    unfold setitem.
    destruct (embeddings self !! idx) as [row|] eqn:Hrow; [|done].
    rewrite Forall_forall in Hrows.
    rewrite (Hrows row) by by eapply list_elem_of_lookup_2.
    destruct (decide _); [done|].
    by destruct new_embedding as [|x [|]].
Qed.

(** How a run of calls goes on an index whose names outnumber its rows:
    additions and updates all fail. *)
Lemma run_outnumbered (cs : list call) :
  forall self,
    (length (embeddings self) < length (names self))%nat ->
    Forall (fun c => match c with
                     | AddFace _ _ | UpdateEmbedding _ _ => True
                     | _ => False
                     end) cs ->
    Forall (fun ok => ok = false) (run self cs).2
    /\ index (run self cs).1 = index self
    /\ is_trained (run self cs).1 = is_trained self.
Proof.
  induction cs as [|c cs IH]; intros self Hout Hcs; simpl; [by auto|].
  apply Forall_cons in Hcs as [Hc Hcs].
  assert (exists self', step self c = (self', false)
                        /\ (length (embeddings self') < length (names self'))%nat
                        /\ index self' = index self
                        /\ is_trained self' = is_trained self)
    as (self' & Hstep & Hout' & Hix & Htr).
  { destruct c as [| n e | n e |]; try done; simpl.
    - unfold add_face. rewrite build_index_length_mismatch.
      + eexists; split; [done|]. simpl. rewrite length_app. simpl.
        repeat split; lia.
      + simpl. rewrite !length_app. simpl. lia.
    - unfold update_embedding.
      destruct (list_index n (names self)); [|by eauto].
      destruct (setitem _ _ _) as [updated|] eqn:Hset; [|by eauto].
      apply length_setitem in Hset.
      rewrite build_index_length_mismatch by (simpl; lia).
      eexists; split; [done|]. simpl. repeat split; lia. }
  rewrite Hstep.
  destruct (IH self' Hout' Hcs) as (Hoks & Hix' & Htr').
  destruct (run self' cs) as [final oks]. simpl in *.
  repeat split; [by constructor | congruence | congruence].
Qed.

(** X14.  [add_face] appends the name before it tries to rebuild.  Once
    an addition has failed on an index with as many names as rows, every
    later [add_face] and [update_embedding] fails as well, whatever its
    arguments; the faiss index that answers the queries is never
    replaced. *)
Theorem failed_add_face_blocks_later_calls
    (self : t) (name : string) (embedding : ndarray) (cs : list call) :
  length (names self) = length (embeddings self) ->
  (add_face self name embedding).2 = false ->
  Forall (fun c => match c with
                   | AddFace _ _ | UpdateEmbedding _ _ => True
                   | _ => False
                   end) cs ->
  names (add_face self name embedding).1 = names self ++ [name]
  /\ Forall (fun ok => ok = false)
            (run (add_face self name embedding).1 cs).2
  /\ index (run (add_face self name embedding).1 cs).1 = index self
  /\ is_trained (run (add_face self name embedding).1 cs).1
     = is_trained self.
Proof.
  intros Hlen Hfail Hcs.
  destruct (add_face self name embedding) as [self' ok] eqn:Hadd.
  simpl in *. subst ok. unfold add_face in Hadd.
  apply build_index_false in Hadd as ->. simpl. split; [done|].
  match goal with |- context [run ?s cs] =>
    destruct (run_outnumbered cs s) as (H1 & H2 & H3) end;
    [simpl; rewrite length_app; simpl; lia | done | done].
Qed.

Lemma failed_add_face_blocks_later_calls_witness :
  let self := (build_index (init 2) [[1; 0]] ["a"%string] "L2").1 in
  names (add_face self "b" [1; 0; 0]).1 = names self ++ ["b"%string]
  /\ Forall (fun ok => ok = false)
            (run (add_face self "b" [1; 0; 0]).1
                 [AddFace "c" [0; 1]; UpdateEmbedding "a" [0; 1]]).2
  /\ index (run (add_face self "b" [1; 0; 0]).1
                [AddFace "c" [0; 1]; UpdateEmbedding "a" [0; 1]]).1
     = index self
  /\ is_trained (run (add_face self "b" [1; 0; 0]).1
                     [AddFace "c" [0; 1]; UpdateEmbedding "a" [0; 1]]).1
     = is_trained self.
Proof.
  apply failed_add_face_blocks_later_calls; [done | done |].
  by repeat constructor.
Defined.

(** X15.  [remove_face] of the only entry answers [True] and switches
    the index off, but leaves the row of the removed entry in
    [self.embeddings].  The next [add_face] therefore fails, and the one
    after it, given a vector of the old width, succeeds with the name of
    the failed addition attached to the row of the removed entry. *)
Theorem remove_last_face_leaves_row
    (self : t) (a b c : string) (va vb vc : ndarray) :
  names self = [a] -> embeddings self = [va] -> length vc = length va ->
  let removed := (remove_face self a).1 in
  (remove_face self a).2 = true
  /\ is_trained removed = false /\ index removed = None
  /\ names removed = [] /\ embeddings removed = [va]
  /\ (forall probe k, query_index removed probe k = [])
  /\ (run removed [AddFace b vb; AddFace c vc]).2 = [false; true]
  /\ names (run removed [AddFace b vb; AddFace c vc]).1 = [b; c]
  /\ embeddings (run removed [AddFace b vb; AddFace c vc]).1 = [va; vc].
Proof.
  intros Hnames Hrows Hwidth.
  assert (remove_face self a
          = ({| dimension := dimension self; index := None; names := [];
                embeddings := [va]; is_trained := false |}, true)) as ->.
  { unfold remove_face, np_delete. rewrite Hnames, Hrows. simpl.
    by rewrite String.eqb_refl. }
  assert (add_face {| dimension := dimension self; index := None;
                      names := [b]; embeddings := [va];
                      is_trained := false |} c vc
          = ({| dimension := length va;
                index := Some (Faiss.mk_index Faiss.IndexFlatL2 (length va)
                                              [va; vc]);
                names := [b; c]; embeddings := [va; vc];
                is_trained := true |}, true)) as Hsecond.
  { unfold add_face, build_index; simpl.
    rewrite Hwidth, Nat.eqb_refl. simpl.
    by destruct (Nat.eqb_spec (length va) (dimension self)) as [->|]. }
  simpl. rewrite Hsecond. by repeat split.
Qed.

Lemma remove_last_face_leaves_row_witness :
  let self := (build_index (init 2) [[1; 0]] ["a"%string] "L2").1 in
  let removed := (remove_face self "a").1 in
  (remove_face self "a").2 = true
  /\ is_trained removed = false /\ index removed = None
  /\ names removed = [] /\ embeddings removed = [[1; 0]]
  /\ (forall probe k, query_index removed probe k = [])
  /\ (run removed [AddFace "b" [0; 1]; AddFace "c" [1; 1]]).2
     = [false; true]
  /\ names (run removed [AddFace "b" [0; 1]; AddFace "c" [1; 1]]).1
     = ["b"; "c"]%string
  /\ embeddings (run removed [AddFace "b" [0; 1]; AddFace "c" [1; 1]]).1
     = [[1; 0]; [1; 1]].
Proof. by apply remove_last_face_leaves_row. Defined.

(** X16.  From an index that holds the entries [es], all of one width,
    every call of a non-empty run of admissible additions, updates and
    removals answers [True], and the run ends in exactly the index that
    [build_index] builds from scratch over the entries as they then
    are. *)
Theorem admissible_calls_succeed (cs : list call) :
  forall (self : t) (es : EntrySet.t) (cols : nat),
    names self = map fst es -> embeddings self = map snd es ->
    Forall (fun e => length e.2 = cols) es ->
    cs <> [] -> EntrySet.admissible_run cols es cs ->
    Forall (fun ok => ok = true) (run self cs).2
    /\ (run self cs).1
       = EntrySet.rebuilt cols (fold_left EntrySet.apply cs es) "L2".
Proof.
  induction cs as [|c cs IH]; intros self es cols Hnames Hrows Hall Hne Hadm;
    [done|].
  destruct Hadm as [Hc Hrest].
  cbn [run fold_left].
  rewrite (maintained_step_matches_rebuilt self es cols c) by done.
  destruct (apply_admissible cols es c Hall Hc) as [Hne1 Hall1].
  destruct (rebuilt_holds cols (EntrySet.apply es c) Hne1 Hall1)
    as [Hnames1 Hrows1].
  destruct cs as [|c' cs]; [simpl; split; [by repeat constructor | done]|].
  destruct (IH (EntrySet.rebuilt cols (EntrySet.apply es c) "L2")
              (EntrySet.apply es c) cols Hnames1 Hrows1 Hall1 ltac:(done)
              Hrest) as [Hoks Hrun].
  destruct (run _ (c' :: cs)) as [final oks]. simpl in *.
  split; [by constructor | done].
Qed.

Lemma admissible_calls_succeed_witness :
  let self := EntrySet.rebuilt 2 [("a"%string, [1; 0])] "L2" in
  let cs := [AddFace "b" [0; 1]; UpdateEmbedding "a" [1; 1];
             RemoveFace "b"] in
  Forall (fun ok => ok = true) (run self cs).2
  /\ (run self cs).1
     = EntrySet.rebuilt 2
         (fold_left EntrySet.apply cs [("a"%string, [1; 0])]) "L2".
Proof.
  apply admissible_calls_succeed; try done.
  by repeat constructor.
Defined.

Lemma append_inj_l (p x y : string) :
  (p ++ x)%string = (p ++ y)%string -> x = y.
Proof. induction p as [|ch p IH]; simpl; [done|]. intros [= H]. auto. Qed.

(** X17.  [save_index] refuses an index that is not trained and writes
    nothing; for a trained index it writes the two files and touches no
    other, and [load_index] from the same path then restores, into any
    index object, exactly the saved state.  A [load_index] that finds no
    index file changes nothing; one that finds the index file but no
    metadata answers [False] with [self.index] already replaced. *)
Theorem save_index_load_index
    (self other : t) (filepath : string) (files : disk) :
  (is_trained self = false -> save_index self filepath files = (files, false))
  /\ (is_trained self = true -> is_Some (index self) ->
      (save_index self filepath files).2 = true
      /\ load_index other filepath (save_index self filepath files).1
         = (self, true)
      /\ (forall path,
            path <> (filepath ++ ".faiss")%string ->
            path <> (filepath ++ ".meta")%string ->
            (save_index self filepath files).1 !! path = files !! path))
  /\ (files !! (filepath ++ ".faiss")%string = None ->
      load_index other filepath files = (other, false))
  /\ (forall ix,
        files !! (filepath ++ ".faiss")%string = Some (FaissFile ix) ->
        files !! (filepath ++ ".meta")%string = None ->
        load_index other filepath files
        = ({| dimension := dimension other; index := Some ix;
              names := names other; embeddings := embeddings other;
              is_trained := is_trained other |}, false)).
Proof.
  split; [|split; [|split]].
  - intros Htr. unfold save_index. by rewrite Htr.
  - intros Htr [ix Hix]. unfold save_index. rewrite Htr, Hix. simpl.
    split; [done|]. split.
    + unfold load_index.
      rewrite lookup_insert_ne, lookup_insert_eq, lookup_insert_eq.
      * destruct self; simpl in *; by subst.
      * intros H%append_inj_l. done.
    + intros path H1 H2. by rewrite !lookup_insert_ne.
  - intros Hnone. unfold load_index. by rewrite Hnone.
  - intros ix Hfaiss Hmeta. unfold load_index. by rewrite Hfaiss, Hmeta.
Qed.

Lemma save_index_load_index_witness :
  let self := (build_index (init 2) [[1; 0]] ["a"%string] "L2").1 in
  (is_trained self = false -> save_index self "idx" ∅ = (∅, false))
  /\ (is_trained self = true -> is_Some (index self) ->
      (save_index self "idx" ∅).2 = true
      /\ load_index (init 512) "idx" (save_index self "idx" ∅).1
         = (self, true)
      /\ (forall path,
            path <> ("idx" ++ ".faiss")%string ->
            path <> ("idx" ++ ".meta")%string ->
            (save_index self "idx" ∅).1 !! path = (∅ : disk) !! path))
  /\ ((∅ : disk) !! ("idx" ++ ".faiss")%string = None ->
      load_index (init 512) "idx" ∅ = (init 512, false))
  /\ (forall ix,
        (∅ : disk) !! ("idx" ++ ".faiss")%string = Some (FaissFile ix) ->
        (∅ : disk) !! ("idx" ++ ".meta")%string = None ->
        load_index (init 512) "idx" ∅
        = ({| dimension := dimension (init 512); index := Some ix;
              names := names (init 512);
              embeddings := embeddings (init 512);
              is_trained := is_trained (init 512) |}, false)).
Proof. apply save_index_load_index. Defined.
End IndexMaintenanceFacts.

(** ** The adaptive updater: direction and failures *)

Section AdaptiveFacts.
Import Np Py FaceUtils FaceRecognitionSystem.
Local Open Scope R_scope.

Lemma inner_true_divide (a b : ndarray) s :
  inner (true_divide a s) b = inner a b / s.
Proof.
  revert b; induction a as [|x a IH]; intros [|y b]; simpl;
    try (unfold Rdiv; lra).
  fold (true_divide a s). rewrite IH. unfold Rdiv. lra.
Qed.

Lemma inner_combination (a b e : ndarray) c1 c2 :
  length a = length b ->
  inner (zip_with Rplus (scale a c1) (scale b c2)) e
  = c1 * inner a e + c2 * inner b e.
Proof.
  revert b e; induction a as [|x a IH]; intros [|y b] [|z e] Hlen;
    simpl in *; try lia; try lra.
  fold (scale a c1) (scale b c2). rewrite IH by lia. lra.
Qed.

Lemma clip_mono x y : x <= y -> clip x 0 1 <= clip y 0 1.
Proof.
  intros H. unfold clip.
  apply Rle_min_compat_r. by apply Rle_max_compat_r.
Qed.

(** The arithmetic of one update: with [c] the inner product of the old
    and the observed unit vectors and [n] the norm of their blend. *)
Lemma blend_gain c n :
  -1 <= c <= 1 -> 0 < n -> n * n = 82 / 100 + 18 / 100 * c ->
  c <= (9 / 10 * c + 1 / 10) / n
  /\ (-1 < c < 1 -> c < (9 / 10 * c + 1 / 10) / n).
Proof.
  intros Hc Hn Hsq.
  assert (n <= 1) as Hn1 by nra.
  assert (c * n <= 9 / 10 * c + 1 / 10) as Hle.
  { destruct (Rle_dec 0 (9 / 10 * c + 1 / 10)) as [Hpos|Hneg].
    - destruct (Rle_dec 0 c); nra.
    - apply Rnot_le_lt in Hneg.
      destruct (Rle_dec (c * n) (9 / 10 * c + 1 / 10)) as [|Hgt]; [done|].
      apply Rnot_le_lt in Hgt.
      assert ((c * n) * (c * n) < (9 / 10 * c + 1 / 10) * (9 / 10 * c + 1 / 10))
        as Hsqlt by nra.
      assert ((c * c - 1) * (18 / 100 * c + 1 / 100) >= 0) as Hfact by nra.
      nra. }
  split.
  - apply Rmult_le_reg_r with (r := n); [done|].
    unfold Rdiv. rewrite Rmult_assoc, Rinv_l by lra. lra.
  - intros Hstrict.
    assert (c * n < 9 / 10 * c + 1 / 10) as Hlt.
    { destruct (Rle_dec 0 (9 / 10 * c + 1 / 10)) as [Hpos|Hneg].
      - destruct (Rlt_dec 0 c); [|nra].
        assert (n < 1) by nra. nra.
      - apply Rnot_le_lt in Hneg.
        destruct (Rlt_dec (c * n) (9 / 10 * c + 1 / 10)) as [|Hge]; [done|].
        apply Rnot_lt_le in Hge.
        assert ((c * n) * (c * n)
                <= (9 / 10 * c + 1 / 10) * (9 / 10 * c + 1 / 10))
          as Hsqle by nra.
        assert ((c * c - 1) * (18 / 100 * c + 1 / 100) > 0) as Hfact by nra.
        nra. }
    apply Rmult_lt_reg_r with (r := n); [done|].
    unfold Rdiv. rewrite Rmult_assoc, Rinv_l by lra. lra.
Qed.

(** X18.  The vector an adaptive update stores is at least as close to
    the observed one as the old vector was: for unit vectors of one
    length, the blend [old * 0.9 + e * 0.1] divided by its norm has an
    inner product with [e], and a cosine similarity to [e], not below
    those of [old]; the inner product is strictly larger unless the two
    vectors are equal or opposite. *)
Theorem adaptive_update_moves_toward
    (old_embedding e blended : ndarray) :
  length e = length old_embedding ->
  linalg_norm old_embedding = 1 -> linalg_norm e = 1 ->
  blend old_embedding e = Some blended ->
  let updated := true_divide blended (linalg_norm blended) in
  inner old_embedding e <= inner updated e
  /\ cosine_similarity old_embedding e <= cosine_similarity updated e
  /\ (-1 < inner old_embedding e < 1 ->
      inner old_embedding e < inner updated e).
Proof.
  intros Hlen Hold He Hblend updated.
  destruct (blend_unit_nonzero _ _ _ Hlen Hold He Hblend) as [Hnz Hblen].
  pose proof (linalg_norm_unit_inv _ Hold) as Hso.
  pose proof (linalg_norm_unit_inv _ He) as Hse.
  rewrite blend_same_length in Hblend by done. injection Hblend as <-.
  set (blended := zip_with Rplus _ _) in *.
  set (c := inner old_embedding e).
  assert (-1 <= c <= 1) as Hc.
  { split; [by apply inner_unit_lower | by apply inner_unit_upper]. }
  assert (inner updated e = (9 / 10 * c + 1 / 10) / linalg_norm blended)
    as Hinner.
  { unfold updated, blended. rewrite inner_true_divide.
    rewrite inner_combination by done. rewrite inner_self, Hse.
    fold c. unfold Config.ADAPTIVE_ALPHA. f_equal. lra. }
  assert (linalg_norm blended * linalg_norm blended
          = 82 / 100 + 18 / 100 * c) as Hsq.
  { rewrite linalg_norm_sq. unfold blended.
    rewrite sumsq_combination, Hso, Hse by done. fold c.
    unfold Config.ADAPTIVE_ALPHA. lra. }
  assert (0 < linalg_norm blended) as Hpos.
  { pose proof (sqrt_pos (sumsq blended)). unfold linalg_norm in *. lra. }
  destruct (blend_gain c (linalg_norm blended) Hc Hpos Hsq) as [Hle Hlt].
  rewrite Hinner. split; [done|]. split; [|done].
  unfold cosine_similarity, dot.
  assert (sumsq updated = 1) as Hsu by by apply sumsq_normalized.
  rewrite !normalize_unit by done.
  assert (length updated = length e) as Hulen.
  { unfold updated. rewrite length_true_divide. congruence. }
  destruct (decide (length old_embedding = length e)); [|congruence].
  destruct (decide (length updated = length e)); [|congruence].
  apply clip_mono. fold c. by rewrite Hinner.
Qed.

Lemma adaptive_update_moves_toward_witness :
  exists blended,
    blend [1; 0] [0; 1] = Some blended
    /\ let updated := true_divide blended (linalg_norm blended) in
       inner [1; 0] [0; 1] <= inner updated [0; 1]
       /\ cosine_similarity [1; 0] [0; 1] <= cosine_similarity updated [0; 1]
       /\ (-1 < inner [1; 0] [0; 1] < 1 ->
           inner [1; 0] [0; 1] < inner updated [0; 1]).
Proof.
  eexists. split; [by apply blend_same_length|].
  apply adaptive_update_moves_toward; [done|..].
  - apply linalg_norm_unit. simpl. lra.
  - apply linalg_norm_unit. simpl. lra.
  - by apply blend_same_length.
Defined.

Local Abbreviation count_of self name :=
  (default 0%nat (recognition_counts self !! name)).

Lemma blend_None old_embedding new_embedding :
  length new_embedding <> length old_embedding ->
  length new_embedding <> 1%nat -> length old_embedding <> 1%nat ->
  blend old_embedding new_embedding = None.
Proof.
  intros Hne Hn Ho. unfold blend, add, scale. rewrite !length_map.
  destruct (decide _); [congruence|].
  destruct old_embedding as [|x [|x' old]], new_embedding as [|y [|y' new]];
    simpl in *; done.
Qed.

(** X19.  What a due adaptive update does when it cannot go through.
    For a name that is not in the cache, and for an observed vector that
    does not fit the cached one, only the recognition counter changes.
    When the store cannot be reached, the cache has already taken the
    new vector: the update ends there, the store and the search index
    keep the old one, and nothing is rolled back. *)
Theorem adaptive_update_failures
    (self : t) (name : string) (e : ndarray) (now : DB.datetime) :
  ((count_of self name + 1) mod Config.ADAPTIVE_UPDATE_FREQUENCY = 0)%nat ->
  let counted :=
    set_recognition_counts self
      (<[name := (count_of self name + 1)%nat]> (recognition_counts self)) in
  (dict_get name (authorized_cache self) = None ->
   update_adaptive_embedding self name e now = Ok counted)
  /\ (forall old_embedding,
        dict_get name (authorized_cache self) = Some old_embedding ->
        length e <> length old_embedding ->
        length e <> 1%nat -> length old_embedding <> 1%nat ->
        update_adaptive_embedding self name e now = Ok counted)
  /\ (forall old_embedding,
        dict_get name (authorized_cache self) = Some old_embedding ->
        length e = length old_embedding ->
        linalg_norm old_embedding = 1 -> linalg_norm e = 1 ->
        DB.reachable (db self) = false ->
        exists blended self',
          blend old_embedding e = Some blended
          /\ update_adaptive_embedding self name e now = Ok self'
          /\ dict_get name (authorized_cache self')
             = Some (true_divide blended (linalg_norm blended))
          /\ db self' = db self
          /\ search_index self' = search_index self).
Proof.
  intros Hdue counted.
  assert (update_adaptive_embedding self name e now
        = match dict_get name (authorized_cache self) with
          | None => Ok counted
          | Some old_embedding =>
              match blend old_embedding e with
              | None => Ok counted
              | Some updated =>
                  match finite (divide updated (linalg_norm updated)) with
                  | None => NotFinite
                  | Some updated_embedding =>
                      let self1 :=
                        set_authorized_cache counted
                          (dict_set name updated_embedding
                                    (authorized_cache self)) in
                      match DB.update_authorized_embedding
                              (db self) name updated_embedding now with
                      | None => Ok self1
                      | Some db' =>
                          let self2 := set_db self1 db' in
                          match use_faiss self, search_index self with
                          | true, Some ix =>
                              Ok (set_search_index self2
                                    (Some (FaissSearchIndex.update_embedding
                                             ix name updated_embedding).1))
                          | _, _ => Ok self2
                          end
                      end
                  end
              end
          end) as Hrun.
  { unfold update_adaptive_embedding.
    unfold Config.ENABLE_ADAPTIVE_UPDATE. cbv beta iota zeta delta [negb].
    by destruct (Nat.eqb_spec
                   ((count_of self name + 1)
                      mod Config.ADAPTIVE_UPDATE_FREQUENCY) 0). }
  split; [|split].
  - intros Hnone. by rewrite Hrun, Hnone.
  - intros old Hold Hne He Ho. by rewrite Hrun, Hold, blend_None.
  - intros old Hold Hlen Hno Hne Hdb.
    destruct (blend old e) as [blended|] eqn:Hblend;
      [|by rewrite blend_same_length in Hblend].
    destruct (blend_unit_nonzero old e blended Hlen Hno Hne Hblend)
      as [Hnz _].
    exists blended. eexists. split; [done|].
    rewrite Hrun, Hold, Hblend, divide_nonzero, finite_map_Fin by done.
    unfold DB.update_authorized_embedding. rewrite Hdb.
    cbv zeta. split; [done|]. simpl.
    split; [apply dict_get_set_eq | done].
Qed.

Lemma adaptive_update_failures_witness :
  ((count_of (Scenario.system 9) "alice" + 1)
     mod Config.ADAPTIVE_UPDATE_FREQUENCY = 0)%nat
  /\ (length [1; 0; 0] <> length [1; 0] ->
      length [1; 0; 0] <> 1%nat -> length [1; 0] <> 1%nat ->
      update_adaptive_embedding (Scenario.system 9) "alice" [1; 0; 0] 100%N
      = Ok (set_recognition_counts (Scenario.system 9)
              (<["alice"%string := 10%nat]>
                 (recognition_counts (Scenario.system 9))))).
Proof.
  assert ((count_of (Scenario.system 9) "alice" + 1)
            mod Config.ADAPTIVE_UPDATE_FREQUENCY = 0)%nat as Hdue.
  { reflexivity. }
  split; [done|].
  destruct (adaptive_update_failures
              (Scenario.system 9) "alice" [1; 0; 0] 100%N Hdue)
    as (_ & Hwidth & _).
  intros H1 H2 H3. by apply (Hwidth [1; 0]).
Defined.
End AdaptiveFacts.

(** ** Start-up: the cache and the search index *)

Section StartupFacts.
Import Np Py FaceUtils FaceRecognitionSystem.
Local Open Scope R_scope.

Lemma fold_cache_face (faces : list (string * DB.authorized_face)) :
  forall self,
    NoDup (map fst faces) ->
    let self' := fold_left cache_face faces self in
    (forall name doc,
        (name, doc) ∈ faces ->
        dict_get name (authorized_cache self') = Some (DB.af_embedding doc)
        /\ recognition_counts self' !! name = Some 0%nat)
    /\ (forall name,
          name ∉ map fst faces ->
          dict_get name (authorized_cache self')
          = dict_get name (authorized_cache self)
          /\ recognition_counts self' !! name
             = recognition_counts self !! name)
    /\ db self' = db self /\ search_index self' = search_index self
    /\ use_faiss self' = use_faiss self
    /\ frame_buffers self' = frame_buffers self.
Proof.
  induction faces as [|[n d] faces IH]; intros self Hnodup;
    cbn [fold_left map fst] in *; cbv zeta.
  { split; [|done]. by intros ? ? ?%elem_of_nil. }
  apply NoDup_cons in Hnodup as [Hn Hnodup].
  destruct (IH (cache_face self (n, d)) Hnodup)
    as (Hin & Hout & Hdb & Hix & Hfaiss & Hbuf).
  split; [|split].
  - intros name doc [Hhead|Hrest]%elem_of_cons; [|by apply Hin].
    injection Hhead as -> ->.
    destruct (Hout n Hn) as [-> ->]. simpl.
    by rewrite dict_get_set_eq, lookup_insert_eq.
  - intros name [Hne Hrest]%not_elem_of_cons.
    destruct (Hout name Hrest) as [-> ->]. simpl.
    by rewrite dict_get_set_ne, lookup_insert_ne.
  - by rewrite Hdb, Hix, Hfaiss, Hbuf.
Qed.

(** X20.  [load_authorized_faces] raises when the store cannot be
    reached.  Otherwise every identity of the store is in the cache
    afterwards with the vector the store holds, its recognition counter
    set to 0; what the cache held under other names, identities that
    were deleted from the store among them, stays as it was, and the
    search index is not touched. *)
Theorem load_authorized_faces_fills_cache (self : t) :
  (DB.reachable (db self) = false -> load_authorized_faces self = Raised)
  /\ (DB.reachable (db self) = true ->
      exists self',
        load_authorized_faces self = Ok self'
        /\ (forall name doc,
              DB.auth_coll (db self) !! name = Some doc ->
              dict_get name (authorized_cache self')
              = Some (DB.af_embedding doc)
              /\ recognition_counts self' !! name = Some 0%nat)
        /\ (forall name,
              DB.auth_coll (db self) !! name = None ->
              dict_get name (authorized_cache self')
              = dict_get name (authorized_cache self)
              /\ recognition_counts self' !! name
                 = recognition_counts self !! name)
        /\ db self' = db self /\ search_index self' = search_index self
        /\ use_faiss self' = use_faiss self
        /\ frame_buffers self' = frame_buffers self).
Proof.
  unfold load_authorized_faces, DB.get_all_authorized. split; intros ->;
    [done|].
  exists (fold_left cache_face (map_to_list (DB.auth_coll (db self))) self).
  split; [by destruct (map_to_list _)|].
  destruct (fold_cache_face (map_to_list (DB.auth_coll (db self))) self)
    as (Hin & Hout & Hrest); [apply NoDup_fst_map_to_list|].
  split; [|split; [|done]].
  - intros name doc Hdoc. by apply Hin, elem_of_map_to_list.
  - intros name Hnone. apply Hout.
    intros ([n d] & Hn & Hd%elem_of_map_to_list)%list_elem_of_fmap.
    simpl in Hn. congruence.
Qed.

Lemma load_authorized_faces_fills_cache_witness :
  exists self',
    load_authorized_faces (Scenario.system 5) = Ok self'
    /\ dict_get "alice" (authorized_cache self') = Some [1; 0]
    /\ recognition_counts self' !! "alice"%string = Some 0%nat.
Proof.
  destruct (load_authorized_faces_fills_cache (Scenario.system 5))
    as [_ Hload].
  destruct (Hload eq_refl) as (self' & Hrun & Hin & _).
  exists self'. split; [done|]. by apply (Hin "alice"%string Scenario.alice).
Defined.

Lemma clip_as_Rmax x : x <= 1 -> clip x 0 1 = Rmax x 0.
Proof.
  intros H. unfold clip. apply Rmin_left.
  unfold Rmax. destruct (Rle_dec _ _); lra.
Qed.

Lemma cosine_similarity_same_length (a b : ndarray) :
  length a = length b ->
  cosine_similarity a b
  = clip (inner (_normalize_embedding a) (_normalize_embedding b)) 0 1.
Proof.
  intros Hlen. unfold cosine_similarity, dot. rewrite !length_normalize.
  by destruct (decide _).
Qed.

Lemma inner_normalized_le_1 (a b : ndarray) :
  length a = length b ->
  inner (_normalize_embedding a) (_normalize_embedding b) <= 1.
Proof.
  intros Hlen.
  pose proof (inner_le_norms (_normalize_embedding a) (_normalize_embedding b))
    as Hcs.
  rewrite !length_normalize in Hcs. specialize (Hcs Hlen).
  destruct (linalg_norm_normalize a) as [Ha|Ha],
           (linalg_norm_normalize b) as [Hb|Hb];
    rewrite Ha, Hb in Hcs; lra.
Qed.

(** X21.  The two search paths of [recognize_face] agree.  With a
    non-empty cache of vectors of the width of the query and a positive
    threshold, the index that [_init_faiss_index] builds over the cache
    leads to the same decision as the linear search: one finds a match
    exactly when the other does, the confidence of the linear search is
    that of the index with a negative value raised to 0, and a name
    found through the index is a name of the cache whose vector has
    that very cosine similarity to the query. *)
Theorem index_search_agrees_with_linear_search
    (MATCH_THRESHOLD : R) (self : t) (e : ndarray) :
  0 < MATCH_THRESHOLD ->
  authorized_cache self <> [] ->
  Forall (fun entry => length entry.2 = length e) (authorized_cache self) ->
  use_faiss self = true ->
  let by_index :=
    recognize_face MATCH_THRESHOLD (_init_faiss_index true self) e in
  let by_scan :=
    recognize_face MATCH_THRESHOLD (set_use_faiss self false) e in
  by_scan.2 = Rmax by_index.2 0
  /\ (is_Some by_index.1 <-> is_Some by_scan.1)
  /\ (forall name,
        by_index.1 = Some name ->
        by_scan.2 = by_index.2
        /\ exists v, (name, v) ∈ authorized_cache self
                     /\ cosine_similarity e v = by_index.2).
Proof.
  intros Hpos Hne Hwidth Hfaiss.
  set (cache := authorized_cache self) in *.
  set (embs := map snd cache). set (names := map fst cache).
  assert (shape1 embs = Some (length e)) as Hshape.
  { apply shape1_Some. split; [by destruct cache|].
    unfold embs. by apply Forall_fmap. }
  assert (exists ix0,
             _init_faiss_index true self
             = set_search_index self
                 (Some (FaissSearchIndex.build_index ix0 embs names "IP").1))
    as [ix0 Hinit].
  { unfold _init_faiss_index. fold cache embs names.
    destruct embs as [|first embs'] eqn:Hembs; [by destruct cache|].
    unfold FaissSearchIndex.get_search_index. simpl.
    destruct (search_index self); eauto. }
  destruct (build_index_success ix0 embs names "IP" (length e))
    as (Hok & _); [by unfold embs, names; rewrite !length_map | done |].
  destruct (FaissSearchIndex.build_index ix0 embs names "IP")
    as [built ok] eqn:Hbuild.
  simpl in Hok, Hinit. subst ok.
  pose proof (build_index_leaves_consistent _ _ _ _ _ Hbuild) as Hcons.
  apply build_index_true in Hbuild as (_ & cols & Hshape' & Hbuilt).
  rewrite Hshape in Hshape'. injection Hshape' as <-. simpl in Hbuilt.
  set (ix := Faiss.mk_index Faiss.IndexFlatIP (length e)
               (Faiss.normalize_L2 embs)) in *.
  assert (FaissSearchIndex.index built = Some ix) as Hix by by subst built.
  assert (FaissSearchIndex.dimension built = length e) as Hdim
    by by subst built.
  assert (FaissSearchIndex.names built = names) as Hnames by by subst built.
  destruct (query_index_head built ix e 1 Hcons Hix (eq_sym Hdim) (le_n 1))
    as (j & row & name & rest & Hquery & Hrow & Hname & Hbest).
  clear Hbuilt. simpl in Hquery, Hrow, Hbest.
  set (q := _normalize_embedding e) in *.
  set (s := inner q row) in *.
  (* the entry behind the first answer *)
  apply normalize_L2_lookup in Hrow as (u & Hu & Hrowu).
  rewrite Hnames in Hname.
  assert ((name, u) ∈ cache) as Hentry.
  { unfold embs in Hu. unfold names in Hname.
    rewrite list_lookup_fmap in Hu. rewrite list_lookup_fmap in Hname.
    destruct (cache !! j) as [[n v]|] eqn:Hj; simpl in *; [|done].
    injection Hu as ->. injection Hname as ->.
    by eapply list_elem_of_lookup_2. }
  assert (forall n v, (n, v) ∈ cache -> length e = length v) as Hlen.
  { intros n v Hin. rewrite Forall_forall in Hwidth.
    symmetry. apply (Hwidth _ Hin). }
  assert (s <= 1) as Hs1.
  { unfold s, q. rewrite Hrowu. apply inner_normalized_le_1. by eapply Hlen. }
  assert (cosine_similarity e u = clip s 0 1) as Hcos_u.
  { rewrite cosine_similarity_same_length by by eapply Hlen.
    by rewrite <- Hrowu. }
  assert (forall n v, (n, v) ∈ cache -> cosine_similarity e v <= clip s 0 1)
    as Hall.
  { intros n v Hin.
    rewrite cosine_similarity_same_length by by eapply Hlen.
    apply clip_mono.
    apply list_elem_of_lookup_1 in Hin as [i Hi].
    specialize (Hbest i (_normalize_embedding v)). simpl in Hbest.
    apply Hbest. unfold Faiss.normalize_L2, embs.
    by rewrite !list_lookup_fmap, Hi. }
  (* the two answers *)
  assert (recognize_face MATCH_THRESHOLD (_init_faiss_index true self) e
          = if Rge_dec s MATCH_THRESHOLD then (Some name, s) else (None, s))
    as ->.
  { rewrite Hinit. unfold recognize_face. simpl. fold cache.
    destruct cache; [done|]. by rewrite Hfaiss, Hquery. }
  assert (recognize_face MATCH_THRESHOLD (set_use_faiss self false) e
          = fold_left (linear_step MATCH_THRESHOLD e) cache (None, 0)) as ->.
  { unfold recognize_face. simpl. fold cache. by destruct cache. }
  pose proof (linear_scan_scanned MATCH_THRESHOLD Hpos e cache [] (None, 0))
    as Hscan.
  pose proof (linear_scan_attained MATCH_THRESHOLD e cache [] (None, 0)
                ltac:(by left)) as Hatt.
  simpl in Hscan, Hatt.
  destruct (fold_left (linear_step MATCH_THRESHOLD e) cache (None, 0))
    as [who conf] eqn:Hfold.
  destruct Hscan as (Hconf0 & Hmax & Hbelow & Habove).
  { unfold scanned; simpl. split; [lra|]. split.
    - by intros ? ? ?%elem_of_nil.
    - split; [done | lra]. }
  simpl in Hconf0, Hmax, Hbelow, Habove, Hatt.
  assert (conf = clip s 0 1) as Hconf.
  { apply Rle_antisym.
    - destruct Hatt as [->|(n & v & Hin & <-)];
        [apply clip_unit_range | by eapply Hall].
    - rewrite <- Hcos_u. by eapply Hmax. }
  rewrite clip_as_Rmax in Hconf by done.
  assert (Rmax s 0 = if Rle_dec s 0 then 0 else s) as Hmaxs.
  { unfold Rmax. destruct (Rle_dec s 0); [|done].
    destruct (Rle_dec s 0); lra. }
  destruct (Rge_dec s MATCH_THRESHOLD) as [Hge|Hlt]; simpl.
  - assert (conf = s) as ->.
    { rewrite Hconf, Hmaxs. destruct (Rle_dec s 0); lra. }
    split; [rewrite Hmaxs; by destruct (Rle_dec s 0); lra|].
    split.
    + split; [|by eauto]. intros _.
      destruct Habove as (n & v & _ & _ & ->); [lra | by eauto].
    + intros ? [= <-]. split; [done|]. exists u. split; [done|].
      rewrite Hcos_u, clip_as_Rmax, Hmaxs by done.
      destruct (Rle_dec s 0); lra.
  - split; [done|]. split.
    + split; [by intros [? [=]]|]. intros Hsome.
      rewrite Hbelow in Hsome; [by destruct Hsome|].
      rewrite Hconf, Hmaxs. destruct (Rle_dec s 0); lra.
    + by intros ? [=].
Qed.

Lemma index_search_agrees_with_linear_search_witness :
  let self := set_use_faiss (Scenario.system 0) true in
  let by_index := recognize_face (2 / 5) (_init_faiss_index true self) [0; 1] in
  let by_scan := recognize_face (2 / 5) (set_use_faiss self false) [0; 1] in
  by_scan.2 = Rmax by_index.2 0
  /\ (is_Some by_index.1 <-> is_Some by_scan.1)
  /\ (forall name,
        by_index.1 = Some name ->
        by_scan.2 = by_index.2
        /\ exists v, (name, v) ∈ authorized_cache self
                     /\ cosine_similarity [0; 1] v = by_index.2).
Proof.
  apply index_search_agrees_with_linear_search; try done; [lra|].
  by repeat constructor.
Defined.

Lemma length_dict_set_absent {V} (key : string) (v : V) (dc : dict V) :
  dict_get key dc = None -> length (dict_set key v dc) = S (length dc).
Proof.
  induction dc as [|[k w] dc IH]; simpl; [done|].
  destruct (String.eqb k key); [done|]. intros H. simpl. by rewrite IH.
Qed.

Lemma fold_cache_face_length (faces : list (string * DB.authorized_face)) :
  forall self,
    NoDup (map fst faces) ->
    (forall name, name ∈ map fst faces ->
                  dict_get name (authorized_cache self) = None) ->
    length (authorized_cache (fold_left cache_face faces self))
    = (length (authorized_cache self) + length faces)%nat.
Proof.
  induction faces as [|[n d] faces IH]; intros self Hnodup Hfresh;
    cbn [fold_left map fst length] in *; [lia|].
  apply NoDup_cons in Hnodup as [Hn Hnodup].
  rewrite IH; [|done|].
  - simpl. rewrite length_dict_set_absent; [lia|].
    apply Hfresh. by left.
  - intros name Hname. simpl. rewrite dict_get_set_ne.
    + apply Hfresh. by right.
    + intros ->. done.
Qed.

(** X22.  Starting the system.  [FaceRecognitionSystem()] raises when
    the store cannot be reached.  Otherwise the cache holds exactly the
    identities of the store, each with its vector and a counter of 0,
    and no frame is buffered.  The search index is in use exactly when
    faiss is available and the store holds at least one and at least
    [FAISS_THRESHOLD] identities; without it there is no index, and with
    it, the vectors being of one width, the index is a consistent
    inner-product index over the names and the normalised vectors of
    the cache. *)
Theorem system_start_up
    (FAISS_AVAILABLE : bool) (FAISS_THRESHOLD : Z) (database : DB.t) :
  (DB.reachable database = false ->
   init FAISS_AVAILABLE FAISS_THRESHOLD database = Raised)
  /\ (DB.reachable database = true ->
      exists self,
        init FAISS_AVAILABLE FAISS_THRESHOLD database = Ok self
        /\ db self = database /\ frame_buffers self = ∅
        /\ (forall name,
              dict_get name (authorized_cache self)
              = DB.af_embedding <$> DB.auth_coll database !! name)
        /\ (forall name,
              recognition_counts self !! name
              = (fun _ => 0%nat) <$> DB.auth_coll database !! name)
        /\ length (authorized_cache self) = size (DB.auth_coll database)
        /\ use_faiss self
           = FAISS_AVAILABLE
             && bool_decide
                  (FAISS_THRESHOLD
                   <= Z.of_nat (size (DB.auth_coll database)))%Z
             && negb (Nat.eqb (size (DB.auth_coll database)) 0)
        /\ (use_faiss self = false -> search_index self = None)
        /\ (use_faiss self = true ->
            forall cols,
              Forall (fun entry => length entry.2 = cols)
                     (authorized_cache self) ->
              exists ix,
                search_index self = Some ix
                /\ FaissSearchIndex.consistent ix
                /\ FaissSearchIndex.names ix
                   = map fst (authorized_cache self)
                /\ FaissSearchIndex.embeddings ix
                   = Faiss.normalize_L2 (map snd (authorized_cache self))
                /\ Faiss.kind <$> FaissSearchIndex.index ix
                   = Some Faiss.IndexFlatIP)).
Proof.
  set (self0 := {| db := database; authorized_cache := [];
                   recognition_counts := ∅; search_index := None;
                   use_faiss := false; frame_buffers := ∅ |}).
  split.
  { intros Hdb. unfold init, load_authorized_faces, DB.get_all_authorized.
    simpl. by rewrite Hdb. }
  intros Hdb.
  set (faces := map_to_list (DB.auth_coll database)).
  set (loaded := fold_left cache_face faces self0).
  assert (load_authorized_faces self0 = Ok loaded) as Hload.
  { unfold load_authorized_faces, DB.get_all_authorized. simpl.
    rewrite Hdb. fold faces. unfold loaded. by destruct faces. }
  destruct (fold_cache_face faces self0)
    as (Hin & Hout & Hdb' & _ & _ & Hbuf); [apply NoDup_fst_map_to_list|].
  fold loaded in Hin, Hout, Hdb', Hbuf. simpl in Hout, Hdb', Hbuf.
  assert (forall name,
             dict_get name (authorized_cache loaded)
             = DB.af_embedding <$> DB.auth_coll database !! name
             /\ recognition_counts loaded !! name
                = (fun _ => 0%nat) <$> DB.auth_coll database !! name)
    as Hcache.
  { intros name.
    destruct (DB.auth_coll database !! name) as [doc|] eqn:Hname; simpl.
    - by apply Hin, elem_of_map_to_list.
    - destruct (Hout name) as [-> ->]; [|done].
      intros ([n d] & Hn & Hd%elem_of_map_to_list)%list_elem_of_fmap.
      simpl in Hn. congruence. }
  assert (length (authorized_cache loaded) = size (DB.auth_coll database))
    as Hsize.
  { unfold loaded. rewrite fold_cache_face_length;
      [|apply NoDup_fst_map_to_list|done].
    simpl. unfold faces. by rewrite length_map_to_list. }
  unfold init. fold self0. rewrite Hload. cbv zeta.
  cbn [use_faiss set_use_faiss set_search_index authorized_cache].
  rewrite Hsize.
  unfold FaissSearchIndex.should_use_faiss.
  destruct FAISS_AVAILABLE; simpl.
  2:{ eexists. split; [done|]. simpl.
      split_and!; try done; by apply Hcache. }
  destruct (bool_decide _) eqn:Hthreshold; simpl.
  2:{ eexists. split; [done|]. simpl.
      split_and!; try done; by apply Hcache. }
  unfold _init_faiss_index.
  cbn [authorized_cache set_use_faiss set_search_index search_index].
  destruct (authorized_cache loaded) as [|[n0 v0] cache] eqn:Hloaded.
  { simpl in Hsize. rewrite <- Hsize. simpl.
    eexists. split; [done|]. simpl. rewrite Hloaded.
    split_and!; try done; intros name; destruct (Hcache name) as [H1 H2];
      by rewrite <- ?H1, <- ?H2. }
  simpl. eexists. split; [done|]. simpl. rewrite Hloaded.
  assert (Nat.eqb (size (DB.auth_coll database)) 0 = false) as ->.
  { rewrite <- Hsize. done. }
  split_and!; try done.
  - intros name. destruct (Hcache name) as [H1 _]. by rewrite <- H1.
  - intros name. destruct (Hcache name) as [_ H2]. by rewrite <- H2.
  - intros _ cols Hwidth. eexists. split; [done|].
    set (embs := v0 :: map snd cache) in *.
    set (names := n0 :: map fst cache) in *.
    assert (shape1 embs = Some cols) as Hshape.
    { apply shape1_Some. split; [done|].
      apply (Forall_fmap snd (fun row => length row = cols)) in Hwidth.
      exact Hwidth. }
    destruct (build_index_success
                (FaissSearchIndex.init (length v0)) embs names "IP" cols)
      as (Hok & _); [by unfold embs, names; simpl; rewrite !length_map
                    | done |].
    destruct (FaissSearchIndex.build_index _ embs names "IP")
      as [built ok] eqn:Hbuild.
    simpl in Hok. subst ok.
    pose proof (build_index_leaves_consistent _ _ _ _ _ Hbuild) as Hcons.
    apply build_index_true in Hbuild as (_ & cols' & _ & ->).
    by simpl.
Qed.

Lemma system_start_up_witness :
  exists self,
    init true 1 Scenario.store = Ok self
    /\ dict_get "alice" (authorized_cache self) = Some [1; 0]
    /\ length (authorized_cache self) = 1%nat
    /\ use_faiss self = true.
Proof.
  destruct (system_start_up true 1 Scenario.store) as [_ Hnew].
  destruct (Hnew eq_refl)
    as (self & Hrun & _ & _ & Hcache & _ & Hlen & Hfaiss & _).
  exists self. split; [done|]. split; [by rewrite Hcache|].
  split; [by rewrite Hlen | by rewrite Hfaiss].
Defined.
End StartupFacts.

(** ** The matcher, by scan and by index *)

Section ClassificationFacts.
Import Np Py FaceUtils FaceRecognitionSystem.
Local Open Scope R_scope.

(** The index that [_init_faiss_index] builds over a cache of vectors of
    the width of the query answers with an entry of the cache whose
    inner product with the query, both normalised, no other entry
    exceeds. *)
Lemma recognize_face_by_index (MATCH_THRESHOLD : R) (self : t) (e : ndarray) :
  authorized_cache self <> [] ->
  Forall (fun entry => length entry.2 = length e) (authorized_cache self) ->
  use_faiss self = true ->
  exists name u,
    (name, u) ∈ authorized_cache self
    /\ (forall n v,
          (n, v) ∈ authorized_cache self ->
          inner (_normalize_embedding e) (_normalize_embedding v)
          <= inner (_normalize_embedding e) (_normalize_embedding u))
    /\ recognize_face MATCH_THRESHOLD (_init_faiss_index true self) e
       = if Rge_dec (inner (_normalize_embedding e) (_normalize_embedding u))
                    MATCH_THRESHOLD
         then (Some name,
               inner (_normalize_embedding e) (_normalize_embedding u))
         else (None,
               inner (_normalize_embedding e) (_normalize_embedding u)).
Proof.
  intros Hne Hwidth Hfaiss.
  set (cache := authorized_cache self) in *.
  set (embs := map snd cache). set (names := map fst cache).
  assert (shape1 embs = Some (length e)) as Hshape.
  { apply shape1_Some. split; [by destruct cache|].
    unfold embs. by apply Forall_fmap. }
  assert (exists ix0,
             _init_faiss_index true self
             = set_search_index self
                 (Some (FaissSearchIndex.build_index ix0 embs names "IP").1))
    as [ix0 Hinit].
  { unfold _init_faiss_index. fold cache embs names.
    destruct embs as [|first embs'] eqn:Hembs; [by destruct cache|].
    unfold FaissSearchIndex.get_search_index. simpl.
    destruct (search_index self); eauto. }
  destruct (build_index_success ix0 embs names "IP" (length e))
    as (Hok & _); [by unfold embs, names; rewrite !length_map | done |].
  destruct (FaissSearchIndex.build_index ix0 embs names "IP")
    as [built ok] eqn:Hbuild.
  simpl in Hok, Hinit. subst ok.
  pose proof (build_index_leaves_consistent _ _ _ _ _ Hbuild) as Hcons.
  apply build_index_true in Hbuild as (_ & cols & Hshape' & Hbuilt).
  rewrite Hshape in Hshape'. injection Hshape' as <-. simpl in Hbuilt.
  set (ix := Faiss.mk_index Faiss.IndexFlatIP (length e)
               (Faiss.normalize_L2 embs)) in *.
  assert (FaissSearchIndex.index built = Some ix) as Hix by by subst built.
  assert (FaissSearchIndex.dimension built = length e) as Hdim
    by by subst built.
  assert (FaissSearchIndex.names built = names) as Hnames by by subst built.
  destruct (query_index_head built ix e 1 Hcons Hix (eq_sym Hdim) (le_n 1))
    as (j & row & name & rest & Hquery & Hrow & Hname & Hbest).
  clear Hbuilt. simpl in Hquery, Hrow, Hbest.
  apply normalize_L2_lookup in Hrow as (u & Hu & ->).
  rewrite Hnames in Hname.
  assert ((name, u) ∈ cache) as Hentry.
  { unfold embs in Hu. unfold names in Hname.
    rewrite list_lookup_fmap in Hu. rewrite list_lookup_fmap in Hname.
    destruct (cache !! j) as [[n v]|] eqn:Hj; simpl in *; [|done].
    injection Hu as ->. injection Hname as ->.
    by eapply list_elem_of_lookup_2. }
  exists name, u. split; [done|]. split.
  - intros n v Hin.
    apply list_elem_of_lookup_1 in Hin as [i Hi].
    specialize (Hbest i (_normalize_embedding v)). simpl in Hbest.
    apply Hbest. unfold Faiss.normalize_L2, embs.
    by rewrite !list_lookup_fmap, Hi.
  - rewrite Hinit. unfold recognize_face. simpl. fold cache.
    destruct cache; [done|]. by rewrite Hfaiss, Hquery.
Qed.


Lemma cosine_similarity_crossed :
  cosine_similarity [0; 1] [1; 0] = 0 /\ cosine_similarity [0; 1] [0; 1] = 1.
Proof.
  assert (sumsq [1; 0] = 1) as H10 by (simpl; lra).
  assert (sumsq [0; 1] = 1) as H01 by (simpl; lra).
  unfold cosine_similarity.
  rewrite (normalize_unit _ H10), (normalize_unit _ H01). simpl. split.
  - apply clip_below. lra.
  - replace (0 * 0 + (1 * 1 + 0)) with 1 by lra. apply clip_inside. lra.
Qed.


(** That correspondence is the one of the index of start-up.
    [update_embedding] rebuilds the index as a Euclidean one: after the
    tenth recognition of "alice", observed as her own vector, which
    the update leaves as it is, a query orthogonal to it, until then
    unmatched at 0, is named "alice" at [exp (-2/10)], the similarity
    of the squared distance 2. *)
Lemma recognize_face_after_adaptive_update :
  recognize_face (2 / 5) (Scenario.indexed_system 9) [0; 1] = (None, 0)
  /\ exists self',
      update_adaptive_embedding (Scenario.indexed_system 9) "alice" [1; 0]
                                100%N = Ok self'
      /\ authorized_cache self' = [("alice"%string, [1; 0])]
      /\ recognize_face (2 / 5) self' [0; 1]
         = (Some "alice"%string, exp (- 2 / 10)).
Proof.
  assert (sumsq [1; 0] = 1) as H10 by (simpl; lra).
  assert (sumsq [0; 1] = 1) as H01 by (simpl; lra).
  assert (blend [1; 0] [1; 0] = Some [1; 0]) as Hblend.
  { unfold blend, add, scale, Config.ADAPTIVE_ALPHA. simpl.
    do 2 f_equal; [lra|]. f_equal. lra. }
  split.
  - unfold Scenario.indexed_system, _init_faiss_index, recognize_face.
    simpl. unfold FaissSearchIndex.build_index, FaissSearchIndex.query_index.
    simpl. rewrite !(linalg_norm_unit _ H10), !(linalg_norm_unit _ H01).
    destruct (Req_dec_T 1 0); [lra|]. simpl.
    destruct (Rge_dec _ _); [lra|]. f_equal. lra.
  - eexists. split.
    { apply (update_due _ _ _ _ [1; 0] [1; 0]); try done.
      rewrite (linalg_norm_unit _ H10). lra. }
    cbv zeta. rewrite (linalg_norm_unit _ H10), true_divide_one.
    split; [done|].
    unfold Scenario.indexed_system, _init_faiss_index, recognize_face.
    simpl. unfold FaissSearchIndex.build_index. simpl.
    rewrite !(linalg_norm_unit _ H10).
    destruct (Req_dec_T 1 0); [lra|]. simpl.
    assert (Faiss.sqdist [0; 1] [1; 0] = 2) as ->
      by (unfold Faiss.sqdist; simpl; lra).
    unfold FaissSearchIndex.l2_similarity.
    destruct (Rge_dec _ _) as [_|Hlow]; [done|].
    destruct Hlow.
    match goal with |- exp ?x >= _ => pose proof (exp_ineq1_le x) end. lra.
Qed.
End ClassificationFacts.

(** ** One face of a frame *)

Section FrameFacts.
Import Np Py FaceUtils FaceRecognitionSystem.
Local Open Scope R_scope.

Variable MATCH_THRESHOLD : R.
Variable MULTIFRAME_COUNT : nat.
Variable CAMERA_ID : string.

Local Abbreviation multi_frame_recognize :=
  (FaceRecognitionSystem.multi_frame_recognize MATCH_THRESHOLD MULTIFRAME_COUNT).
Local Abbreviation process_face :=
  (FaceRecognitionSystem.process_face
     MATCH_THRESHOLD MULTIFRAME_COUNT CAMERA_ID).

(** The detection [process_frame] records for a face. *)
Local Abbreviation detection name confidence status embedding image_id
                   review_flag now :=
  {| DB.log_name := name; DB.log_confidence := confidence;
     DB.log_status := status; DB.log_embedding := embedding;
     DB.log_image_id := image_id; DB.log_camera_id := CAMERA_ID;
     DB.log_review_flag := review_flag; DB.log_timestamp := now;
     DB.log_enrolled_as := None; DB.log_enrolled_at := None;
     DB.log_dismissed := None; DB.log_dismissed_at := None |}.

Lemma save_detection_log_reachable db name confidence status embedding
    image_bytes camera_id review_flag now :
  DB.reachable db = true ->
  DB.save_detection_log db name confidence status embedding image_bytes
                        camera_id review_flag now
  = Some ({| DB.reachable := true; DB.auth_coll := DB.auth_coll db;
             DB.logs_coll :=
               <[N.succ (DB.next_id db) :=
                   {| DB.log_name := name; DB.log_confidence := confidence;
                      DB.log_status := status;
                      DB.log_embedding := embedding;
                      DB.log_image_id := DB.next_id db;
                      DB.log_camera_id := camera_id;
                      DB.log_review_flag := review_flag;
                      DB.log_timestamp := now;
                      DB.log_enrolled_as := None;
                      DB.log_enrolled_at := None;
                      DB.log_dismissed := None;
                      DB.log_dismissed_at := None |}]> (DB.logs_coll db);
             DB.fs := <[DB.next_id db := image_bytes]> (DB.fs db);
             DB.next_id := N.succ (N.succ (DB.next_id db)) |},
          N.succ (DB.next_id db)).
Proof.
  intros Hdb. unfold DB.save_detection_log. rewrite Hdb. simpl.
  by rewrite Hdb.
Qed.

(** X23.  A face that [multi_frame_recognize] does not match is recorded
    once, as a detection of ["Unknown"] with the status ["Unauthorized"],
    flagged for review exactly when its confidence is at least
    [MATCH_THRESHOLD - 0.1], and an alert mail is asked for; the cache
    and the counters stay as they are.  If the confidence reaches
    [UNKNOWN_MIN_CONFIDENCE] the record is made by [_save_unknown_face],
    which then raises: the call of [process_frame] ends in an
    exception. *)
Theorem process_face_unmatched
    (self : t) (mail : EmailAlertSystem.t) (face_id : Z) (e : ndarray)
    (face_bytes : DB.bytes) (now : DB.datetime) (clock : R)
    (attempt : EmailAlertSystem.smtp) (confidence : R) :
  (multi_frame_recognize self face_id e).2 = Ok (None, confidence) ->
  DB.reachable (db self) = true ->
  let result :=
    process_face self mail face_id e face_bytes now clock attempt in
  let review_flag :=
    if Rge_dec confidence (MATCH_THRESHOLD - 1 / 10) then true else false in
  result.2 = (if Rge_dec confidence (1 / 2) then Raised else Ok tt)
  /\ result.1.2 = (EmailAlertSystem.send_alert mail clock attempt).1
  /\ DB.logs_coll (db result.1.1)
     = <[N.succ (DB.next_id (db self)) :=
           detection "Unknown"%string confidence "Unauthorized"%string e
                     (DB.next_id (db self)) review_flag now]>
         (DB.logs_coll (db self))
  /\ DB.fs (db result.1.1)
     = <[DB.next_id (db self) := face_bytes]> (DB.fs (db self))
  /\ DB.auth_coll (db result.1.1) = DB.auth_coll (db self)
  /\ authorized_cache result.1.1 = authorized_cache self
  /\ recognition_counts result.1.1 = recognition_counts self
  /\ search_index result.1.1 = search_index self.
Proof.
  intros Hrec Hdb result review_flag. unfold result.
  unfold FaceRecognitionSystem.process_face.
  destruct (multi_frame_recognize self face_id e) as [seen recognised] eqn:Hm.
  simpl in Hrec. subst recognised.
  assert (seen = set_frame_buffers self
                   (<[face_id := buffered MULTIFRAME_COUNT self face_id e]>
                      (frame_buffers self))) as Hseen.
  { unfold FaceRecognitionSystem.multi_frame_recognize in Hm.
    by injection Hm as <- _. }
  unfold Config.SAVE_UNKNOWN_FACES, Config.UNKNOWN_MIN_CONFIDENCE,
    Config.AUTO_REVIEW_THRESHOLD.
  cbn [andb]. fold review_flag.
  destruct (Rge_dec confidence (1 / 2)).
  - unfold _save_unknown_face.
    rewrite save_detection_log_reachable by by subst seen.
    subst seen. simpl. by repeat split.
  - unfold log_detection. cbn [String.eqb Ascii.eqb Bool.eqb andb default].
    unfold Config.AUTO_REVIEW_THRESHOLD. fold review_flag.
    rewrite save_detection_log_reachable by by subst seen.
    subst seen. simpl. by repeat split.
Qed.

Lemma multi_frame_recognize_state self face_id e :
  (multi_frame_recognize self face_id e).1
  = set_frame_buffers self
      (<[face_id := buffered MULTIFRAME_COUNT self face_id e]>
         (frame_buffers self)).
Proof. done. Qed.

Lemma multi_frame_recognize_Ok self face_id e who confidence :
  (multi_frame_recognize self face_id e).2 = Ok (who, confidence) ->
  exists averaged,
    recognize_face MATCH_THRESHOLD
      (multi_frame_recognize self face_id e).1 averaged
    = (who, confidence).
Proof.
  unfold FaceRecognitionSystem.multi_frame_recognize. simpl.
  destruct (averaged_embedding _) as [averaged| |]; [|done..].
  intros [= H]. eauto.
Qed.

(** What the linear search answers, for a positive threshold. *)
Lemma linear_recognition self v who confidence :
  0 < MATCH_THRESHOLD ->
  use_faiss self = false \/ search_index self = None ->
  recognize_face MATCH_THRESHOLD self v = (who, confidence) ->
  (who = None -> confidence < MATCH_THRESHOLD)
  /\ (forall name,
        who = Some name ->
        MATCH_THRESHOLD <= confidence
        /\ exists auth, (name, auth) ∈ authorized_cache self).
Proof.
  intros Hpos Hlinear. unfold recognize_face.
  destruct (authorized_cache self) as [|entry cache] eqn:Hcache.
  { intros [= <- <-]. split; [by intros _ | done]. }
  assert (fold_left (linear_step MATCH_THRESHOLD v) (entry :: cache) (None, 0)
          = (who, confidence) ->
          (who = None -> confidence < MATCH_THRESHOLD)
          /\ (forall name,
                who = Some name ->
                MATCH_THRESHOLD <= confidence
                /\ exists auth, (name, auth) ∈ entry :: cache)) as Hfold.
  { intros Hrun.
    pose proof (linear_scan_scanned MATCH_THRESHOLD Hpos v (entry :: cache)
                  [] (None, 0)) as Hscan.
    rewrite Hrun in Hscan.
    destruct Hscan as (_ & _ & Hbelow & Habove).
    { unfold scanned; simpl. split; [lra|]. split.
      - by intros ? ? ?%elem_of_nil.
      - split; [done | lra]. }
    simpl in Hbelow, Habove. split.
    - intros ->. destruct (Rlt_dec confidence MATCH_THRESHOLD); [done|].
      destruct Habove as (? & ? & _ & _ & ?); [lra | done].
    - intros name ->.
      destruct (Rlt_dec confidence MATCH_THRESHOLD) as [Hlt|Hge].
      + by specialize (Hbelow Hlt).
      + destruct Habove as (n & auth & Hin & _ & [= <-]); [lra|].
        split; [lra | eauto]. }
  destruct Hlinear as [-> | ->]; [done|].
  by destruct (use_faiss self).
Qed.

Lemma update_adaptive_embedding_store self name e now :
  update_adaptive_embedding self name e now <> Raised
  /\ forall self',
      update_adaptive_embedding self name e now = Ok self' ->
      DB.next_id (db self') = DB.next_id (db self)
      /\ DB.logs_coll (db self') = DB.logs_coll (db self)
      /\ DB.reachable (db self') = DB.reachable (db self).
Proof.
  unfold update_adaptive_embedding.
  unfold Config.ENABLE_ADAPTIVE_UPDATE. cbv beta iota zeta delta [negb].
  destruct (Nat.eqb _ 0);
    [|split; [done | by intros ? [= <-]]].
  cbn [authorized_cache set_recognition_counts].
  destruct (dict_get name (authorized_cache self));
    [|split; [done | by intros ? [= <-]]].
  destruct (blend _ _); [|split; [done | by intros ? [= <-]]].
  destruct (finite _); [|split; done].
  unfold DB.update_authorized_embedding.
  cbn [db set_authorized_cache set_recognition_counts].
  destruct (DB.reachable (db self)) eqn:Hdb;
    [|split; [done | by intros ? [= <-]]].
  cbn [use_faiss search_index set_db set_authorized_cache
       set_recognition_counts].
  destruct (use_faiss self), (search_index self);
    (split; [done | by intros ? [= <-]]).
Qed.

(** X24.  On the linear search path, with a threshold that is positive
    and at most [UNKNOWN_MIN_CONFIDENCE] (the default 0.40 is) and no
    empty name in the cache, [_save_unknown_face] is never reached and a
    face that was recognised or rejected never ends [process_frame] in
    an exception.  The detection recorded for it carries the confidence
    of the recognition; it is ["Authorized"] under the matched name, at a
    confidence of at least the threshold, or ["Unauthorized"] under
    ["Unknown"], at a confidence below it, and it is flagged for review
    exactly when the face is unmatched and the confidence is within 0.1
    of the threshold. *)
Theorem process_face_linear_search
    (self : t) (mail : EmailAlertSystem.t) (face_id : Z) (e : ndarray)
    (face_bytes : DB.bytes) (now : DB.datetime) (clock : R)
    (attempt : EmailAlertSystem.smtp) (who : option string)
    (confidence : R) :
  0 < MATCH_THRESHOLD -> MATCH_THRESHOLD <= 1 / 2 ->
  use_faiss self = false \/ search_index self = None ->
  (forall v, (EmptyString, v) ∉ authorized_cache self) ->
  DB.reachable (db self) = true ->
  (multi_frame_recognize self face_id e).2 = Ok (who, confidence) ->
  let result :=
    process_face self mail face_id e face_bytes now clock attempt in
  result.2 <> Raised
  /\ (result.2 = Ok tt ->
      exists log,
        DB.logs_coll (db result.1.1) !! N.succ (DB.next_id (db self))
        = Some log
        /\ DB.log_confidence log = confidence
        /\ DB.log_name log = default "Unknown"%string who
        /\ DB.log_status log
           = match who with
             | Some _ => "Authorized"%string
             | None => "Unauthorized"%string
             end
        /\ (is_Some who -> MATCH_THRESHOLD <= confidence)
        /\ (who = None -> confidence < MATCH_THRESHOLD)
        /\ (DB.log_review_flag log = true <->
            who = None /\ MATCH_THRESHOLD - 1 / 10 <= confidence)).
Proof.
  intros Hpos Hhalf Hlinear Hnames Hdb Hrec result. unfold result.
  destruct (multi_frame_recognize_Ok _ _ _ _ _ Hrec) as [averaged Hface].
  apply linear_recognition in Hface as [Hnone Hsome]; [|done|done].
  unfold FaceRecognitionSystem.process_face.
  destruct (multi_frame_recognize self face_id e) as [seen recognised] eqn:Hm.
  pose proof (multi_frame_recognize_state self face_id e) as Hseen.
  rewrite Hm in Hseen. simpl in Hseen, Hrec, Hsome. subst recognised.
  assert (DB.reachable (db seen) = true
          /\ DB.next_id (db seen) = DB.next_id (db self)) as [Hdb' Hnext].
  { by subst seen. }
  destruct who as [name|].
  - destruct (Hsome name eq_refl) as [Hge [auth Hin]].
    destruct name as [|ch name].
    { subst seen. simpl in Hin. by apply Hnames in Hin. }
    destruct (update_adaptive_embedding_store seen (String ch name) e now)
      as [Hnot Hstore].
    destruct (update_adaptive_embedding seen (String ch name) e now)
      as [updated| |]; [|done|done].
    destruct (Hstore updated eq_refl) as (Hnext' & _ & Hreach).
    split; [done|]. intros _.
    unfold log_detection. cbn [String.eqb Ascii.eqb Bool.eqb andb default].
    rewrite save_detection_log_reachable by congruence. simpl.
    rewrite Hnext', Hnext, lookup_insert_eq.
    eexists. split; [done|]. simpl. repeat split; try done.
    + by intros [[=] _].
  - specialize (Hnone eq_refl).
    unfold Config.SAVE_UNKNOWN_FACES, Config.UNKNOWN_MIN_CONFIDENCE.
    cbn [andb].
    destruct (Rge_dec confidence (1 / 2)); [lra|].
    unfold log_detection. cbn [String.eqb Ascii.eqb Bool.eqb andb default].
    unfold Config.AUTO_REVIEW_THRESHOLD.
    rewrite save_detection_log_reachable by done. simpl.
    rewrite Hnext, lookup_insert_eq.
    split; [done|]. intros _.
    eexists. split; [done|]. simpl. repeat split; try done.
    + match goal with H : _ = true |- _ => revert H end.
      destruct (Rge_dec _ _); [lra | done].
    + intros [_ H]. destruct (Rge_dec _ _); [done | lra].
Qed.
End FrameFacts.

Section FrameRuns.
Import Np Py FaceUtils FaceRecognitionSystem.
Local Open Scope R_scope.

(** A face at a right angle to the only enrolled one is rejected with
    confidence 0. *)
Lemma rejected_run :
  (multi_frame_recognize (2 / 5) 1 (Scenario.system 0) 7 [0; 1]).2
  = Ok (None, 0).
Proof.
  assert (sumsq [1; 0] = 1) as H10 by (simpl; lra).
  assert (sumsq [0; 1] = 1) as H01 by (simpl; lra).
  assert (buffered 1 (Scenario.system 0) 7 [0; 1] = repeat [0; 1] 1) as Hbuf.
  { unfold buffered. cbn [frame_buffers Scenario.system].
    by rewrite lookup_empty. }
  unfold multi_frame_recognize. rewrite Hbuf. cbn [snd].
  rewrite (averaged_embedding_repeat 1 (le_n 1) [0; 1])
    by by apply linalg_norm_unit.
  f_equal. unfold recognize_face, linear_step; simpl.
  assert (cosine_similarity [0; 1] [1; 0] = 0) as ->.
  { unfold cosine_similarity.
    rewrite (normalize_unit _ H10), (normalize_unit _ H01). simpl.
    apply clip_below. lra. }
  destruct (Rgt_dec 0 0); [lra|done].
Qed.

Lemma process_face_unmatched_witness :
  (process_face (2 / 5) 1 "cam_01" (Scenario.system 0)
     (EmailAlertSystem.init true "" 300) 7 [0; 1] [Byte.x03] 100%N 0
     EmailAlertSystem.OtherError).2 = Ok tt.
Proof.
  destruct (process_face_unmatched (2 / 5) 1 "cam_01" (Scenario.system 0)
              (EmailAlertSystem.init true "" 300) 7 [0; 1] [Byte.x03]
              100%N 0 EmailAlertSystem.OtherError 0 rejected_run eq_refl)
    as [Hresult _].
  rewrite Hresult. destruct (Rge_dec 0 (1 / 2)); [lra | done].
Defined.

Lemma process_face_linear_search_witness :
  (process_face (2 / 5) 1 "cam_01" (Scenario.system 0)
     (EmailAlertSystem.init true "" 300) 7 [0; 1] [Byte.x03] 100%N 0
     EmailAlertSystem.OtherError).2 <> Raised.
Proof.
  apply (process_face_linear_search (2 / 5) 1 "cam_01" (Scenario.system 0)
           (EmailAlertSystem.init true "" 300) 7 [0; 1] [Byte.x03]
           100%N 0 EmailAlertSystem.OtherError None 0).
  - lra.
  - lra.
  - by left.
  - intros v H%list_elem_of_singleton. done.
  - reflexivity.
  - apply rejected_run.
Defined.
End FrameRuns.

(** ** The store: identities, detections and the review queue *)

Section StoreFacts.
Import Np DB UnknownFaceHandler.
Local Open Scope R_scope.

(** X25.  With the store reachable, [add_authorized_face] succeeds and
    [get_authorized_by_name] then returns the document with the vector
    given and an image id under which [get_image] returns the bytes
    given.  For a name that was there the document keeps its id and its
    creation time; the documents under other names are as before.
    [delete_authorized_face] then answers [True], after which the name
    and its image are gone and a second deletion answers [False]. *)
Theorem authorized_face_round_trip
    (db : t) (name : string) (embedding : ndarray) (image_bytes : bytes)
    (now : datetime) :
  reachable db = true ->
  exists db' doc_id doc,
    add_authorized_face db name embedding image_bytes now = Some (db', doc_id)
    /\ get_authorized_by_name db' name = Some doc
    /\ af_id doc = doc_id /\ af_embedding doc = embedding
    /\ af_updated_at doc = now
    /\ get_image db' (af_image_id doc) = Some image_bytes
    /\ match auth_coll db !! name with
       | Some existing =>
           af_id doc = af_id existing
           /\ af_created_at doc = af_created_at existing
       | None => af_created_at doc = now
       end
    /\ (forall other,
          other <> name ->
          get_authorized_by_name db' other = get_authorized_by_name db other)
    /\ exists db'',
        delete_authorized_face db' name = Some (db'', true)
        /\ get_authorized_by_name db'' name = None
        /\ get_image db'' (af_image_id doc) = None
        /\ delete_authorized_face db'' name = Some (db'', false).
Proof.
  intros Hdb. unfold add_authorized_face. rewrite Hdb. simpl.
  destruct (auth_coll db !! name) as [existing|] eqn:Hname.
  - eexists _, _, _. split; [done|].
    unfold get_authorized_by_name, get_image, delete_authorized_face. simpl.
    rewrite Hdb. rewrite !lookup_insert_eq. simpl.
    split_and!; try done.
    + simpl. by rewrite lookup_insert_eq.
    + intros other Hne. by rewrite lookup_insert_ne.
    + eexists. split_and!; [done|..]; simpl; by rewrite ?lookup_delete_eq.
  - eexists _, _, _. split; [done|].
    unfold get_authorized_by_name, get_image, delete_authorized_face. simpl.
    rewrite Hdb. rewrite !lookup_insert_eq. simpl.
    split_and!; try done.
    + simpl. by rewrite lookup_insert_eq.
    + intros other Hne. by rewrite lookup_insert_ne.
    + eexists. split_and!; [done|..]; simpl; by rewrite ?lookup_delete_eq.
Qed.

Lemma authorized_face_round_trip_witness :
  exists db' doc_id doc,
    add_authorized_face Scenario.store "bob" [0; 1] [Byte.x03] 100%N
    = Some (db', doc_id)
    /\ get_authorized_by_name db' "bob" = Some doc
    /\ af_id doc = doc_id /\ af_embedding doc = [0; 1]
    /\ af_updated_at doc = 100%N
    /\ get_image db' (af_image_id doc) = Some [Byte.x03].
Proof.
  destruct (authorized_face_round_trip Scenario.store "bob" [0; 1]
              [Byte.x03] 100%N eq_refl)
    as (db' & doc_id & doc & H1 & H2 & H3 & H4 & H5 & H6 & _).
  by exists db', doc_id, doc.
Defined.

#[global] Instance newer_total : Total newer.
Proof. intros a b. unfold newer. lia. Qed.

#[global] Instance newer_trans : Transitive newer.
Proof. intros a b c. unfold newer. lia. Qed.

Lemma StronglySorted_take {A} (R : relation A) n (l : list A) :
  StronglySorted R l -> StronglySorted R (take n l).
Proof.
  intros Hl. revert n.
  induction Hl as [|x l Hl IH Hall]; intros [|n]; simpl; try constructor.
  - apply IH.
  - rewrite Forall_forall in *. intros y Hy%subseteq_take. by apply Hall.
Qed.

(** What [get_detection_logs] returns, in terms of the collection. *)
Lemma get_detection_logs_spec db limit status camera_id review_flag :
  reachable db = true ->
  exists logs,
    get_detection_logs db limit status camera_id review_flag = Some logs
    /\ (forall id log,
          (id, log) ∈ logs ->
          logs_coll db !! id = Some log
          /\ matches status camera_id review_flag log = true)
    /\ StronglySorted newer logs
    /\ NoDup (map fst logs)
    /\ (limit <> O -> (length logs <= limit)%nat)
    /\ (limit = O \/ (size (logs_coll db) <= limit)%nat ->
        forall id log,
          logs_coll db !! id = Some log ->
          matches status camera_id review_flag log = true ->
          (id, log) ∈ logs).
Proof.
  intros Hdb. unfold get_detection_logs. rewrite Hdb.
  set (found := filter _ (map_to_list (logs_coll db))).
  set (sorted := merge_sort newer found).
  assert (forall id log,
             (id, log) ∈ sorted <->
             logs_coll db !! id = Some log
             /\ matches status camera_id review_flag log = true) as Hin.
  { intros id log. unfold sorted. rewrite merge_sort_Permutation.
    unfold found. rewrite list_elem_of_filter, elem_of_map_to_list.
    simpl. tauto. }
  assert (StronglySorted newer sorted) as Hsorted.
  { apply StronglySorted_merge_sort; apply _. }
  assert (NoDup (map fst sorted)) as Hnodup.
  { unfold sorted. rewrite merge_sort_Permutation. unfold found.
    apply NoDup_fmap_fst.
    - intros id l1 l2 [_ H1]%list_elem_of_filter [_ H2]%list_elem_of_filter.
      apply elem_of_map_to_list in H1, H2. congruence.
    - apply NoDup_filter, NoDup_map_to_list. }
  assert (length sorted <= size (logs_coll db))%nat as Hsize.
  { unfold sorted. rewrite merge_sort_Permutation. unfold found.
    rewrite <- length_map_to_list. apply length_filter. }
  destruct limit as [|limit'].
  - exists sorted. split_and!; try done.
    + intros id log Hid. by apply Hin.
    + intros _ id log H1 H2. by apply Hin.
  - exists (take (S limit') sorted).
    split; [done|]. split; [|split; [|split; [|split]]].
    + intros id log Hid%subseteq_take. by apply Hin.
    + by apply StronglySorted_take.
    + eapply sublist_NoDup; [exact Hnodup|].
      apply (fmap_sublist fst), sublist_take.
    + intros _. rewrite length_take. lia.
    + intros [Hzero|Hall] id log H1 H2; [done|].
      rewrite take_ge by lia. by apply Hin.
Qed.

Lemma string_filter_true wanted actual :
  string_filter wanted actual = true <->
  forall s, wanted = Some s -> s <> EmptyString -> actual = s.
Proof.
  destruct wanted as [[|ch s]|]; simpl.
  - split; [by intros _ ? [= <-] | done].
  - rewrite String.eqb_eq. split; [by intros -> ? [= <-] | intros H; by apply H].
  - split; [done | done].
Qed.

Lemma matches_true status camera_id review_flag log :
  matches status camera_id review_flag log = true <->
  (forall s, status = Some s -> s <> EmptyString -> log_status log = s)
  /\ (forall c, camera_id = Some c -> c <> EmptyString ->
                log_camera_id log = c)
  /\ (forall flag, review_flag = Some flag -> log_review_flag log = flag).
Proof.
  unfold matches. rewrite !andb_true_iff, !string_filter_true.
  destruct review_flag as [flag|].
  - rewrite Bool.eqb_true_iff. split.
    + intros [[? ?] ->]. by split_and!; [..|intros ? [= <-]].
    + intros (? & ? & H). split_and!; [done..|by apply H].
  - split; [intros [[? ?] _]; by split_and! | by intros (? & ? & _)].
Qed.

(** X26.  [get_detection_logs] raises when the store cannot be reached.
    Otherwise it returns documents of the collection, each once, newest
    first, every one of them passing the filters that are set (an empty
    string for the status or the camera sets no filter), at most [limit]
    of them for a limit other than 0; with the limit 0, or one that the
    collection does not exceed, it returns all the documents that pass
    the filters. *)
Theorem get_detection_logs_filtered
    (db : t) (limit : nat) (status camera_id : option string)
    (review_flag : option bool) :
  (reachable db = false ->
   get_detection_logs db limit status camera_id review_flag = None)
  /\ (reachable db = true ->
      exists logs,
        get_detection_logs db limit status camera_id review_flag = Some logs
        /\ (forall id log,
              (id, log) ∈ logs ->
              logs_coll db !! id = Some log
              /\ (forall s, status = Some s -> s <> EmptyString ->
                            log_status log = s)
              /\ (forall c, camera_id = Some c -> c <> EmptyString ->
                            log_camera_id log = c)
              /\ (forall flag, review_flag = Some flag ->
                               log_review_flag log = flag))
        /\ StronglySorted
             (fun a b => (log_timestamp b.2 <= log_timestamp a.2)%N) logs
        /\ NoDup (map fst logs)
        /\ (limit <> O -> (length logs <= limit)%nat)
        /\ (limit = O \/ (size (logs_coll db) <= limit)%nat ->
            forall id log,
              logs_coll db !! id = Some log ->
              matches status camera_id review_flag log = true ->
              (id, log) ∈ logs))
  /\ get_detection_logs db limit (Some EmptyString) camera_id review_flag
     = get_detection_logs db limit None camera_id review_flag.
Proof.
  split; [|split; [|done]].
  - intros Hdb. unfold get_detection_logs. by rewrite Hdb.
  - intros Hdb.
    destruct (get_detection_logs_spec db limit status camera_id review_flag
                Hdb) as (logs & Hget & Hin & Hsorted & Hnodup & Hlen & Hall).
    exists logs. split_and!; try done.
    intros id log Hlog. destruct (Hin id log Hlog) as [Hcoll Hmatch].
    split; [done|]. by apply matches_true.
Qed.

Lemma get_unknown_faces_pending db limit id log :
  (id, log) ∈ get_unknown_faces db limit ->
  logs_coll db !! id = Some log
  /\ log_status log = "Unauthorized"%string
  /\ log_review_flag log = true.
Proof.
  unfold get_unknown_faces.
  destruct (reachable db) eqn:Hdb.
  - destruct (get_detection_logs_spec db limit (Some "Unauthorized"%string)
                None (Some true) Hdb) as (logs & -> & Hin & _).
    simpl. intros [Hcoll Hmatch]%Hin.
    apply matches_true in Hmatch as (Hstatus & _ & Hflag).
    split; [done|]. split; [by apply Hstatus | by apply Hflag].
  - unfold get_detection_logs. rewrite Hdb. by intros ?%elem_of_nil.
Qed.

Lemma not_pending db limit id :
  (reachable db = true ->
   forall log, logs_coll db !! id = Some log -> log_review_flag log = false) ->
  id ∉ map fst (get_unknown_faces db limit).
Proof.
  intros Hflag ([id' log] & Hid & Hin)%list_elem_of_fmap. simpl in Hid.
  subst id'.
  destruct (reachable db) eqn:Hdb.
  - apply get_unknown_faces_pending in Hin as (Hcoll & _ & Htrue).
    specialize (Hflag eq_refl log Hcoll). congruence.
  - unfold get_unknown_faces, get_detection_logs in Hin. rewrite Hdb in Hin.
    by apply elem_of_nil in Hin.
Qed.

Lemma enroll_unknown_reachable db log_id name now :
  (enroll_unknown_as_authorized db log_id name now).2 = true ->
  reachable db = true
  /\ exists log image_bytes db1 doc_id,
      logs_coll db !! log_id = Some log
      /\ add_authorized_face db name (log_embedding log) image_bytes now
         = Some (db1, doc_id)
      /\ (enroll_unknown_as_authorized db log_id name now).1
         = set_logs_coll db1
             (alter (mark_enrolled name now) log_id (logs_coll db1)).
Proof.
  unfold enroll_unknown_as_authorized.
  destruct (reachable db); [|done].
  destruct (logs_coll db !! log_id) as [log|]; [|done].
  destruct (get_image _ _) as [[|b image_bytes]|]; [done| |done].
  destruct (add_authorized_face _ _ _ _ _) as [[db1 doc_id]|] eqn:Hadd;
    [|done].
  intros _. split; [done|]. by eexists _, _, _, _.
Qed.

(** X27.  The review queue.  [get_unknown_faces] returns only documents
    of the collection that are ["Unauthorized"] and flagged for review; a
    detection saved as such is in the queue (asked without limit).
    After [dismiss_unknown], after [delete_unknown], and after an
    [enroll_unknown_as_authorized] that answered [True], the detection
    is not in the queue any more. *)
Theorem review_queue
    (db : t) (log_id : ObjectId) (name : string) (now : datetime)
    (limit : nat) :
  (forall id log,
      (id, log) ∈ get_unknown_faces db limit ->
      logs_coll db !! id = Some log
      /\ log_status log = "Unauthorized"%string
      /\ log_review_flag log = true)
  /\ (forall who confidence embedding image_bytes camera_id db' id,
        save_detection_log db who confidence "Unauthorized" embedding
                           image_bytes camera_id true now = Some (db', id) ->
        id ∈ map fst (get_unknown_faces db' 0))
  /\ (log_id ∉ map fst (get_unknown_faces (dismiss_unknown db log_id now).1
                                          limit))
  /\ (log_id ∉ map fst (get_unknown_faces (delete_unknown db log_id).1
                                          limit))
  /\ ((enroll_unknown_as_authorized db log_id name now).2 = true ->
      log_id ∉ map fst (get_unknown_faces
                          (enroll_unknown_as_authorized db log_id name now).1
                          limit)).
Proof.
  split_and!.
  - apply get_unknown_faces_pending.
  - intros who confidence embedding image_bytes camera_id db' id Hsave.
    unfold save_detection_log in Hsave.
    destruct (reachable db) eqn:Hdb; [|done]. simpl in Hsave.
    injection Hsave as <- <-.
    unfold get_unknown_faces.
    match goal with |- context [get_detection_logs ?d _ _ _ _] =>
      destruct (get_detection_logs_spec d 0 (Some "Unauthorized"%string)
                  None (Some true)) as (logs & -> & _ & _ & _ & _ & Hall)
    end; [done|].
    simpl. apply list_elem_of_fmap. eexists (_, _). split; [done|].
    apply Hall; [by left | simpl; apply lookup_insert_eq | done].
  - apply not_pending. unfold dismiss_unknown.
    destruct (reachable db) eqn:Hdb; [|simpl; congruence].
    intros _ log.
    destruct (logs_coll db !! log_id) as [old|] eqn:Hold;
      [|simpl; congruence].
    destruct (bool_decide _) eqn:Hsame.
    + apply bool_decide_eq_true in Hsame as (Hflag & _).
      simpl. rewrite Hold. by intros [= <-].
    + simpl. rewrite lookup_insert_eq. by intros [= <-].
  - apply not_pending. unfold delete_unknown.
    destruct (reachable db) eqn:Hdb; [|simpl; congruence].
    intros _ log.
    destruct (logs_coll db !! log_id) as [old|] eqn:Hold; simpl.
    + rewrite Hold. simpl. by rewrite lookup_delete_eq.
    + rewrite Hold. simpl. congruence.
  - intros Hok.
    destruct (enroll_unknown_reachable db log_id name now Hok)
      as (Hdb & log & image_bytes & db1 & doc_id & Hlog & Hadd & ->).
    apply not_pending. intros _ new. simpl.
    rewrite lookup_alter_eq.
    destruct (logs_coll db1 !! log_id); simpl; [|done].
    by intros [= <-].
Qed.

(** X28.  [delete_unknown] answers [True] exactly when the store is
    reachable and holds the detection, whatever its review state.  It
    then removes the document and its image and nothing else; any later
    enrolment, dismissal or deletion of that detection answers [False].
    When it answers [False] the store is unchanged. *)
Theorem delete_unknown_removes (db : t) (log_id : ObjectId) :
  ((delete_unknown db log_id).2 = true <->
   reachable db = true /\ is_Some (logs_coll db !! log_id))
  /\ ((delete_unknown db log_id).2 = false ->
      (delete_unknown db log_id).1 = db)
  /\ (forall log,
        reachable db = true -> logs_coll db !! log_id = Some log ->
        let db' := (delete_unknown db log_id).1 in
        logs_coll db' = delete log_id (logs_coll db)
        /\ fs db' = delete (log_image_id log) (fs db)
        /\ auth_coll db' = auth_coll db
        /\ (forall name now,
              (enroll_unknown_as_authorized db' log_id name now).2 = false)
        /\ (forall now, (dismiss_unknown db' log_id now).2 = false)
        /\ (delete_unknown db' log_id).2 = false).
Proof.
  assert (forall d, logs_coll d !! log_id = None ->
                    delete_unknown d log_id = (d, false)) as Hmissing.
  { intros d Hnone. unfold delete_unknown.
    destruct (reachable d); [|done]. rewrite Hnone. cbv beta iota.
    by rewrite Hnone. }
  destruct (reachable db) eqn:Hdb.
  - destruct (logs_coll db !! log_id) as [log|] eqn:Hlog.
    + assert (delete_unknown db log_id
              = (set_logs_coll (set_fs db (delete (log_image_id log) (fs db)))
                               (delete log_id (logs_coll db)), true)) as ->.
      { unfold delete_unknown. rewrite Hdb, Hlog. simpl. by rewrite Hlog. }
      simpl. split_and!; [split; by eauto | done |].
      intros ? _ [= <-]. split_and!; try done.
      * intros name now. unfold enroll_unknown_as_authorized. simpl.
        by rewrite Hdb, lookup_delete_eq.
      * intros now. unfold dismiss_unknown. simpl.
        by rewrite Hdb, lookup_delete_eq.
      * rewrite Hmissing; [done|]. simpl. apply lookup_delete_eq.
    + rewrite Hmissing by done. simpl. split_and!; [|done|done].
      split; [done | by intros [_ [? ?]]].
  - assert (delete_unknown db log_id = (db, false)) as ->.
    { unfold delete_unknown. by rewrite Hdb. }
    simpl. split_and!; [|done|done].
    split; [done | by intros [? _]].
Qed.

Lemma delete_unknown_removes_witness :
  (delete_unknown Scenario.store 3).2 = true
  /\ logs_coll (delete_unknown Scenario.store 3).1
     = delete 3%N (logs_coll Scenario.store)
  /\ (delete_unknown (delete_unknown Scenario.store 3).1 3).2 = false.
Proof.
  destruct (delete_unknown_removes Scenario.store 3) as (Hok & _ & Hgone).
  split; [apply Hok; split; [done | by eexists]|].
  destruct (Hgone Scenario.sighting eq_refl eq_refl)
    as (Hlogs & _ & _ & _ & _ & Hagain).
  by split.
Defined.

Lemma insert_reverse_elem {A} (key : A -> R) (x y : A) (l : list A) :
  y ∈ Py.insert_reverse key x l <-> y = x \/ y ∈ l.
Proof.
  induction l as [|z l IH]; simpl.
  - rewrite list_elem_of_singleton. split; [by left|].
    by intros [?|?%elem_of_nil].
  - destruct (Rlt_dec (key x) (key z)).
    + rewrite !elem_of_cons, IH. tauto.
    + by rewrite !elem_of_cons.
Qed.

Lemma sort_reverse_elem {A} (key : A -> R) (y : A) (l : list A) :
  y ∈ Py.sort_reverse key l <-> y ∈ l.
Proof.
  unfold Py.sort_reverse. induction l as [|x l IH]; simpl; [done|].
  by rewrite insert_reverse_elem, elem_of_cons, IH.
Qed.

Lemma insert_reverse_sorted {A} (key : A -> R) (x : A) (l : list A) :
  StronglySorted (fun a b => key b <= key a) l ->
  StronglySorted (fun a b => key b <= key a) (Py.insert_reverse key x l).
Proof.
  induction 1 as [|z l Hl IH Hall]; simpl.
  - by repeat constructor.
  - destruct (Rlt_dec (key x) (key z)) as [Hlt|Hge].
    + constructor; [done|]. apply Forall_forall.
      intros y [->|Hy]%insert_reverse_elem; [lra|].
      rewrite Forall_forall in Hall. by apply Hall.
    + constructor; [by constructor|].
      constructor; [lra|]. rewrite Forall_forall in *.
      intros y Hy. specialize (Hall y Hy). lra.
Qed.

Lemma sort_reverse_sorted {A} (key : A -> R) (l : list A) :
  StronglySorted (fun a b => key b <= key a) (Py.sort_reverse key l).
Proof.
  unfold Py.sort_reverse. induction l as [|x l IH]; simpl; [constructor|].
  by apply insert_reverse_sorted.
Qed.

(** X29.  [get_similar_unknowns] returns at most [limit] detections,
    the most similar first.  Each of them is a detection pending review
    other than the reference, given with the cosine similarity of its
    vector to that of the reference, which is at least [threshold].
    The answer is empty when the reference is not in the collection and
    when the store cannot be reached. *)
Theorem get_similar_unknowns_ranked
    (db : t) (log_id : ObjectId) (threshold : R) (limit : nat) :
  (length (get_similar_unknowns db log_id threshold limit) <= limit)%nat
  /\ StronglySorted (fun a b => b.2 <= a.2)
                    (get_similar_unknowns db log_id threshold limit)
  /\ (forall id log similarity,
        (id, log, similarity)
          ∈ get_similar_unknowns db log_id threshold limit ->
        id <> log_id
        /\ logs_coll db !! id = Some log
        /\ log_status log = "Unauthorized"%string
        /\ log_review_flag log = true
        /\ threshold <= similarity
        /\ exists ref_log,
            logs_coll db !! log_id = Some ref_log
            /\ similarity
               = FaceUtils.cosine_similarity (log_embedding ref_log)
                                             (log_embedding log))
  /\ (reachable db = false \/ logs_coll db !! log_id = None ->
      get_similar_unknowns db log_id threshold limit = []).
Proof.
  unfold get_similar_unknowns.
  destruct (reachable db) eqn:Hdb.
  2:{ split_and!; [simpl; lia | constructor | by intros ? ? ? ?%elem_of_nil
                   | done]. }
  destruct (logs_coll db !! log_id) as [ref_log|] eqn:Href.
  2:{ split_and!; [simpl; lia | constructor | by intros ? ? ? ?%elem_of_nil
                   | done]. }
  destruct (get_detection_logs_spec db 1000 (Some "Unauthorized"%string)
              None (Some true) Hdb) as (unknowns & -> & Hin & _).
  split_and!.
  - rewrite length_take. lia.
  - apply StronglySorted_take, sort_reverse_sorted.
  - intros id log similarity Hres%subseteq_take%sort_reverse_elem.
    apply list_elem_of_omap in Hres as ([id' log'] & Hunknown & Hitem).
    unfold similar_item in Hitem. simpl in Hitem.
    destruct (N.eqb_spec id' log_id) as [|Hne]; [done|].
    destruct (Rge_dec _ threshold) as [Hge|]; [|done].
    injection Hitem as -> -> <-.
    destruct (Hin id log Hunknown) as [Hcoll Hmatch].
    apply matches_true in Hmatch as (Hstatus & _ & Hflag).
    split_and!; [done | done | by apply Hstatus | by apply Hflag | lra
                 | by eauto].
  - by intros [|].
Qed.
End StoreFacts.

(** ** Alert mails *)

Section AlertFacts.
Import EmailAlertSystem.
Local Open Scope R_scope.

Lemma send_alerts_refused (attempts : list (R * smtp)) (self : t) :
  Forall (fun attempt => enabled self = false
                         \/ can_send_email self attempt.1 = false) attempts ->
  send_alerts self attempts = (self, repeat false (length attempts)).
Proof.
  induction 1 as [|[now attempt] attempts Hrefused _ IH]; simpl; [done|].
  assert (send_alert self now attempt = (self, false)) as ->.
  { unfold send_alert. destruct Hrefused as [-> | Hcool]; [done|].
    simpl in Hcool. rewrite Hcool. by destruct (enabled self). }
  by rewrite IH.
Qed.

(** X30.  Alert mails are rate limited and can be switched off for good.
    After a mail that went out, every alert asked for while less than
    [cooldown] seconds have passed since then is dropped without a word
    to the server, however many there are, and the state stays as it is.
    A system that is not enabled, be it that no password was set or that
    the server once refused the login, never sends. *)
Theorem alerts_are_rate_limited
    (self : t) (now sent_at : R) (attempts : list (R * smtp)) :
  ((send_alert self now (Sent sent_at)).2 = true ->
   Forall (fun attempt => attempt.1 - sent_at < cooldown self) attempts ->
   send_alerts (send_alert self now (Sent sent_at)).1 attempts
   = ((send_alert self now (Sent sent_at)).1,
      repeat false (length attempts)))
  /\ (enabled self = false ->
      send_alerts self attempts = (self, repeat false (length attempts)))
  /\ (enabled self = true -> can_send_email self now = true ->
      (send_alert self now SMTPAuthenticationError).2 = false
      /\ send_alerts (send_alert self now SMTPAuthenticationError).1 attempts
         = ((send_alert self now SMTPAuthenticationError).1,
            repeat false (length attempts)))
  /\ (forall password cooldown_seconds,
        send_alerts (init true EmptyString cooldown_seconds) attempts
        = (init true EmptyString cooldown_seconds,
           repeat false (length attempts))
        /\ send_alerts (init false password cooldown_seconds) attempts
           = (init false password cooldown_seconds,
              repeat false (length attempts))).
Proof.
  split_and!.
  - unfold send_alert.
    destruct (enabled self); [|done]. simpl.
    destruct (can_send_email self now); [|done]. simpl.
    intros _ Hsoon. apply send_alerts_refused.
    eapply Forall_impl; [exact Hsoon|]. intros [t attempt] Ht. simpl in *.
    right. unfold can_send_email. simpl.
    destruct (Rge_dec _ _); [lra | done].
  - intros Hoff. apply send_alerts_refused.
    apply Forall_forall. by left.
  - intros Hon Hcan. unfold send_alert. rewrite Hon, Hcan. simpl.
    split; [done|]. apply send_alerts_refused.
    apply Forall_forall. by left.
  - intros password cooldown_seconds.
    split; apply send_alerts_refused; apply Forall_forall; by left.
Qed.

Lemma alerts_are_rate_limited_witness :
  let self := init true "secret" 300 in
  (send_alert self 1000 (Sent 1002)).2 = true
  /\ send_alerts (send_alert self 1000 (Sent 1002)).1
       [(1100, Sent 1101); (1301, Sent 1302)]
     = ((send_alert self 1000 (Sent 1002)).1, [false; false]).
Proof.
  split; [done|].
  destruct (alerts_are_rate_limited (init true "secret" 300) 1000 1002
              [(1100, Sent 1101); (1301, Sent 1302)]) as [Hlimit _].
  apply Hlimit; [done|].
  repeat constructor; simpl; lra.
Defined.
End AlertFacts.
